(** * let-it-snow: the particle engine and its controller

    A shallow embedding of the [SnowEffect] class and proofs about its
    lifecycle, particle factory and per-frame simulation.

    The repository carries two copies of the engine:
    - [src/core/SnowEffect.js]                    (here: [CoreBuild]);
    - a second copy, with snow accrual and elves  (here: [AccrualBuild]).
    They share every method modelled below except the intensity table, the
    two decoration constructors, the sprite spawner with its call in
    [_animate], and [_updateSpecialParticle]; those take the build as a
    parameter.

    Conventions of the embedding:
    - a JavaScript number is an exact rational ([Q]); IEEE-754 rounding, NaN
      and the infinities are outside the model, except for the easing of
      the gust, which is also given with each operation rounded to
      binary64 ([ease_rounded] with [round64]) and on the Standard
      Library's binary64 numbers ([Binary64.ease]);
    - [Math.random], [Math.sin], [performance.now], the viewport size,
      [document.hidden], the frame scheduler and the timers belong to the
      host and are fields of [Host];
    - a method is a computation in the monad [M]: it reads and writes the
      [World] (host and effect object) and either returns or raises; a raise
      keeps the world as it was when the exception left the method;
    - drawing writes pixels only and is left out. *)

From Stdlib Require Import QArith ZArith Lqa Lia String List Bool Qabs Qminmax Qround PArith.
From Stdlib Require Import Qpower SpecFloat.
Import ListNotations.

Open Scope Q_scope.

(** ** Data *)

Inductive Build := CoreBuild | AccrualBuild.

(** One entry of [INTENSITY_CONFIG]. *)
Record IntensityConfig := mkConfig {
  count      : Z;
  speedRange : Q * Q;
  sizeRange  : Q * Q;
  trees      : Z;
  wreaths    : Z
}.

(** The drawing surface: [canvas.width], [canvas.height] and whether the
    element is attached to the document ([canvas.parentNode]). *)
Record Canvas := mkCanvas {
  width      : Z;
  height     : Z;
  parentNode : bool
}.

(** A drift particle (snowflake), as built by [_createParticle]. *)
Module Particle.
Record t := mk {
  x : Q;
  y : Q;
  size : Q;
  speed : Q;
  opacity : Q;
  windOffset : Q;
  windSpeed : Q;
  rotation : Q;
  rotationSpeed : Q
}.
End Particle.

(** The [type] tag of an entry of [specialParticles]. *)
Inductive SpecialType := tree | wreath | sleigh | elf.

Definition SpecialType_eqb (a b : SpecialType) : bool :=
  match a, b with
  | tree, tree | wreath, wreath | sleigh, sleigh | elf, elf => true
  | _, _ => false
  end.

(** One pre-generated segment of a wreath's ring. *)
Record Segment := mkSegment {
  angle     : Q;
  radius    : Q;
  thickness : Q;
  color     : string
}.

(** An entry of [specialParticles].  The source uses one loosely typed
    object for decorations and sprites; a field that an object does not
    carry is never read for it by the methods below and is 0 here, except
    [snowLevel], which is [None] where the object has no such field. *)
Module Special.
Record t := mk {
  type : SpecialType;
  x : Q;
  y : Q;
  baseY : Q;
  vx : Q;
  waveAmplitude : Q;
  waveFrequency : Q;
  wavePhase : Q;
  time : Q;
  size : Q;
  opacity : Q;
  rotation : Q;
  active : bool;
  static : bool;
  shape : list Segment;
  snowLevel : option Q
}.

Definition set_x (v : Q) (p : t) : t :=
  mk (type p) v (y p) (baseY p) (vx p) (waveAmplitude p) (waveFrequency p)
     (wavePhase p) (time p) (size p) (opacity p) (rotation p) (active p)
     (static p) (shape p) (snowLevel p).
Definition set_y (v : Q) (p : t) : t :=
  mk (type p) (x p) v (baseY p) (vx p) (waveAmplitude p) (waveFrequency p)
     (wavePhase p) (time p) (size p) (opacity p) (rotation p) (active p)
     (static p) (shape p) (snowLevel p).
Definition set_time (v : Q) (p : t) : t :=
  mk (type p) (x p) (y p) (baseY p) (vx p) (waveAmplitude p) (waveFrequency p)
     (wavePhase p) v (size p) (opacity p) (rotation p) (active p)
     (static p) (shape p) (snowLevel p).
Definition set_active (v : bool) (p : t) : t :=
  mk (type p) (x p) (y p) (baseY p) (vx p) (waveAmplitude p) (waveFrequency p)
     (wavePhase p) (time p) (size p) (opacity p) (rotation p) v
     (static p) (shape p) (snowLevel p).
Definition set_snowLevel (v : option Q) (p : t) : t :=
  mk (type p) (x p) (y p) (baseY p) (vx p) (waveAmplitude p) (waveFrequency p)
     (wavePhase p) (time p) (size p) (opacity p) (rotation p) (active p)
     (static p) (shape p) v.
End Special.

(** The fields of a [SnowEffect] instance.  [ctx] lives and dies with
    [canvas] and is not kept apart. *)
Record Effect := mkEffect {
  intensity        : string;
  enabled          : bool;
  seasonCheck      : option (unit -> bool);
  canvas           : option Canvas;
  particles        : list Particle.t;
  specialParticles : list Special.t;
  animationId      : option positive;
  lastTime         : Q;
  isPaused         : bool;
  resizeTimeout    : option positive;
  windGust         : Q;
  windGustTarget   : Q;
  lastGustTime     : Q;
  twinkleTime      : Q
}.

Definition set_intensity (v : string) (e : Effect) : Effect :=
  mkEffect v (enabled e) (seasonCheck e) (canvas e) (particles e)
    (specialParticles e) (animationId e) (lastTime e) (isPaused e)
    (resizeTimeout e) (windGust e) (windGustTarget e) (lastGustTime e)
    (twinkleTime e).
Definition set_canvas (v : option Canvas) (e : Effect) : Effect :=
  mkEffect (intensity e) (enabled e) (seasonCheck e) v (particles e)
    (specialParticles e) (animationId e) (lastTime e) (isPaused e)
    (resizeTimeout e) (windGust e) (windGustTarget e) (lastGustTime e)
    (twinkleTime e).
Definition set_particles (v : list Particle.t) (e : Effect) : Effect :=
  mkEffect (intensity e) (enabled e) (seasonCheck e) (canvas e) v
    (specialParticles e) (animationId e) (lastTime e) (isPaused e)
    (resizeTimeout e) (windGust e) (windGustTarget e) (lastGustTime e)
    (twinkleTime e).
Definition set_specialParticles (v : list Special.t) (e : Effect) : Effect :=
  mkEffect (intensity e) (enabled e) (seasonCheck e) (canvas e) (particles e)
    v (animationId e) (lastTime e) (isPaused e)
    (resizeTimeout e) (windGust e) (windGustTarget e) (lastGustTime e)
    (twinkleTime e).
Definition set_animationId (v : option positive) (e : Effect) : Effect :=
  mkEffect (intensity e) (enabled e) (seasonCheck e) (canvas e) (particles e)
    (specialParticles e) v (lastTime e) (isPaused e)
    (resizeTimeout e) (windGust e) (windGustTarget e) (lastGustTime e)
    (twinkleTime e).
Definition set_lastTime (v : Q) (e : Effect) : Effect :=
  mkEffect (intensity e) (enabled e) (seasonCheck e) (canvas e) (particles e)
    (specialParticles e) (animationId e) v (isPaused e)
    (resizeTimeout e) (windGust e) (windGustTarget e) (lastGustTime e)
    (twinkleTime e).
Definition set_isPaused (v : bool) (e : Effect) : Effect :=
  mkEffect (intensity e) (enabled e) (seasonCheck e) (canvas e) (particles e)
    (specialParticles e) (animationId e) (lastTime e) v
    (resizeTimeout e) (windGust e) (windGustTarget e) (lastGustTime e)
    (twinkleTime e).
Definition set_resizeTimeout (v : option positive) (e : Effect) : Effect :=
  mkEffect (intensity e) (enabled e) (seasonCheck e) (canvas e) (particles e)
    (specialParticles e) (animationId e) (lastTime e) (isPaused e)
    v (windGust e) (windGustTarget e) (lastGustTime e)
    (twinkleTime e).
Definition set_windGust (v : Q) (e : Effect) : Effect :=
  mkEffect (intensity e) (enabled e) (seasonCheck e) (canvas e) (particles e)
    (specialParticles e) (animationId e) (lastTime e) (isPaused e)
    (resizeTimeout e) v (windGustTarget e) (lastGustTime e)
    (twinkleTime e).
Definition set_windGustTarget (v : Q) (e : Effect) : Effect :=
  mkEffect (intensity e) (enabled e) (seasonCheck e) (canvas e) (particles e)
    (specialParticles e) (animationId e) (lastTime e) (isPaused e)
    (resizeTimeout e) (windGust e) v (lastGustTime e)
    (twinkleTime e).
Definition set_lastGustTime (v : Q) (e : Effect) : Effect :=
  mkEffect (intensity e) (enabled e) (seasonCheck e) (canvas e) (particles e)
    (specialParticles e) (animationId e) (lastTime e) (isPaused e)
    (resizeTimeout e) (windGust e) (windGustTarget e) v
    (twinkleTime e).
Definition set_twinkleTime (v : Q) (e : Effect) : Effect :=
  mkEffect (intensity e) (enabled e) (seasonCheck e) (canvas e) (particles e)
    (specialParticles e) (animationId e) (lastTime e) (isPaused e)
    (resizeTimeout e) (windGust e) (windGustTarget e) (lastGustTime e)
    v.

(** What the page provides.  [randoms n] is the value of the [n]-th call
    of [Math.random] and [drawn] counts the calls made so far; [frames] and
    [timers] are the handles of the frame callbacks and timeouts that are
    still pending; [listening] tells whether the resize and visibility
    listeners of the effect are registered. *)
Record Host := mkHost {
  innerWidth  : Z;
  innerHeight : Z;
  hidden      : bool;
  clock       : Q;
  randoms     : nat -> Q;
  drawn       : nat;
  Math_sin    : Q -> Q;
  nextHandle  : positive;
  frames      : list positive;
  timers      : list positive;
  listening   : bool
}.

Definition set_viewport (w h : Z) (s : Host) : Host :=
  mkHost w h (hidden s) (clock s) (randoms s) (drawn s) (Math_sin s)
    (nextHandle s) (frames s) (timers s) (listening s).
Definition set_hidden (v : bool) (s : Host) : Host :=
  mkHost (innerWidth s) (innerHeight s) v (clock s) (randoms s) (drawn s)
    (Math_sin s) (nextHandle s) (frames s) (timers s) (listening s).
Definition set_clock (v : Q) (s : Host) : Host :=
  mkHost (innerWidth s) (innerHeight s) (hidden s) v (randoms s) (drawn s)
    (Math_sin s) (nextHandle s) (frames s) (timers s) (listening s).
Definition set_drawn (v : nat) (s : Host) : Host :=
  mkHost (innerWidth s) (innerHeight s) (hidden s) (clock s) (randoms s) v
    (Math_sin s) (nextHandle s) (frames s) (timers s) (listening s).
Definition set_nextHandle (v : positive) (s : Host) : Host :=
  mkHost (innerWidth s) (innerHeight s) (hidden s) (clock s) (randoms s)
    (drawn s) (Math_sin s) v (frames s) (timers s) (listening s).
Definition set_frames (v : list positive) (s : Host) : Host :=
  mkHost (innerWidth s) (innerHeight s) (hidden s) (clock s) (randoms s)
    (drawn s) (Math_sin s) (nextHandle s) v (timers s) (listening s).
Definition set_timers (v : list positive) (s : Host) : Host :=
  mkHost (innerWidth s) (innerHeight s) (hidden s) (clock s) (randoms s)
    (drawn s) (Math_sin s) (nextHandle s) (frames s) v (listening s).
Definition set_listening (v : bool) (s : Host) : Host :=
  mkHost (innerWidth s) (innerHeight s) (hidden s) (clock s) (randoms s)
    (drawn s) (Math_sin s) (nextHandle s) (frames s) (timers s) v.

Record World := mkWorld {
  host : Host;
  self : Effect
}.

(** ** The method monad *)

(** A method either returns a value or raises; both leave a world behind. *)
Inductive Outcome (A : Type) :=
| Ok (a : A) (w : World)
| Throw (w : World).
Arguments Ok {A} a w.
Arguments Throw {A} w.

Definition M (A : Type) : Type := World -> Outcome A.

Definition ret {A} (a : A) : M A := fun w => Ok a w.

Definition bind {A B} (m : M A) (k : A -> M B) : M B :=
  fun w => match m w with
           | Ok a w' => k a w'
           | Throw w' => Throw w'
           end.

Declare Scope snow_scope.
Delimit Scope snow_scope with snow.
Notation "x <- m ;; k" := (bind m (fun x => k))
  (at level 61, m at next level, right associativity) : snow_scope.
Notation "m ;; k" := (bind m (fun _ => k))
  (at level 61, right associativity) : snow_scope.
Open Scope snow_scope.

(** [TypeError]: a property read on [null] or [undefined]. *)
Definition TypeError {A} : M A := fun w => Throw w.

Definition this : M Effect := fun w => Ok (self w) w.
Definition page : M Host := fun w => Ok (host w) w.
Definition assign (f : Effect -> Effect) : M unit :=
  fun w => Ok tt (mkWorld (host w) (f (self w))).
Definition tell (f : Host -> Host) : M unit :=
  fun w => Ok tt (mkWorld (f (host w)) (self w)).

(** The world a computation leaves behind, returned or raised. *)
Definition after {A} (o : Outcome A) : World :=
  match o with Ok _ w => w | Throw w => w end.

Definition returns {A} (o : Outcome A) : bool :=
  match o with Ok _ _ => true | Throw _ => false end.

(** [for (let i = 0; i < n; i++) body]. *)
Fixpoint repeatM (n : nat) (body : M unit) : M unit :=
  match n with
  | O => ret tt
  | S k => body ;; repeatM k body
  end.

(** [xs.forEach(f)] over objects that [f] mutates in place: the updated
    objects, in order. *)
Fixpoint mapM {A B} (f : A -> M B) (xs : list A) : M (list B) :=
  match xs with
  | [] => ret []
  | a :: rest => b <- f a ;; bs <- mapM f rest ;; ret (b :: bs)
  end.

(** ** Host primitives *)

Definition Math_PI : Q := 884279719003555 # 281474976710656.

Definition Math_random : M Q :=
  h <- page ;;
  tell (set_drawn (S (drawn h))) ;;
  ret (randoms h (drawn h)).

Definition Math_floor (q : Q) : Z := Qfloor q.

Definition performance_now : M Q := h <- page ;; ret (clock h).

Definition sin (a : Q) : M Q := h <- page ;; ret (Math_sin h a).

Definition fresh_handle : M positive :=
  h <- page ;;
  tell (set_nextHandle (Pos.succ (nextHandle h))) ;;
  ret (nextHandle h).

Definition drop (id : positive) (ids : list positive) : list positive :=
  filter (fun j => negb (Pos.eqb j id)) ids.

Definition requestAnimationFrame : M positive :=
  id <- fresh_handle ;;
  h <- page ;;
  tell (set_frames (id :: frames h)) ;;
  ret id.

Definition cancelAnimationFrame (id : positive) : M unit :=
  h <- page ;; tell (set_frames (drop id (frames h))).

Definition setTimeout : M positive :=
  id <- fresh_handle ;;
  h <- page ;;
  tell (set_timers (id :: timers h)) ;;
  ret id.

Definition clearTimeout (id : option positive) : M unit :=
  match id with
  | Some i => h <- page ;; tell (set_timers (drop i (timers h)))
  | None => ret tt
  end.

(** ** Numbers *)

(** [a < b] and [a > b] on JavaScript numbers. *)
Definition lt (a b : Q) : bool := if Qlt_le_dec a b then true else false.
Definition gt (a b : Q) : bool := lt b a.

Definition num (z : Z) : Q := inject_Z z.

(** ** The intensity table *)

Definition INTENSITY_CONFIG_core (tier : string) : option IntensityConfig :=
  if String.eqb tier "light" then
    Some (mkConfig 50 (0.5, 1.5) (1, 3) 5 3)
  else if String.eqb tier "medium" then
    Some (mkConfig 150 (0.8, 2.5) (1, 4) 10 6)
  else if String.eqb tier "heavy" then
    Some (mkConfig 300 (1.0, 3.5) (1, 5) 20 10)
  else None.

Definition INTENSITY_CONFIG_accrual (tier : string) : option IntensityConfig :=
  if String.eqb tier "light" then
    Some (mkConfig 50 (0.5, 1.5) (1, 3) 3 2)
  else if String.eqb tier "medium" then
    Some (mkConfig 150 (0.8, 2.5) (1, 4) 6 3)
  else if String.eqb tier "heavy" then
    Some (mkConfig 300 (1.0, 3.5) (1, 5) 10 4)
  else None.

(** [INTENSITY_CONFIG[tier]]; [None] is [undefined].  (Keys inherited from
    [Object.prototype] are not modelled.) *)
Definition INTENSITY_CONFIG (b : Build) (tier : string) : option IntensityConfig :=
  match b with
  | CoreBuild => INTENSITY_CONFIG_core tier
  | AccrualBuild => INTENSITY_CONFIG_accrual tier
  end.

(** [['light', 'medium', 'heavy'].includes(level)]. *)
Definition includes (level : string) : bool :=
  existsb (String.eqb level) ["light"; "medium"; "heavy"]%string.

(** ** Construction *)

Record Options := mkOptions {
  opt_intensity   : option string;
  opt_enabled     : option bool;
  opt_seasonCheck : option (unit -> bool)
}.

Definition constructor (options : Options) : Effect :=
  mkEffect
    (match opt_intensity options with
     | Some s => if String.eqb s "" then "medium"%string else s
     | None => "medium"%string
     end)
    (match opt_enabled options with Some b => b | None => false end)
    (opt_seasonCheck options)
    None [] [] None 0 false None 0 0 0 0.

(** ** The particle factory *)

(** [this.canvas.<property>]: raises when the canvas is [null]. *)
Definition the_canvas : M Canvas :=
  e <- this ;;
  match canvas e with
  | Some c => ret c
  | None => TypeError
  end.

(** The four layer-dependent fields, for a depth already drawn. *)
Definition layer (config : IntensityConfig) (depth : Q) : M (Q * Q * Q * Q) :=
  let s0 := fst (sizeRange config) in
  let s1 := snd (sizeRange config) in
  let v0 := fst (speedRange config) in
  let v1 := snd (speedRange config) in
  if lt depth 0.33 then
    r1 <- Math_random ;; r2 <- Math_random ;;
    r3 <- Math_random ;; r4 <- Math_random ;;
    ret (s0 + r1 * (s1 - s0) * 1.5, v0 + r2 * (v1 - v0) * 1.3,
         0.8 + r3 * 0.2, 0.01 + r4 * 0.02)
  else if lt depth 0.66 then
    r1 <- Math_random ;; r2 <- Math_random ;;
    r3 <- Math_random ;; r4 <- Math_random ;;
    ret (s0 + r1 * (s1 - s0), v0 + r2 * (v1 - v0),
         0.5 + r3 * 0.2, 0.02 + r4 * 0.03)
  else
    r1 <- Math_random ;; r2 <- Math_random ;;
    r3 <- Math_random ;; r4 <- Math_random ;;
    ret (s0 + r1 * (s1 - s0) * 0.7, v0 + r2 * (v1 - v0) * 0.7,
         0.3 + r3 * 0.2, 0.03 + r4 * 0.04).

Definition _createParticle (config : IntensityConfig) : M Particle.t :=
  depth <- Math_random ;;
  l <- layer config depth ;;
  let '(size, speed, opacity, windSpeed) := l in
  rx <- Math_random ;;
  c <- the_canvas ;;
  ry <- Math_random ;;
  ro <- Math_random ;;
  rr <- Math_random ;;
  rs <- Math_random ;;
  ret (Particle.mk
         (rx * num (width c))
         (ry * num (height c) - num (height c))
         size speed opacity
         (ro * Math_PI * 2)
         windSpeed
         (rr * Math_PI * 2)
         ((rs - 0.5) * 0.02)).

Definition _createStaticTree (b : Build) : M Special.t :=
  rx <- Math_random ;;
  c <- the_canvas ;;
  ry <- Math_random ;;
  rs <- Math_random ;;
  ro <- Math_random ;;
  ret (Special.mk tree
         (rx * num (width c)) (ry * num (height c))
         0 0 0 0 0 0
         (20 + rs * 15) (0.6 + ro * 0.3)
         0 true true []
         (match b with CoreBuild => None | AccrualBuild => Some 0 end)).

(** The ring of a wreath, generated once: segments [i .. i+n-1] of 20. *)
Fixpoint wreathShape (n : nat) (i : Z) : M (list Segment) :=
  match n with
  | O => ret []
  | S k =>
      r1 <- Math_random ;;
      r2 <- Math_random ;;
      rest <- wreathShape k (i + 1)%Z ;;
      ret (mkSegment (num i / 20 * Math_PI * 2) (0.9 + r1 * 0.2)
             (0.2 + r2 * 0.15)
             (if Z.eqb (i mod 2) 0 then "#1a6b1a" else "#228B22")%string
           :: rest)
  end.

Definition _createStaticWreath (b : Build) : M Special.t :=
  match b with
  | CoreBuild =>
      rx <- Math_random ;;
      c <- the_canvas ;;
      ry <- Math_random ;;
      rs <- Math_random ;;
      ro <- Math_random ;;
      rr <- Math_random ;;
      ret (Special.mk wreath
             (rx * num (width c)) (ry * num (height c))
             0 0 0 0 0 0
             (15 + rs * 10) (0.7 + ro * 0.2)
             (rr * Math_PI * 2) true true [] None)
  | AccrualBuild =>
      shape <- wreathShape 20 0 ;;
      rx <- Math_random ;;
      c <- the_canvas ;;
      ry <- Math_random ;;
      rs <- Math_random ;;
      ro <- Math_random ;;
      ret (Special.mk wreath
             (rx * num (width c)) (ry * num (height c))
             0 0 0 0 0 0
             (15 + rs * 10) (0.7 + ro * 0.2)
             0 true true shape (Some 0))
  end.

(** [isMobile ? Math.floor(n / 2) : n]. *)
Definition density (isMobile : bool) (n : Z) : Z :=
  if isMobile then Math_floor (num n / 2) else n.

Definition push_particle (p : Particle.t) : M unit :=
  assign (fun e => set_particles (particles e ++ [p]) e).

Definition push_special (p : Special.t) : M unit :=
  assign (fun e => set_specialParticles (specialParticles e ++ [p]) e).

Definition _createParticles (b : Build) : M unit :=
  e <- this ;;
  match INTENSITY_CONFIG b (intensity e) with
  | None => TypeError
  | Some config =>
      h <- page ;;
      let isMobile := lt (num (innerWidth h)) 768 in
      let count := density isMobile (count config) in
      assign (set_particles []) ;;
      assign (set_specialParticles []) ;;
      repeatM (Z.to_nat count)
        (p <- _createParticle config ;; push_particle p) ;;
      let treeCount := density isMobile (trees config) in
      repeatM (Z.to_nat treeCount)
        (p <- _createStaticTree b ;; push_special p) ;;
      let wreathCount := density isMobile (wreaths config) in
      repeatM (Z.to_nat wreathCount)
        (p <- _createStaticWreath b ;; push_special p)
  end.

(** ** The simulation step *)

(** The easing of the gust towards its target. *)
Definition ease (windGust windGustTarget : Q) : Q :=
  windGust + (windGustTarget - windGust) * 0.02.

(** [deltaTime / (1000 / 60)]. *)
Definition normalizedDelta (deltaTime : Q) : Q := deltaTime / (1000 / 60).

(** The horizontal wrap at the end of [_updateParticle]. *)
Definition wrap (c : Canvas) (x : Q) : Q :=
  if lt x (-10) then num (width c) + 10
  else if gt x (num (width c) + 10) then -10
  else x.

(** Where gravity and wind carry a particle before the recycle and wrap
    checks look at it: the new [y] and the new [x]. *)
Definition fallen (particle : Particle.t) (deltaTime : Q) : Q :=
  Particle.y particle + Particle.speed particle * normalizedDelta deltaTime.

Definition drifted (sine windGust : Q) (particle : Particle.t) (deltaTime : Q) : Q :=
  Particle.x particle + (sine * 0.5 + windGust) * normalizedDelta deltaTime.

(** [_updateParticle]; only [_animate] calls it, after it has checked the
    canvas. *)
Definition _updateParticle (particle : Particle.t) (deltaTime : Q) : M Particle.t :=
  let y1 := fallen particle deltaTime in
  let windOffset1 :=
    Particle.windOffset particle
    + Particle.windSpeed particle * normalizedDelta deltaTime in
  sine <- sin windOffset1 ;;
  e <- this ;;
  let x1 := drifted sine (windGust e) particle deltaTime in
  let rotation1 :=
    Particle.rotation particle
    + Particle.rotationSpeed particle * normalizedDelta deltaTime in
  c <- the_canvas ;;
  yx <- (if gt y1 (num (height c) + 10)
         then r <- Math_random ;; ret (-10, r * num (width c))
         else ret (y1, x1)) ;;
  ret (Particle.mk (wrap c (snd yx)) (fst yx)
         (Particle.size particle) (Particle.speed particle)
         (Particle.opacity particle) windOffset1
         (Particle.windSpeed particle) rotation1
         (Particle.rotationSpeed particle)).

(** The sleigh literal pushed by [_spawnSpecialParticle]. *)
Definition spawn_sleigh : M unit :=
  r <- Math_random ;;
  let fromLeft := lt r 0.5 in
  rY <- Math_random ;;
  c <- the_canvas ;;
  let startY := rY * (num (height c) * 0.5) in
  rv <- Math_random ;;
  ra <- Math_random ;;
  rf <- Math_random ;;
  rp <- Math_random ;;
  rs <- Math_random ;;
  push_special
    (Special.mk sleigh
       (if fromLeft then -100 else num (width c) + 100)
       startY startY
       (if fromLeft then 3 + rv * 2 else - (3 + rv * 2))
       (20 + ra * 30) (0.001 + rf * 0.002) (rp * Math_PI * 2)
       0 (15 + rs * 10) 0.9 0 true false [] None).

(** The elf literal of the accrual build. *)
Definition spawn_elf : M unit :=
  r <- Math_random ;;
  let fromLeft := lt r 0.5 in
  c <- the_canvas ;;
  let startY := num (height c) - 30 in
  rv <- Math_random ;;
  rp <- Math_random ;;
  rs <- Math_random ;;
  push_special
    (Special.mk elf
       (if fromLeft then -50 else num (width c) + 50)
       startY startY
       (if fromLeft then 1.5 + rv * 1 else - (1.5 + rv * 1))
       3 0.05 (rp * Math_PI * 2)
       0 (10 + rs * 5) 0.95 0 true false [] None).

(** [_spawnSpecialParticle]: the core build pushes a sleigh; the accrual
    build draws a choice and pushes a sleigh, an elf or nothing. *)
Definition _spawnSpecialParticle (b : Build) : M unit :=
  match b with
  | CoreBuild => spawn_sleigh
  | AccrualBuild =>
      choice <- Math_random ;;
      if lt choice 0.0005 then spawn_sleigh
      else if lt choice 0.0008 then spawn_elf
      else ret tt
  end.

(** The spawn step of [_animate]: the core build draws the chance itself
    and then calls [_spawnSpecialParticle]; the accrual build calls it on
    every frame. *)
Definition spawn (b : Build) : M unit :=
  match b with
  | CoreBuild =>
      r <- Math_random ;;
      if lt r 0.0005 then _spawnSpecialParticle CoreBuild else ret tt
  | AccrualBuild => _spawnSpecialParticle AccrualBuild
  end.

(** The snow accrual of a static decoration (accrual build):
    [Math.min(snowLevel + Math.random() * 0.2, size * 0.3)]. *)
Definition accrue (particle : Special.t) (r : Q) : option Q :=
  match Special.snowLevel particle with
  | Some s => Some (Qmin (s + r * 0.2) (Special.size particle * 0.3))
  | None => None
  end.

(** The flight of a sprite with a wave: new height and the off-screen
    test against [margin]. *)
Definition fly (c : Canvas) (margin : Q) (particle : Special.t) : M Special.t :=
  wave <- sin (Special.time particle * Special.waveFrequency particle
               + Special.wavePhase particle) ;;
  let particle :=
    Special.set_y (Special.baseY particle + wave * Special.waveAmplitude particle)
      particle in
  if lt (Special.x particle) (- margin)
     || gt (Special.x particle) (num (width c) + margin)
  then ret (Special.set_active false particle)
  else ret particle.

Definition _updateSpecialParticle (b : Build) (particle : Special.t)
    (deltaTime : Q) : M Special.t :=
  match b with
  | CoreBuild =>
      if Special.static particle then ret particle
      else
        let particle :=
          Special.set_x (Special.x particle
                         + Special.vx particle * normalizedDelta deltaTime)
            particle in
        match Special.type particle with
        | sleigh =>
            let particle :=
              Special.set_time (Special.time particle + deltaTime) particle in
            c <- the_canvas ;;
            fly c 200 particle
        | _ => ret particle
        end
  | AccrualBuild =>
      if Special.static particle then
        r <- Math_random ;;
        if lt r 0.0005 then
          r' <- Math_random ;;
          ret (Special.set_snowLevel (accrue particle r') particle)
        else ret particle
      else
        let particle :=
          Special.set_x (Special.x particle
                         + Special.vx particle * normalizedDelta deltaTime)
            particle in
        let particle :=
          Special.set_time (Special.time particle + deltaTime) particle in
        match Special.type particle with
        | sleigh => c <- the_canvas ;; fly c 200 particle
        | elf => c <- the_canvas ;; fly c 100 particle
        | _ => ret particle
        end
  end.

(** The gust update of [_animate]: a possible re-roll of the target, then
    one easing step. *)
Definition update_wind (currentTime : Q) : M unit :=
  e <- this ;;
  r <- Math_random ;;
  (if gt (currentTime - lastGustTime e) (5000 + r * 10000) then
     r' <- Math_random ;;
     assign (set_windGustTarget ((r' - 0.5) * 4)) ;;
     assign (set_lastGustTime currentTime)
   else ret tt) ;;
  assign (fun e => set_windGust (ease (windGust e) (windGustTarget e)) e).

Definition _animate (b : Build) (currentTime : Q) : M unit :=
  e <- this ;;
  if isPaused e || match canvas e with None => true | Some _ => false end
  then ret tt
  else
    let deltaTime := currentTime - lastTime e in
    assign (set_lastTime currentTime) ;;
    assign (set_twinkleTime currentTime) ;;
    update_wind currentTime ;;
    spawn b ;;
    e <- this ;;
    ps <- mapM (fun p => _updateParticle p deltaTime) (particles e) ;;
    assign (set_particles ps) ;;
    e <- this ;;
    qs <- mapM (fun p => _updateSpecialParticle b p deltaTime)
            (specialParticles e) ;;
    assign (set_specialParticles (filter Special.active qs)) ;;
    id <- requestAnimationFrame ;;
    assign (set_animationId (Some id)).

(** ** The controller *)

Definition shouldDisplay : M bool :=
  e <- this ;;
  match seasonCheck e with
  | Some f => ret (f tt)
  | None => ret true
  end.

Definition _resizeCanvas : M unit :=
  c <- the_canvas ;;
  h <- page ;;
  assign (set_canvas
            (Some (mkCanvas (innerWidth h) (innerHeight h) (parentNode c)))).

(** A fresh canvas element is 300 by 150 and detached; the method sizes it
    and appends it to the body. *)
Definition _createCanvas : M unit :=
  assign (set_canvas (Some (mkCanvas 300 150 false))) ;;
  _resizeCanvas ;;
  c <- the_canvas ;;
  assign (set_canvas (Some (mkCanvas (width c) (height c) true))).

Definition _bindEvents : M unit := tell (set_listening true).

Definition init (b : Build) : M unit :=
  e <- this ;;
  match canvas e with
  | Some _ => ret tt
  | None => _createCanvas ;; _createParticles b ;; _bindEvents
  end.

Definition start : M unit :=
  e <- this ;;
  match canvas e, animationId e with
  | Some _, None =>
      assign (set_isPaused false) ;;
      t <- performance_now ;;
      assign (set_lastTime t) ;;
      t' <- performance_now ;;
      assign (set_lastGustTime t') ;;
      id <- requestAnimationFrame ;;
      assign (set_animationId (Some id))
  | _, _ => ret tt
  end.

Definition pause : M unit :=
  assign (set_isPaused true) ;;
  e <- this ;;
  match animationId e with
  | Some id =>
      cancelAnimationFrame id ;;
      assign (set_animationId None)
  | None => ret tt
  end.

(** [_cleanup]: the canvas element is taken out of the document when it is
    attached (nothing keeps the detached element afterwards), the two
    listeners are removed and the fields are reset. *)
Definition _cleanup : M unit :=
  tell (set_listening false) ;;
  assign (set_canvas None) ;;
  assign (set_particles []) ;;
  assign (set_specialParticles []) ;;
  assign (set_animationId None).

Definition stop : M unit := pause ;; _cleanup.

Definition setIntensity (b : Build) (level : string) : M unit :=
  if negb (includes level) then ret tt
  else
    assign (set_intensity level) ;;
    _createParticles b.

(** [_handleResize] re-arms the debounce timer; [resize_callback] is the
    function it hands to [setTimeout]. *)
Definition _handleResize : M unit :=
  e <- this ;;
  clearTimeout (resizeTimeout e) ;;
  id <- setTimeout ;;
  assign (set_resizeTimeout (Some id)).

Definition resize_callback (b : Build) : M unit :=
  e <- this ;;
  match canvas e with
  | Some _ => _resizeCanvas ;; _createParticles b
  | None => ret tt
  end.

Definition _handleVisibility : M unit :=
  h <- page ;;
  if hidden h then pause
  else
    e <- this ;;
    if enabled e && negb (isPaused e) then start else ret tt.

(** ** The page drives the effect *)

(** What can happen to an effect: a call of its public interface, or a
    signal of the page. *)
Inductive Event :=
| Call_init
| Call_start
| Call_pause
| Call_stop
| Call_setIntensity (level : string)
| Call_shouldDisplay
| Resize (w h : Z)
| Timeout (id : positive)
| Visibility (hid : bool)
| Frame (id : positive) (currentTime : Q)
| Clock (now : Q).

Definition pending (id : positive) (ids : list positive) : bool :=
  existsb (Pos.eqb id) ids.

(** The page flips [document.hidden] and calls the visibility listener. *)
Definition visibilitychange (hid : bool) : M unit :=
  tell (set_hidden hid) ;; _handleVisibility.

Definition dispatch (b : Build) (ev : Event) : M unit :=
  match ev with
  | Call_init => init b
  | Call_start => start
  | Call_pause => pause
  | Call_stop => stop
  | Call_setIntensity level => setIntensity b level
  | Call_shouldDisplay => _ <- shouldDisplay ;; ret tt
  | Resize w h =>
      tell (set_viewport w h) ;;
      s <- page ;;
      if listening s then _handleResize else ret tt
  | Timeout id =>
      s <- page ;;
      if pending id (timers s) then
        tell (set_timers (drop id (timers s))) ;;
        resize_callback b
      else ret tt
  | Visibility hid =>
      s <- page ;;
      if listening s then visibilitychange hid else tell (set_hidden hid)
  | Frame id currentTime =>
      s <- page ;;
      if pending id (frames s) then
        tell (set_frames (drop id (frames s))) ;;
        _animate b currentTime
      else ret tt
  | Clock now => tell (set_clock now)
  end.

(** The world after a run of events; an exception ends the event that
    raised it and the page goes on. *)
Fixpoint run (b : Build) (evs : list Event) (w : World) : World :=
  match evs with
  | [] => w
  | ev :: rest => run b rest (after (dispatch b ev w))
  end.

(** A page before anything is scheduled, and the world right after
    [new SnowEffect(options)]. *)
Definition boot (s : Host) (options : Options) : World :=
  mkWorld s (constructor options).

(** The contract of [Math.random]: every draw is in [0, 1). *)
Definition unit_interval (s : Host) : Prop :=
  forall n, 0 <= randoms s n /\ randoms s n < 1.

(** The frame loop is active. *)
Definition running (w : World) : bool :=
  match animationId (self w) with Some _ => true | None => false end.

(** The successive states of one entry of [specialParticles] over a
    sequence of frames with the given elapsed times. *)
Fixpoint age (b : Build) (deltas : list Q) (particle : Special.t)
    : M (list Special.t) :=
  match deltas with
  | [] => ret []
  | deltaTime :: rest =>
      p <- _updateSpecialParticle b particle deltaTime ;;
      ps <- age b rest p ;;
      ret (p :: ps)
  end.

(** The gust after [n] easing steps towards a fixed target. *)
Fixpoint eased (n : nat) (windGust windGustTarget : Q) : Q :=
  match n with
  | O => windGust
  | S k => ease (eased k windGust windGustTarget) windGustTarget
  end.

(** ** The easing step with its rounding *)

(** [this.windGust += (this.windGustTarget - this.windGust) * 0.02] with
    the rounding written out: [rnd] rounds the literal 0.02 and the result
    of the subtraction, of the product and of the sum.  With the identity
    for [rnd] this is [ease]. *)
Definition ease_rounded (rnd : Q -> Q) (windGust windGustTarget : Q) : Q :=
  rnd (windGust + rnd (rnd (windGustTarget - windGust) * rnd 0.02)).

Fixpoint eased_rounded (rnd : Q -> Q) (n : nat) (windGust windGustTarget : Q)
    : Q :=
  match n with
  | O => windGust
  | S k =>
      ease_rounded rnd (eased_rounded rnd k windGust windGustTarget)
        windGustTarget
  end.

(** What the statements on the rounded step ask of [rnd], with unit
    roundoff [u] and underflow unit [eta]: it is monotone, returns what
    it would leave alone, stays on the side of 0 of its argument and
    within twice it, and on [-8, 8] it is off by at most [u] relative
    plus [eta] absolute.  The identity is such a rounding with
    u = eta = 0, and so is rounding to nearest in binary64 ([round64]
    below) with u = 2^-53 and eta = 2^-1075. *)
Definition rounding (u eta : Q) (rnd : Q -> Q) : Prop :=
  (0 <= u /\ u <= 0.001)
  /\ (0 <= eta /\ eta <= 0.001)
  /\ (forall x y, x <= y -> rnd x <= rnd y)
  /\ (forall x, rnd (rnd x) == rnd x)
  /\ (forall x, 0 <= x -> rnd x <= 2 * x)
  /\ (forall x, x <= 0 -> 2 * x <= rnd x)
  /\ (forall x, Qabs x <= 8 -> Qabs (rnd x - x) <= u * Qabs x + eta).

(** *** Rounding to binary64 *)

(** Powers of two. *)
Definition two (e : Z) : Q := 2 ^ e.

(** The binade of a positive rational [x]: the [e] with
    [2^e <= x < 2^(e+1)]. *)
Definition binade (x : Q) : Z :=
  let k := (Z.log2 (Qnum x) - Z.log2 (Zpos (Qden x)))%Z in
  if Qle_bool (two k) x then k else (k - 1)%Z.

(** The nearest integer, ties to even. *)
Definition rne (y : Q) : Z :=
  let f := Qfloor y in
  match Qcompare (y - inject_Z f) (1 # 2) with
  | Lt => f
  | Eq => if Z.even f then f else (f + 1)%Z
  | Gt => (f + 1)%Z
  end.

(** The exponent of the spacing of the binary64 numbers around [x > 0]: 52
    below the binade, and -1074 in the subnormal range. *)
Definition spacing (x : Q) : Z := (Z.max (binade x) (-1022) - 52)%Z.

Definition round_magnitude (x : Q) : Q :=
  inject_Z (rne (x * two (- spacing x))) * two (spacing x).

(** The binary64 number nearest to a rational, ties to even: what a
    JavaScript operation returns for the exact result [x], as long as it
    does not overflow. *)
Definition round64 (x : Q) : Q :=
  if Qlt_le_dec x 0 then - round_magnitude (- x) else round_magnitude x.

(** The same step on binary64 numbers, with the operations of the
    Standard Library's specification of IEEE-754 arithmetic. *)
Module Binary64.

Definition prec : Z := 53.
Definition emax : Z := 1024.

(** [m * 2^e], rounded to nearest. *)
Definition number (m e : Z) : spec_float :=
  binary_normalize prec emax m e false.

(** The number a decimal literal [n/d] denotes: the quotient, rounded to
    nearest. *)
Definition literal (n d : Z) : spec_float :=
  SFdiv prec emax (number n 0) (number d 0).

(** The rational a finite number stands for. *)
Definition value (x : spec_float) : Q :=
  match x with
  | S754_finite s m e =>
      (if s then -1 else 1) * inject_Z (Zpos m) * two e
  | _ => 0
  end.

Definition add : spec_float -> spec_float -> spec_float := SFadd prec emax.
Definition sub : spec_float -> spec_float -> spec_float := SFsub prec emax.
Definition mul : spec_float -> spec_float -> spec_float := SFmul prec emax.

Definition ease (windGust windGustTarget : spec_float) : spec_float :=
  add windGust (mul (sub windGustTarget windGust) (literal 2 100)).

End Binary64.

(** A gust of -1.5 and a target of 1.6, as binary64 numbers. *)
Definition gust64 : spec_float := Binary64.literal (-15) 10.
Definition target64 : spec_float := Binary64.literal 16 10.

(** A page for examples: a 1024 by 768 viewport, draws that alternate
    between 0.1 and 0.9, and a sine that is constantly 0. *)
Definition desk : Host :=
  mkHost 1024 768 false 0
    (fun n => if Nat.even n then 0.1 else 0.9) 0
    (fun _ => 0) 1 [] [] false.

(** The same page on a phone-sized viewport. *)
Definition phone : Host := set_viewport 390 844 desk.

(** * Proofs *)

(** ** Running a computation *)

Lemma bind_Ok {A B} (m : M A) (k : A -> M B) w a w1 :
  m w = Ok a w1 -> bind m k w = k a w1.
Proof. unfold bind; intros ->; reflexivity. Qed.

Lemma lt_true a b : lt a b = true <-> a < b.
Proof.
  unfold lt; destruct (Qlt_le_dec a b) as [H | H]; split; intro G;
    try reflexivity; try assumption; try discriminate.
  exfalso; apply (Qle_not_lt _ _ H G).
Qed.

Lemma lt_false a b : lt a b = false <-> b <= a.
Proof.
  unfold lt; destruct (Qlt_le_dec a b) as [H | H]; split; intro G;
    try reflexivity; try assumption; try discriminate.
  exfalso; apply (Qle_not_lt _ _ G H).
Qed.

(** ** Frames: what a computation leaves alone *)

Section Frames.
Variable R : World -> World -> Prop.
Hypothesis R_refl : forall w, R w w.
Hypothesis R_trans : forall a b c, R a b -> R b c -> R a c.

(** Whatever the outcome, the world left behind is related to the one
    the computation started in. *)
Definition within {A} (m : M A) : Prop := forall w, R w (after (m w)).

Lemma within_ret {A} (a : A) : within (ret a).
Proof. intro w; apply R_refl. Qed.

Lemma within_TypeError {A} : within (@TypeError A).
Proof. intro w; apply R_refl. Qed.

Lemma within_this : within this.
Proof. intro w; apply R_refl. Qed.

Lemma within_page : within page.
Proof. intro w; apply R_refl. Qed.

Lemma within_bind {A B} (m : M A) (k : A -> M B) :
  within m -> (forall a, within (k a)) -> within (bind m k).
Proof.
  intros Hm Hk w; specialize (Hm w); unfold bind.
  destruct (m w) as [a w1 | w1]; simpl in *.
  - apply (R_trans _ _ _ Hm), Hk.
  - exact Hm.
Qed.

Lemma within_repeatM n (body : M unit) :
  within body -> within (repeatM n body).
Proof.
  intro Hb; induction n as [| n IH]; simpl.
  - apply within_ret.
  - apply within_bind; [exact Hb | intros _; exact IH].
Qed.

Lemma within_mapM {A B} (f : A -> M B) xs :
  (forall a, within (f a)) -> within (mapM f xs).
Proof.
  intro Hf; induction xs as [| a xs IH]; simpl.
  - apply within_ret.
  - apply within_bind; [apply Hf | intros b].
    apply within_bind; [exact IH | intros bs; apply within_ret].
Qed.

(** When the relation keeps the canvas, a computation is sound if it
    stays within the relation and returns whenever there is a canvas. *)
Hypothesis R_canvas : forall w w', R w w' -> canvas (self w') = canvas (self w).

Definition sound {A} (m : M A) : Prop :=
  within m /\ forall w, canvas (self w) <> None -> returns (m w) = true.

Lemma sound_ret {A} (a : A) : sound (ret a).
Proof. split; [apply within_ret | reflexivity]. Qed.

Lemma sound_this : sound this.
Proof. split; [apply within_this | reflexivity]. Qed.

Lemma sound_page : sound page.
Proof. split; [apply within_page | reflexivity]. Qed.

Lemma sound_the_canvas : sound the_canvas.
Proof.
  split.
  - intro w; unfold the_canvas, this, TypeError, ret, bind; simpl.
    destruct (canvas (self w)); apply R_refl.
  - intros w Hc; unfold the_canvas, this, TypeError, ret, bind; simpl.
    destruct (canvas (self w)); [reflexivity | congruence].
Qed.

Lemma sound_bind {A B} (m : M A) (k : A -> M B) :
  sound m -> (forall a, sound (k a)) -> sound (bind m k).
Proof.
  intros [Qm Rm] Hk; split.
  - apply within_bind; [exact Qm | intro a; apply Hk].
  - intros w Hc; specialize (Qm w); specialize (Rm w Hc); unfold bind.
    destruct (m w) as [a w1 | w1]; simpl in *; [| discriminate].
    apply Hk; rewrite (R_canvas _ _ Qm); exact Hc.
Qed.

Lemma sound_mapM {A B} (f : A -> M B) xs :
  (forall a, sound (f a)) -> sound (mapM f xs).
Proof.
  intro Hf; induction xs as [| a xs IH]; simpl.
  - apply sound_ret.
  - apply sound_bind; [apply Hf | intro b].
    apply sound_bind; [exact IH | intro bs; apply sound_ret].
Qed.

(** The outcome of a sound computation on a world with a canvas. *)
Lemma sound_run {A} (m : M A) w :
  sound m -> canvas (self w) <> None ->
  exists a w', m w = Ok a w' /\ R w w'.
Proof.
  intros [Qm Rm] Hc; specialize (Qm w); specialize (Rm w Hc).
  destruct (m w) as [a w1 | w1]; simpl in *; [eauto | discriminate].
Qed.
End Frames.

(** A computation is quiet when it changes nothing but the count of
    random draws. *)
Definition quiet (w w' : World) : Prop :=
  self w' = self w /\ host w' = set_drawn (drawn (host w')) (host w).

Lemma quiet_refl w : quiet w w.
Proof. split; [reflexivity | destruct w as [[] e]; reflexivity]. Qed.

Lemma quiet_trans a b c : quiet a b -> quiet b c -> quiet a c.
Proof.
  intros [E1 H1] [E2 H2]; split; [congruence |].
  rewrite H2, H1; reflexivity.
Qed.

Lemma quiet_canvas w w' : quiet w w' -> canvas (self w') = canvas (self w).
Proof. intros [E _]; rewrite E; reflexivity. Qed.

(** A computation is calm when it keeps the canvas, the gust, its target
    and the random source. *)
Definition calm (w w' : World) : Prop :=
  canvas (self w') = canvas (self w)
  /\ windGust (self w') = windGust (self w)
  /\ windGustTarget (self w') = windGustTarget (self w)
  /\ randoms (host w') = randoms (host w).

Lemma calm_refl w : calm w w.
Proof. repeat split. Qed.

Lemma calm_trans a b c : calm a b -> calm b c -> calm a c.
Proof. intros (?&?&?&?) (?&?&?&?); repeat split; congruence. Qed.

Lemma calm_canvas w w' : calm w w' -> canvas (self w') = canvas (self w).
Proof. intros [E _]; exact E. Qed.

(** A computation is windless when it keeps the gust, its target and the
    random source. *)
Definition windless (w w' : World) : Prop :=
  windGust (self w') = windGust (self w)
  /\ windGustTarget (self w') = windGustTarget (self w)
  /\ randoms (host w') = randoms (host w).

Lemma windless_refl w : windless w w.
Proof. repeat split. Qed.

Lemma windless_trans a b c : windless a b -> windless b c -> windless a c.
Proof. intros (?&?&?) (?&?&?); repeat split; congruence. Qed.

Lemma quiet_calm w w' : quiet w w' -> calm w w'.
Proof.
  intros [E H]; repeat split; try (rewrite E; reflexivity).
  rewrite H; reflexivity.
Qed.

Lemma calm_windless w w' : calm w w' -> windless w w'.
Proof. intros (_ & ? & ? & ?); repeat split; assumption. Qed.

(** A pure draw is quiet and returns whenever there is a canvas. *)
Definition pure_draw {A} (m : M A) : Prop := sound quiet m.

Lemma pure_ret {A} (a : A) : pure_draw (ret a).
Proof. apply sound_ret, quiet_refl. Qed.

Lemma pure_this : pure_draw this.
Proof. apply sound_this, quiet_refl. Qed.

Lemma pure_page : pure_draw page.
Proof. apply sound_page, quiet_refl. Qed.

Lemma pure_the_canvas : pure_draw the_canvas.
Proof. apply sound_the_canvas, quiet_refl. Qed.

Lemma pure_bind {A B} (m : M A) (k : A -> M B) :
  pure_draw m -> (forall a, pure_draw (k a)) -> pure_draw (bind m k).
Proof. apply sound_bind; [apply quiet_trans | apply quiet_canvas]. Qed.

Lemma pure_mapM {A B} (f : A -> M B) xs :
  (forall a, pure_draw (f a)) -> pure_draw (mapM f xs).
Proof.
  apply sound_mapM; [apply quiet_refl | apply quiet_trans | apply quiet_canvas].
Qed.

Lemma pure_Math_random : pure_draw Math_random.
Proof. split; [intro w; split | intros w _]; reflexivity. Qed.

Lemma pure_sin a : pure_draw (sin a).
Proof.
  split; [intro w; apply quiet_refl | intros w _; reflexivity].
Qed.

Lemma pure_run {A} (m : M A) w :
  pure_draw m -> canvas (self w) <> None ->
  exists a w', m w = Ok a w' /\ quiet w w'.
Proof. apply sound_run. Qed.

(** Walks through a computation built from pure draws; the lemmas about
    the pieces are taken from the hint database [pure]. *)
Create HintDb pure discriminated.
#[local] Hint Resolve pure_ret pure_this pure_page pure_Math_random pure_sin
  pure_the_canvas : pure.

Ltac pure_steps :=
  repeat first
    [ solve [auto 1 with pure nocore]
    | match goal with
      | |- pure_draw (bind _ _) => apply pure_bind; [| intros ?]
      | |- pure_draw (if ?c then _ else _) => destruct c
      | |- pure_draw (match ?x with _ => _ end) => destruct x
      | |- pure_draw (let _ := _ in _) => cbv zeta
      end ].

Lemma pure_layer config depth : pure_draw (layer config depth).
Proof. unfold layer; cbv zeta; pure_steps. Qed.
#[local] Hint Resolve pure_layer : pure.

Lemma pure_createParticle config : pure_draw (_createParticle config).
Proof. unfold _createParticle; pure_steps. Qed.

Lemma pure_createStaticTree b : pure_draw (_createStaticTree b).
Proof. unfold _createStaticTree; pure_steps. Qed.

Lemma pure_wreathShape n i : pure_draw (wreathShape n i).
Proof.
  revert i; induction n as [| n IH]; intro i; simpl; [apply pure_ret |].
  apply pure_bind; [apply pure_Math_random | intros r1].
  apply pure_bind; [apply pure_Math_random | intros r2].
  apply pure_bind; [apply IH | intros rest; apply pure_ret].
Qed.
#[local] Hint Resolve pure_wreathShape : pure.

Lemma pure_createStaticWreath b : pure_draw (_createStaticWreath b).
Proof. unfold _createStaticWreath; destruct b; pure_steps. Qed.

Lemma pure_updateParticle p deltaTime : pure_draw (_updateParticle p deltaTime).
Proof. unfold _updateParticle; cbv zeta; pure_steps. Qed.

Lemma pure_fly c margin p : pure_draw (fly c margin p).
Proof. unfold fly; pure_steps. Qed.
#[local] Hint Resolve pure_fly : pure.

Lemma pure_updateSpecialParticle b p deltaTime :
  pure_draw (_updateSpecialParticle b p deltaTime).
Proof. unfold _updateSpecialParticle; destruct b; pure_steps. Qed.

(** [yields m P]: whatever [m] returns satisfies [P]. *)
Definition yields {A} (m : M A) (P : A -> Prop) : Prop :=
  forall w a w', m w = Ok a w' -> P a.

Lemma yields_ret {A} (a : A) (P : A -> Prop) : P a -> yields (ret a) P.
Proof. intros H w a' w' E; inversion E; subst; exact H. Qed.

Lemma yields_bind {A B} (m : M A) (k : A -> M B) (P : B -> Prop) :
  (forall a, yields (k a) P) -> yields (bind m k) P.
Proof.
  intros Hk w b w' E; unfold bind in E.
  destruct (m w) as [a w1 | w1]; [| discriminate].
  exact (Hk a w1 b w' E).
Qed.

(** ** The factory loops *)

Lemma quiet_host w w' n :
  quiet w w' -> set_drawn n (host w') = set_drawn n (host w).
Proof. intros [_ H]; rewrite H; reflexivity. Qed.

(** [n] rounds of "build one, push it" append [n] drift particles. *)
Lemma fill_particles (mk : M Particle.t) n :
  pure_draw mk ->
  forall w, canvas (self w) <> None ->
  exists l w',
    repeatM n (p <- mk ;; push_particle p) w = Ok tt w'
    /\ length l = n
    /\ self w' = set_particles (particles (self w) ++ l) (self w)
    /\ host w' = set_drawn (drawn (host w')) (host w).
Proof.
  intro Hmk; induction n as [| n IH]; intros w Hc.
  - exists [], w; simpl; repeat split.
    + rewrite app_nil_r; destruct (self w); reflexivity.
    + destruct (host w); reflexivity.
  - destruct (pure_run mk w Hmk Hc) as (p & w1 & E1 & Q1).
    pose (w2 := mkWorld (host w1)
                  (set_particles (particles (self w1) ++ [p]) (self w1))).
    assert (Hc2 : canvas (self w2) <> None).
    { destruct Q1 as [Es _]; simpl; rewrite Es; exact Hc. }
    destruct (IH w2 Hc2) as (l & w' & E2 & Hl & Hs & Hh).
    exists (p :: l), w'; repeat split.
    + simpl.
      assert (Eb : (p <- mk ;; push_particle p) w = Ok tt w2)
        by (rewrite (bind_Ok _ _ _ _ _ E1); reflexivity).
      rewrite (bind_Ok _ _ _ _ _ Eb); exact E2.
    + simpl; rewrite Hl; reflexivity.
    + rewrite Hs; destruct Q1 as [Es _]; simpl; rewrite Es.
      rewrite <- app_assoc; destruct (self w); reflexivity.
    + rewrite Hh; simpl; rewrite (quiet_host _ _ _ Q1); reflexivity.
Qed.

(** The same for decorations; every pushed object satisfies what the
    constructor guarantees. *)
Lemma fill_specials (mk : M Special.t) (P : Special.t -> Prop) n :
  pure_draw mk ->
  yields mk P ->
  forall w, canvas (self w) <> None ->
  exists l w',
    repeatM n (p <- mk ;; push_special p) w = Ok tt w'
    /\ length l = n
    /\ Forall P l
    /\ self w' = set_specialParticles (specialParticles (self w) ++ l) (self w)
    /\ host w' = set_drawn (drawn (host w')) (host w).
Proof.
  intros Hmk HP; induction n as [| n IH]; intros w Hc.
  - exists [], w; simpl; repeat split.
    + constructor.
    + rewrite app_nil_r; destruct (self w); reflexivity.
    + destruct (host w); reflexivity.
  - destruct (pure_run mk w Hmk Hc) as (p & w1 & E1 & Q1).
    pose (w2 := mkWorld (host w1)
                  (set_specialParticles (specialParticles (self w1) ++ [p])
                     (self w1))).
    assert (Hc2 : canvas (self w2) <> None).
    { destruct Q1 as [Es _]; simpl; rewrite Es; exact Hc. }
    destruct (IH w2 Hc2) as (l & w' & E2 & Hl & HF & Hs & Hh).
    exists (p :: l), w'; repeat split.
    + simpl.
      assert (Eb : (p <- mk ;; push_special p) w = Ok tt w2)
        by (rewrite (bind_Ok _ _ _ _ _ E1); reflexivity).
      rewrite (bind_Ok _ _ _ _ _ Eb); exact E2.
    + simpl; rewrite Hl; reflexivity.
    + constructor; [exact (HP _ _ _ E1) | exact HF].
    + rewrite Hs; destruct Q1 as [Es _]; simpl; rewrite Es.
      rewrite <- app_assoc; destruct (self w); reflexivity.
    + rewrite Hh; simpl; rewrite (quiet_host _ _ _ Q1); reflexivity.
Qed.

(** What the two decoration constructors guarantee. *)
Definition fresh_decoration (b : Build) (ty : SpecialType) (p : Special.t) : Prop :=
  Special.type p = ty
  /\ Special.static p = true
  /\ Special.active p = true
  /\ Special.snowLevel p
     = match b with CoreBuild => None | AccrualBuild => Some 0 end.

Lemma createStaticTree_fresh b :
  yields (_createStaticTree b) (fresh_decoration b tree).
Proof.
  unfold _createStaticTree.
  repeat (apply yields_bind; intros ?).
  apply yields_ret; unfold fresh_decoration; simpl; auto.
Qed.

Lemma createStaticWreath_fresh b :
  yields (_createStaticWreath b) (fresh_decoration b wreath).
Proof.
  unfold _createStaticWreath; destruct b;
    repeat (apply yields_bind; intros ?);
    apply yields_ret; unfold fresh_decoration; simpl; auto.
Qed.

(** How many entries of a collection carry a given type tag. *)
Definition tally (ty : SpecialType) (l : list Special.t) : nat :=
  List.length (filter (fun p => SpecialType_eqb (Special.type p) ty) l).

Lemma tally_app ty l1 l2 : tally ty (l1 ++ l2) = (tally ty l1 + tally ty l2)%nat.
Proof. unfold tally; rewrite filter_app, length_app; reflexivity. Qed.

Lemma tally_all ty l :
  Forall (fun p => Special.type p = ty) l -> tally ty l = List.length l.
Proof.
  unfold tally; induction 1 as [| p l Hp _ IH]; simpl; [reflexivity |].
  rewrite Hp; destruct ty; simpl; rewrite IH; reflexivity.
Qed.

Lemma tally_none ty ty' l :
  ty <> ty' -> Forall (fun p => Special.type p = ty') l -> tally ty l = O.
Proof.
  unfold tally; intro Hne; induction 1 as [| p l Hp _ IH]; simpl;
    [reflexivity |].
  rewrite Hp; destruct ty, ty'; simpl; try congruence; exact IH.
Qed.

(** [Math.floor(n / 2)] is the floor division of the integers. *)
Lemma floor_half n : Math_floor (num n / 2) = (n / 2)%Z.
Proof.
  unfold Math_floor, num, Qfloor, Qdiv, Qmult, Qinv, inject_Z; simpl.
  rewrite Z.mul_1_r; reflexivity.
Qed.

(** ** Building the population *)

(** The whole build, for a world with a canvas and a known tier. *)
Lemma createParticles_spec b w c config :
  canvas (self w) = Some c ->
  INTENSITY_CONFIG b (intensity (self w)) = Some config ->
  let isMobile := lt (num (innerWidth (host w))) 768 in
  exists ps ts ws w',
    _createParticles b w = Ok tt w'
    /\ self w' = set_particles ps (set_specialParticles (ts ++ ws) (self w))
    /\ host w' = set_drawn (drawn (host w')) (host w)
    /\ List.length ps = Z.to_nat (density isMobile (count config))
    /\ List.length ts = Z.to_nat (density isMobile (trees config))
    /\ List.length ws = Z.to_nat (density isMobile (wreaths config))
    /\ Forall (fresh_decoration b tree) ts
    /\ Forall (fresh_decoration b wreath) ws.
Proof.
  intros Hc Hcfg isMobile.
  pose (w0 := mkWorld (host w)
                (set_specialParticles [] (set_particles [] (self w)))).
  assert (Hc0 : canvas (self w0) <> None) by (simpl; congruence).
  destruct (fill_particles _ (Z.to_nat (density isMobile (count config)))
              (pure_createParticle config) w0 Hc0)
    as (ps & w1 & E1 & L1 & S1 & H1).
  assert (Hc1 : canvas (self w1) <> None) by (rewrite S1; simpl; congruence).
  destruct (fill_specials _ (fresh_decoration b tree)
              (Z.to_nat (density isMobile (trees config)))
              (pure_createStaticTree b) (createStaticTree_fresh b) w1 Hc1)
    as (ts & w2 & E2 & L2 & F2 & S2 & H2).
  assert (Hc2 : canvas (self w2) <> None)
    by (rewrite S2, S1; simpl; congruence).
  destruct (fill_specials _ (fresh_decoration b wreath)
              (Z.to_nat (density isMobile (wreaths config)))
              (pure_createStaticWreath b) (createStaticWreath_fresh b) w2 Hc2)
    as (ws & w3 & E3 & L3 & F3 & S3 & H3).
  exists ps, ts, ws, w3.
  split; [| split; [| split; [| split; [| split; [| split; [| split]]]]]];
    try assumption.
  - unfold _createParticles.
    rewrite (bind_Ok this _ w (self w) w eq_refl), Hcfg.
    rewrite (bind_Ok page _ w (host w) w eq_refl).
    fold isMobile.
    rewrite (bind_Ok (assign (set_particles [])) _ w tt
               (mkWorld (host w) (set_particles [] (self w))) eq_refl).
    rewrite (bind_Ok (assign (set_specialParticles [])) _
               (mkWorld (host w) (set_particles [] (self w))) tt w0 eq_refl).
    rewrite (bind_Ok _ _ _ _ _ E1).
    rewrite (bind_Ok _ _ _ _ _ E2).
    exact E3.
  - rewrite S3, S2, S1; simpl. destruct (self w); reflexivity.
  - rewrite H3; simpl; rewrite H2; simpl; rewrite H1; reflexivity.
Qed.

Lemma table_counts b tier config :
  INTENSITY_CONFIG b tier = Some config ->
  (0 <= count config /\ 0 <= trees config /\ 0 <= wreaths config)%Z.
Proof.
  destruct b; simpl;
    [unfold INTENSITY_CONFIG_core | unfold INTENSITY_CONFIG_accrual];
    repeat (destruct (String.eqb tier _));
    intro E; inversion E; simpl; lia.
Qed.

Lemma fresh_type b ty l :
  Forall (fresh_decoration b ty) l -> Forall (fun p => Special.type p = ty) l.
Proof. apply Forall_impl; intros p H; apply H. Qed.

Lemma half_nonneg n : (0 <= n -> 0 <= n / 2)%Z.
Proof. intro H; apply Z.div_pos; lia. Qed.

(** C5: for every tier of either intensity table, a build on a viewport
    narrower than 768 px makes floor(count / 2) drift particles,
    floor(trees / 2) trees and floor(wreaths / 2) wreaths, and a build on a
    viewport of 768 px or more makes exactly the profile's counts. *)
Theorem population_counts (b : Build) (tier : string) (config : IntensityConfig)
    (w : World) (c : Canvas) :
  INTENSITY_CONFIG b tier = Some config ->
  intensity (self w) = tier ->
  canvas (self w) = Some c ->
  exists w',
    _createParticles b w = Ok tt w'
    /\ (num (innerWidth (host w)) < 768 ->
        Z.of_nat (List.length (particles (self w'))) = (count config / 2)%Z
        /\ Z.of_nat (tally tree (specialParticles (self w')))
           = (trees config / 2)%Z
        /\ Z.of_nat (tally wreath (specialParticles (self w')))
           = (wreaths config / 2)%Z)
    /\ (768 <= num (innerWidth (host w)) ->
        Z.of_nat (List.length (particles (self w'))) = count config
        /\ Z.of_nat (tally tree (specialParticles (self w'))) = trees config
        /\ Z.of_nat (tally wreath (specialParticles (self w')))
           = wreaths config).
Proof.
  intros Hcfg Hi Hc; subst tier.
  destruct (createParticles_spec b w c config Hc Hcfg)
    as (ps & ts & ws & w' & E & S & _ & Lp & Lt & Lw & Ft & Fw).
  destruct (table_counts _ _ _ Hcfg) as (Pc & Pt & Pw).
  assert (Tt : tally tree (ts ++ ws) = List.length ts).
  { rewrite tally_app, (tally_all _ _ (fresh_type _ _ _ Ft)).
    rewrite (tally_none tree wreath ws) by
      (try discriminate; apply (fresh_type _ _ _ Fw)).
    lia. }
  assert (Tw : tally wreath (ts ++ ws) = List.length ws).
  { rewrite tally_app, (tally_all _ _ (fresh_type _ _ _ Fw)).
    rewrite (tally_none wreath tree ts) by
      (try discriminate; apply (fresh_type _ _ _ Ft)).
    lia. }
  exists w'; split; [exact E |].
  rewrite S; simpl; rewrite Tt, Tw, Lp, Lt, Lw.
  split; intro Hw.
  - apply lt_true in Hw; rewrite Hw; unfold density; rewrite !floor_half.
    rewrite !Z2Nat.id by (apply half_nonneg; assumption); auto.
  - apply lt_false in Hw; rewrite Hw; unfold density.
    rewrite !Z2Nat.id by assumption; auto.
Qed.

(** Example worlds: the effect, enabled and at the default tier, right
    after [init()] on the desk page, and after [init()] and [start()]. *)
Definition ready : World :=
  run CoreBuild [Call_init] (boot desk (mkOptions None (Some true) None)).

Definition started : World := run CoreBuild [Call_start] ready.

Lemma population_counts_witness :
  exists w',
    _createParticles AccrualBuild
      (run AccrualBuild [Call_init]
         (boot phone (mkOptions (Some "heavy"%string) None None)))
    = Ok tt w'
    /\ List.length (particles (self w')) = 150%nat.
Proof.
  destruct (population_counts AccrualBuild "heavy"
              (mkConfig 300 (1.0, 3.5) (1, 5) 10 4)
              (run AccrualBuild [Call_init]
                 (boot phone (mkOptions (Some "heavy"%string) None None)))
              (mkCanvas 390 844 true) eq_refl eq_refl eq_refl)
    as (w' & E & Hsmall & _).
  exists w'; split; [exact E |].
  destruct (Hsmall eq_refl) as (Hp & _).
  apply Nat2Z.inj; rewrite Hp; reflexivity.
Defined.

(** ** Changing the tier *)

Lemma includes_table b level :
  includes level = false <-> INTENSITY_CONFIG b level = None.
Proof.
  unfold includes; simpl.
  destruct b; simpl;
    [unfold INTENSITY_CONFIG_core | unfold INTENSITY_CONFIG_accrual];
    repeat (destruct (String.eqb level _)); simpl; split; intro E;
    try reflexivity; discriminate.
Qed.

(** The build forgets the collections it starts from. *)
Lemma createParticles_forgets b w config ps qs :
  INTENSITY_CONFIG b (intensity (self w)) = Some config ->
  _createParticles b
    (mkWorld (host w) (set_particles ps (set_specialParticles qs (self w))))
  = _createParticles b w.
Proof.
  intro Hcfg; unfold _createParticles.
  rewrite !(bind_Ok this _ _ _ _ eq_refl); simpl; rewrite Hcfg.
  rewrite !(bind_Ok page _ _ _ _ eq_refl).
  rewrite !(bind_Ok (assign _) _ _ _ _ eq_refl); reflexivity.
Qed.

(** C4: on an initialized effect, [setIntensity] with a tier that is not in
    the table changes nothing, and [setIntensity('heavy')] makes the tier
    heavy and replaces the drift particles by a newly built collection of
    300 particles, or of 150 when the viewport is narrower than 768 px;
    the new collection does not depend on the one it replaces. *)
Theorem setIntensity_unknown_and_heavy (b : Build) (w : World) (c : Canvas) :
  canvas (self w) = Some c ->
  (forall level, INTENSITY_CONFIG b level = None ->
                 setIntensity b level w = Ok tt w)
  /\ exists w',
       setIntensity b "heavy" w = Ok tt w'
       /\ intensity (self w') = "heavy"%string
       /\ List.length (particles (self w'))
          = (if lt (num (innerWidth (host w))) 768 then 150 else 300)%nat
       /\ forall ps qs,
            setIntensity b "heavy"
              (mkWorld (host w)
                 (set_particles ps (set_specialParticles qs (self w))))
            = Ok tt w'.
Proof.
  intro Hc; split.
  - intros level Hl; apply includes_table in Hl.
    unfold setIntensity; rewrite Hl; reflexivity.
  - pose (w0 := mkWorld (host w) (set_intensity "heavy" (self w))).
    assert (Hcfg : INTENSITY_CONFIG b (intensity (self w0))
                   = Some (mkConfig 300 (1.0, 3.5) (1, 5)
                             (match b with CoreBuild => 20 | AccrualBuild => 10 end)
                             (match b with CoreBuild => 10 | AccrualBuild => 4 end)))
      by (destruct b; reflexivity).
    destruct (createParticles_spec b w0 c _ Hc Hcfg)
      as (ps & ts & ws & w' & E & S & _ & Lp & _).
    assert (E' : setIntensity b "heavy" w = Ok tt w').
    { unfold setIntensity; simpl.
      rewrite (bind_Ok (assign (set_intensity "heavy")) _ w tt w0 eq_refl).
      exact E. }
    exists w'; split; [exact E' |].
    split; [rewrite S; reflexivity |].
    split.
    + rewrite S; simpl; rewrite Lp; simpl.
      destruct (lt (num (innerWidth (host w))) 768); reflexivity.
    + intros ps' qs'; rewrite <- E'; unfold setIntensity; simpl.
      rewrite !(bind_Ok (assign (set_intensity "heavy")) _ _ _ _ eq_refl).
      apply (createParticles_forgets b w0 _ ps' qs' Hcfg).
Qed.

Lemma setIntensity_unknown_and_heavy_witness :
  setIntensity CoreBuild "bogus-tier" ready = Ok tt ready
  /\ List.length
       (particles (self (after (setIntensity CoreBuild "heavy" ready))))
     = 300%nat.
Proof.
  destruct (setIntensity_unknown_and_heavy CoreBuild ready
              (mkCanvas 1024 768 true) eq_refl)
    as (Hu & w' & E & _ & L & _).
  split; [apply Hu; reflexivity |].
  rewrite E; exact L.
Defined.

(** ** The lifecycle *)

(** C3 (amended): when no frame is pending, [pause()] sets the paused flag
    and changes nothing else: the canvas, the tier, the particle
    collections and the page are as before.  It changes nothing at all
    when the flag was already set. *)
Theorem pause_when_idle (w : World) :
  animationId (self w) = None ->
  pause w = Ok tt (mkWorld (host w) (set_isPaused true (self w)))
  /\ (isPaused (self w) = true -> pause w = Ok tt w).
Proof.
  intro Hid.
  assert (E : pause w = Ok tt (mkWorld (host w) (set_isPaused true (self w)))).
  { unfold pause.
    rewrite (bind_Ok (assign (set_isPaused true)) _ w tt _ eq_refl).
    rewrite (bind_Ok this _ _ _ _ eq_refl); simpl; rewrite Hid; reflexivity. }
  split; [exact E |].
  intro Hp; rewrite E; destruct w as [s e]; destruct e; simpl in *.
  rewrite Hp; reflexivity.
Qed.

Lemma pause_when_idle_witness :
  pause ready = Ok tt (mkWorld (host ready) (set_isPaused true (self ready))).
Proof. exact (proj1 (pause_when_idle ready eq_refl)). Defined.

(** The claim as it stands fails on an effect that was initialized and
    never started: no frame is pending, and [pause()] turns its paused
    flag from false to true. *)
Lemma pause_sets_flag_when_idle :
  animationId (self ready) = None
  /\ isPaused (self ready) = false
  /\ isPaused (self (after (pause ready))) = true.
Proof. vm_compute; repeat split. Qed.

(** The two visibility signals in a row, step by step. *)
Lemma hide_then_show_stays_paused_steps (w : World) :
  exists w1 w2,
    visibilitychange true w = Ok tt w1
    /\ visibilitychange false w1 = Ok tt w2
    /\ running w2 = false
    /\ isPaused (self w2) = true
    /\ enabled (self w2) = enabled (self w)
    /\ listening (host w1) = listening (host w).
Proof.
  unfold visibilitychange, _handleVisibility, pause.
  unfold bind, tell, page, this, assign, cancelAnimationFrame, ret; simpl.
  destruct (animationId (self w)) as [id |] eqn:Hid; simpl;
    (eexists; eexists; split; [reflexivity |]);
    simpl; rewrite andb_false_r;
    (split; [reflexivity |]);
    unfold running; simpl; rewrite ?Hid; auto.
Qed.

(** C1 (what the code does): whatever the state of the effect, once the
    page has signalled "hidden" and then "visible" to the visibility
    listener, no frame is pending and the paused flag is set; the effect
    does not resume, enabled or not. *)
Theorem hide_then_show_stays_paused (w : World) :
  exists w1 w2,
    visibilitychange true w = Ok tt w1
    /\ visibilitychange false w1 = Ok tt w2
    /\ running w2 = false
    /\ isPaused (self w2) = true
    /\ enabled (self w2) = enabled (self w).
Proof.
  destruct (hide_then_show_stays_paused_steps w)
    as (w1 & w2 & E1 & E2 & Hr & Hp & He & _).
  exists w1, w2; auto.
Qed.

(** As page events: while the listeners are bound, "hidden" followed by
    "visible" leaves no frame pending. *)
Lemma hide_then_show_events b w :
  listening (host w) = true ->
  running (run b [Visibility true; Visibility false] w) = false.
Proof.
  intro Hl.
  destruct (hide_then_show_stays_paused_steps w)
    as (w1 & w2 & E1 & E2 & Hr & _ & _ & Hl1).
  assert (D1 : dispatch b (Visibility true) w = Ok tt w1).
  { unfold dispatch.
    rewrite (bind_Ok page _ w (host w) w eq_refl), Hl; exact E1. }
  assert (D2 : dispatch b (Visibility false) w1 = Ok tt w2).
  { unfold dispatch.
    rewrite (bind_Ok page _ w1 (host w1) w1 eq_refl), Hl1, Hl; exact E2. }
  unfold run; rewrite D1; unfold after at 2; rewrite D2; exact Hr.
Qed.

(** The same on a concrete effect: enabled, initialized and started, so
    that a frame is pending and the listeners are bound; after the two
    events no frame is pending. *)
Example started_effect_does_not_resume :
  running started = true
  /\ enabled (self started) = true
  /\ isPaused (self started) = false
  /\ listening (host started) = true
  /\ running (run CoreBuild [Visibility true; Visibility false] started)
     = false.
Proof. vm_compute; repeat split. Qed.

(** ** Building without a canvas *)

(** A computation raises when it is run without a canvas. *)
Definition raises {A} (m : M A) : Prop :=
  forall w, canvas (self w) = None -> returns (m w) = false.

Lemma raises_the_canvas {B} (k : Canvas -> M B) : raises (bind the_canvas k).
Proof.
  intros w Hc; unfold the_canvas, this, TypeError, bind; simpl.
  rewrite Hc; reflexivity.
Qed.

Lemma raises_after {A B} (m : M A) (k : A -> M B) :
  within quiet m -> (forall a, raises (k a)) -> raises (bind m k).
Proof.
  intros Qm Hk w Hc; specialize (Qm w); unfold bind.
  destruct (m w) as [a w1 | w1]; simpl in *; [| reflexivity].
  apply Hk; destruct Qm as [E _]; rewrite E; exact Hc.
Qed.

Lemma raises_first {A B} (m : M A) (k : A -> M B) :
  raises m -> raises (bind m k).
Proof.
  intros Hm w Hc; specialize (Hm w Hc); unfold bind.
  destruct (m w); [discriminate | reflexivity].
Qed.

Lemma createParticle_raises config : raises (_createParticle config).
Proof.
  unfold _createParticle.
  apply raises_after; [apply pure_Math_random | intros depth].
  apply raises_after; [apply pure_layer | intros [[[size speed] opacity] windSpeed]].
  apply raises_after; [apply pure_Math_random | intros rx].
  apply raises_the_canvas.
Qed.

Lemma table_valid b level :
  includes level = true ->
  exists config, INTENSITY_CONFIG b level = Some config
                 /\ (50 <= count config)%Z.
Proof.
  unfold includes; simpl.
  destruct b; simpl;
    [unfold INTENSITY_CONFIG_core | unfold INTENSITY_CONFIG_accrual];
    repeat (destruct (String.eqb level _)); simpl; intro E;
    try discriminate; eexists; (split; [reflexivity | simpl; lia]).
Qed.

(** With a valid tier and no canvas the population build raises at the
    first drift particle. *)
Lemma setIntensity_without_canvas b level w :
  includes level = true ->
  canvas (self w) = None ->
  returns (setIntensity b level w) = false.
Proof.
  intros Hl Hc; unfold setIntensity; rewrite Hl; simpl.
  rewrite (bind_Ok (assign (set_intensity level)) _ w tt _ eq_refl).
  destruct (table_valid b level Hl) as (config & Hcfg & Hcount).
  unfold _createParticles.
  rewrite (bind_Ok this _ _ _ _ eq_refl); simpl; rewrite Hcfg.
  rewrite (bind_Ok page _ _ _ _ eq_refl); simpl.
  rewrite !(bind_Ok (assign _) _ _ _ _ eq_refl).
  set (isMobile := lt (num (innerWidth (host w))) 768).
  assert (Hn : exists k, Z.to_nat (density isMobile (count config)) = S k).
  { exists (Nat.pred (Z.to_nat (density isMobile (count config)))).
    assert (1 <= density isMobile (count config))%Z.
    { unfold density; destruct isMobile; [rewrite floor_half |]; try lia.
      apply Z.div_le_lower_bound; lia. }
    lia. }
  destruct Hn as [k ->]; simpl.
  apply raises_first; [| exact Hc].
  apply raises_first, raises_first, createParticle_raises.
Qed.

(** C2 (what the code does): on an effect that was constructed and not
    initialized, [setIntensity] with any of the three valid tiers raises a
    [TypeError] instead of returning, in both builds and on every page. *)
Theorem setIntensity_raises_before_init (b : Build) (s : Host)
    (options : Options) :
  returns (setIntensity b "light" (boot s options)) = false
  /\ returns (setIntensity b "medium" (boot s options)) = false
  /\ returns (setIntensity b "heavy" (boot s options)) = false.
Proof.
  repeat split; apply setIntensity_without_canvas; reflexivity.
Qed.

(** The resize callback checks the canvas before it rebuilds, and returns
    where [setIntensity] raises. *)
Lemma resize_callback_without_canvas b w :
  canvas (self w) = None -> resize_callback b w = Ok tt w.
Proof.
  intro Hc; unfold resize_callback.
  rewrite (bind_Ok this _ _ _ _ eq_refl), Hc; reflexivity.
Qed.

(** A second way to raise: a tier name that is not in the table, given to
    the constructor, makes [init()] raise. *)
Example init_raises_on_unknown_tier :
  returns (init CoreBuild
             (boot desk (mkOptions (Some "blizzard"%string) None None)))
  = false.
Proof. reflexivity. Qed.

(** ** One drift particle, one frame *)

(** Where gravity and wind carry the particle in this frame, before the
    recycle and wrap checks: the sine is taken at the advanced wind phase
    and the gust is the effect's current one. *)
Definition carried (w : World) (particle : Particle.t) (deltaTime : Q) : Q :=
  drifted
    (Math_sin (host w)
       (Particle.windOffset particle
        + Particle.windSpeed particle * normalizedDelta deltaTime))
    (windGust (self w)) particle deltaTime.

Lemma updateParticle_falls w c particle deltaTime :
  canvas (self w) = Some c ->
  fallen particle deltaTime <= num (height c) + 10 ->
  exists p',
    _updateParticle particle deltaTime w = Ok p' w
    /\ Particle.y p' = fallen particle deltaTime
    /\ Particle.x p' = wrap c (carried w particle deltaTime).
Proof.
  intros Hc Hy.
  assert (G : gt (fallen particle deltaTime) (num (height c) + 10) = false)
    by (apply lt_false; exact Hy).
  unfold _updateParticle, the_canvas, sin, this, page, Math_random, tell, ret,
    bind; simpl.
  rewrite Hc, G; simpl.
  eexists; split; [destruct w; reflexivity |]; split; reflexivity.
Qed.

Lemma updateParticle_recycles w c particle deltaTime :
  canvas (self w) = Some c ->
  num (height c) + 10 < fallen particle deltaTime ->
  exists p',
    _updateParticle particle deltaTime w
    = Ok p' (mkWorld (set_drawn (S (drawn (host w))) (host w)) (self w))
    /\ Particle.y p' = -10
    /\ Particle.x p'
       = wrap c (randoms (host w) (drawn (host w)) * num (width c)).
Proof.
  intros Hc Hy.
  assert (G : gt (fallen particle deltaTime) (num (height c) + 10) = true)
    by (apply lt_true; exact Hy).
  unfold _updateParticle, the_canvas, sin, this, page, Math_random, tell, ret,
    bind; simpl.
  rewrite Hc, G; simpl.
  eexists; split; [reflexivity |]; split; reflexivity.
Qed.

Lemma wrap_inside c x :
  -10 <= x -> x <= num (width c) + 10 -> wrap c x = x.
Proof.
  intros Hl Hr; unfold wrap, gt.
  apply lt_false in Hl; apply lt_false in Hr; rewrite Hl, Hr; reflexivity.
Qed.

Lemma num_pos z : (0 < z)%Z -> 0 < num z.
Proof. intro H; unfold num, inject_Z, Qlt; simpl; lia. Qed.

Lemma num_nonneg z : (0 <= z)%Z -> 0 <= num z.
Proof. intro H; unfold num, inject_Z, Qle; simpl; lia. Qed.

Lemma normalizedDelta_pos deltaTime : 0 < deltaTime -> 0 < normalizedDelta deltaTime.
Proof.
  unfold normalizedDelta; intro H.
  apply Qlt_shift_div_l; [reflexivity | lra].
Qed.

(** C6: a drift particle with positive speed, on a frame with positive
    elapsed time and a surface of positive width: while the new height
    stays within surface height + 10, [y] strictly increases; and when the
    new height exceeds surface height + 10, the particle ends the frame
    with a negative [y] and an [x] drawn anew in [0, surface width). *)
Theorem fall_and_recycle (w : World) (c : Canvas) (particle : Particle.t)
    (deltaTime : Q) :
  canvas (self w) = Some c ->
  (0 < width c)%Z ->
  unit_interval (host w) ->
  0 < Particle.speed particle ->
  0 < deltaTime ->
  exists p' w',
    _updateParticle particle deltaTime w = Ok p' w'
    /\ (fallen particle deltaTime <= num (height c) + 10 ->
        Particle.y particle < Particle.y p')
    /\ (num (height c) + 10 < fallen particle deltaTime ->
        Particle.y p' < 0
        /\ Particle.x p' = randoms (host w) (drawn (host w)) * num (width c)
        /\ 0 <= Particle.x p'
        /\ Particle.x p' < num (width c)).
Proof.
  intros Hc Hw Hr Hs Hd.
  pose proof (Qmult_lt_0_compat _ _ Hs (normalizedDelta_pos _ Hd)) as Hstep.
  pose proof (num_pos _ Hw) as HW.
  destruct (Hr (drawn (host w))) as [R0 R1].
  set (r := randoms (host w) (drawn (host w))) in *.
  assert (X0 : 0 <= r * num (width c)) by nra.
  assert (X1 : r * num (width c) < num (width c)) by nra.
  destruct (Qlt_le_dec (num (height c) + 10) (fallen particle deltaTime))
    as [Hy | Hy].
  - destruct (updateParticle_recycles w c particle deltaTime Hc Hy)
      as (p' & E & Ey & Ex).
    fold r in Ex; rewrite wrap_inside in Ex by lra.
    exists p', (mkWorld (set_drawn (S (drawn (host w))) (host w)) (self w)).
    split; [exact E |]; split; intro H.
    + exfalso; apply (Qlt_not_le _ _ Hy H).
    + rewrite Ey, Ex; repeat split; try assumption; reflexivity.
  - destruct (updateParticle_falls w c particle deltaTime Hc Hy)
      as (p' & E & Ey & _).
    exists p', w; split; [exact E |]; split; intro H.
    + rewrite Ey; unfold fallen; lra.
    + exfalso; apply (Qlt_not_le _ _ H Hy).
Qed.

Lemma desk_draws : unit_interval desk.
Proof.
  intro n; unfold desk; simpl.
  destruct (Nat.even n); split; (discriminate || reflexivity).
Qed.

Lemma ready_draws : unit_interval (host ready).
Proof.
  assert (E : randoms (host ready) = randoms desk)
    by (vm_compute; reflexivity).
  unfold unit_interval; rewrite E; apply desk_draws.
Qed.

(** A flake in the middle of the desk surface, one near its left edge, and
    one about to leave it at the bottom left corner. *)
Definition flake : Particle.t := Particle.mk 100 50 2 1.5 0.9 0 0.02 0 0.01.

Definition edge_flake : Particle.t :=
  Particle.mk (-9.5) 50 2 2 0.9 0 0.02 0 0.01.

Definition corner_flake : Particle.t :=
  Particle.mk (-9.5) 777 2 2 0.9 0 0.02 0 0.01.

(** The initialized desk effect in a gust of -1.5. *)
Definition gusty : World :=
  mkWorld (host ready) (set_windGust (-1.5) (self ready)).

Lemma fall_and_recycle_witness :
  exists p' w',
    _updateParticle flake 16 ready = Ok p' w'
    /\ Particle.y flake < Particle.y p'.
Proof.
  destruct (fall_and_recycle ready (mkCanvas 1024 768 true) flake 16
              eq_refl eq_refl ready_draws eq_refl eq_refl)
    as (p' & w' & E & Hfall & _).
  exists p', w'; split; [exact E |].
  apply Hfall; vm_compute; discriminate.
Defined.

(** C7 (amended): when the frame does not recycle the particle at the
    bottom edge, the horizontal wrap is exact: a particle carried to
    [x < -10] ends the frame at exactly surface width + 10, and one
    carried to [x > surface width + 10] ends it at exactly -10. *)
Theorem wrap_is_exact (w : World) (c : Canvas) (particle : Particle.t)
    (deltaTime : Q) :
  canvas (self w) = Some c ->
  (0 <= width c)%Z ->
  fallen particle deltaTime <= num (height c) + 10 ->
  exists p',
    _updateParticle particle deltaTime w = Ok p' w
    /\ (carried w particle deltaTime < -10 ->
        Particle.x p' = num (width c) + 10)
    /\ (num (width c) + 10 < carried w particle deltaTime ->
        Particle.x p' = -10).
Proof.
  intros Hc Hw Hy.
  destruct (updateParticle_falls w c particle deltaTime Hc Hy)
    as (p' & E & _ & Ex).
  pose proof (num_nonneg _ Hw) as HW.
  exists p'; split; [exact E |]; rewrite Ex; unfold wrap, gt; split; intro H.
  - apply lt_true in H; rewrite H; reflexivity.
  - assert (L : lt (carried w particle deltaTime) (-10) = false)
      by (apply lt_false; lra).
    apply lt_true in H; rewrite L, H; reflexivity.
Qed.

Lemma wrap_is_exact_witness :
  exists p',
    _updateParticle edge_flake (1000 / 60) gusty = Ok p' gusty
    /\ Particle.x p' = num 1024 + 10.
Proof.
  destruct (wrap_is_exact gusty (mkCanvas 1024 768 true) edge_flake
              (1000 / 60) eq_refl)
    as (p' & E & Hleft & _).
  - vm_compute; discriminate.
  - vm_compute; discriminate.
  - exists p'; split; [exact E |].
    apply Hleft; vm_compute; reflexivity.
Defined.

(** The claim as it stands fails when the same frame also carries the
    particle past the bottom edge: in a gust of -1.5 and over one 60 Hz
    frame, [corner_flake] is carried from [x = -9.5] to [x = -11 < -10]
    (to within [-11.5, -10.5] whatever the sine) and from [y = 777] to
    [y = 779 > 768 + 10]; the recycle re-draws its [x] before the wrap
    looks at it, and it ends the frame inside the surface and not at
    surface width + 10. *)
Lemma wrap_skipped_on_recycle :
  carried gusty corner_flake (1000 / 60) < -10
  /\ exists p' w',
       _updateParticle corner_flake (1000 / 60) gusty = Ok p' w'
       /\ Particle.y p' = -10
       /\ Particle.x p' < num 1024
       /\ ~ Particle.x p' == num 1024 + 10.
Proof.
  split; [vm_compute; reflexivity |].
  destruct (updateParticle_recycles gusty (mkCanvas 1024 768 true)
              corner_flake (1000 / 60) eq_refl)
    as (p' & E & Ey & Ex).
  - vm_compute; reflexivity.
  - exists p'; eexists; split; [exact E |]; split; [exact Ey |].
    rewrite Ex; split; [vm_compute; reflexivity | vm_compute; discriminate].
Qed.

(** ** The wind *)

(** A steady computation is calm and returns whenever there is a canvas. *)
Definition steady {A} (m : M A) : Prop := sound calm m.

Lemma steady_ret {A} (a : A) : steady (ret a).
Proof. apply sound_ret, calm_refl. Qed.

Lemma steady_this : steady this.
Proof. apply sound_this, calm_refl. Qed.

Lemma steady_bind {A B} (m : M A) (k : A -> M B) :
  steady m -> (forall a, steady (k a)) -> steady (bind m k).
Proof. apply sound_bind; [apply calm_trans | apply calm_canvas]. Qed.

Lemma steady_pure {A} (m : M A) : pure_draw m -> steady m.
Proof.
  intros [Qm Rm]; split; [| exact Rm].
  intro w; apply quiet_calm, Qm.
Qed.

Lemma steady_assign (f : Effect -> Effect) :
  (forall e, canvas (f e) = canvas e
             /\ windGust (f e) = windGust e
             /\ windGustTarget (f e) = windGustTarget e) ->
  steady (assign f).
Proof.
  intro Hf; split; [| reflexivity].
  intro w; destruct (Hf (self w)) as (? & ? & ?); repeat split; assumption.
Qed.

Lemma steady_tell (f : Host -> Host) :
  (forall s, randoms (f s) = randoms s) -> steady (tell f).
Proof.
  intro Hf; split; [| reflexivity].
  intro w; repeat split; apply Hf.
Qed.

Create HintDb steady discriminated.
#[local] Hint Resolve steady_ret steady_this : steady.

Ltac steady_steps :=
  repeat first
    [ solve [auto 1 with steady nocore]
    | solve [apply steady_pure; auto 1 with pure nocore]
    | match goal with
      | |- steady (bind _ _) => apply steady_bind; [| intros ?]
      | |- steady (assign _) =>
          apply steady_assign; intros ?; repeat split; reflexivity
      | |- steady (tell _) => apply steady_tell; intros ?; reflexivity
      | |- steady (if ?c then _ else _) => destruct c
      | |- steady (match ?x with _ => _ end) => destruct x
      | |- steady (let _ := _ in _) => cbv zeta
      end ].

Lemma steady_push_special p : steady (push_special p).
Proof. unfold push_special; steady_steps. Qed.
#[local] Hint Resolve steady_push_special : steady.

Lemma steady_spawn_sleigh : steady spawn_sleigh.
Proof. unfold spawn_sleigh; cbv zeta; steady_steps. Qed.

Lemma steady_spawn_elf : steady spawn_elf.
Proof. unfold spawn_elf; cbv zeta; steady_steps. Qed.
#[local] Hint Resolve steady_spawn_sleigh steady_spawn_elf : steady.

Lemma steady_spawn b : steady (spawn b).
Proof. unfold spawn, _spawnSpecialParticle; destruct b; steady_steps. Qed.

Lemma steady_requestAnimationFrame : steady requestAnimationFrame.
Proof.
  unfold requestAnimationFrame, fresh_handle; steady_steps;
    apply steady_pure, pure_page.
Qed.

Lemma steady_updates {A} (f : A -> M A) xs :
  (forall a, pure_draw (f a)) -> steady (mapM f xs).
Proof. intro Hf; apply steady_pure, pure_mapM, Hf. Qed.
#[local] Hint Resolve steady_spawn steady_requestAnimationFrame : steady.

(** Whether this frame re-rolls the gust target. *)
Definition rerolled (w : World) (currentTime : Q) : bool :=
  gt (currentTime - lastGustTime (self w))
     (5000 + randoms (host w) (drawn (host w)) * 10000).

Lemma update_wind_spec currentTime w :
  exists w',
    update_wind currentTime w = Ok tt w'
    /\ canvas (self w') = canvas (self w)
    /\ randoms (host w') = randoms (host w)
    /\ windGust (self w') = ease (windGust (self w)) (windGustTarget (self w'))
    /\ windGustTarget (self w')
       = if rerolled w currentTime
         then (randoms (host w) (S (drawn (host w))) - 0.5) * 4
         else windGustTarget (self w).
Proof.
  unfold update_wind, rerolled, Math_random, this, page, tell, assign, ret,
    bind; simpl.
  destruct (gt (currentTime - lastGustTime (self w))
              (5000 + randoms (host w) (drawn (host w)) * 10000)); simpl;
    eexists; (split; [reflexivity |]); simpl; repeat split.
Qed.

(** A frame of a running effect: the gust update, then a steady rest. *)
Lemma animate_runs b currentTime w c :
  isPaused (self w) = false ->
  canvas (self w) = Some c ->
  exists w1 w',
    update_wind currentTime
      (mkWorld (host w)
         (set_twinkleTime currentTime (set_lastTime currentTime (self w))))
    = Ok tt w1
    /\ _animate b currentTime w = Ok tt w'
    /\ calm w1 w'.
Proof.
  intros Hp Hc.
  destruct (update_wind_spec currentTime
              (mkWorld (host w)
                 (set_twinkleTime currentTime
                    (set_lastTime currentTime (self w)))))
    as (w1 & E1 & Hc1 & _).
  exists w1.
  unfold _animate.
  rewrite (bind_Ok this _ w (self w) w eq_refl), Hp, Hc.
  change (false || false) with false; cbv iota zeta.
  rewrite (bind_Ok (assign (set_lastTime currentTime)) _ w tt _ eq_refl).
  rewrite (bind_Ok (assign (set_twinkleTime currentTime)) _ _ tt _ eq_refl).
  rewrite (bind_Ok _ _ _ _ _ E1).
  assert (Hc1' : canvas (self w1) <> None)
    by (rewrite Hc1; simpl; congruence).
  match goal with
  | |- exists w', _ /\ ?m w1 = Ok tt w' /\ _ =>
      assert (Hs : steady m)
  end.
  { steady_steps; apply steady_updates; intro p;
      [apply pure_updateParticle | apply pure_updateSpecialParticle]. }
  destruct (sound_run calm _ w1 Hs Hc1') as ([] & w' & E & Hcalm).
  exists w'; split; [exact E1 |]; split; [exact E | exact Hcalm].
Qed.

(** In exact arithmetic the step is 0.02 of the gap, so the gap shrinks by
    the factor 0.98 and the gust moves for as long as it differs from the
    target. *)
Lemma ease_step g t : Qabs (ease g t - g) == 0.02 * Qabs (t - g).
Proof.
  assert (E : ease g t - g == 0.02 * (t - g)) by (unfold ease; ring).
  rewrite E, Qabs_Qmult; reflexivity.
Qed.

Lemma ease_gap g t : t - ease g t == 0.98 * (t - g).
Proof. unfold ease; ring. Qed.

Lemma eased_strictly_up n g t :
  g < t -> eased n g t < eased (S n) g t /\ eased (S n) g t < t.
Proof.
  intro H.
  assert (B : eased n g t < t).
  { induction n as [| n IH]; simpl; [exact H |]. unfold ease; lra. }
  simpl; unfold ease; split; lra.
Qed.

Lemma eased_strictly_down n g t :
  t < g -> t < eased (S n) g t /\ eased (S n) g t < eased n g t.
Proof.
  intro H.
  assert (B : t < eased n g t).
  { induction n as [| n IH]; simpl; [exact H |]. unfold ease; lra. }
  simpl; unfold ease; split; lra.
Qed.

(** *** With rounding *)

Section Rounded.
Variables (u eta : Q) (rnd : Q -> Q).
Hypothesis R : rounding u eta rnd.

Lemma rnd_monotone x y : x <= y -> rnd x <= rnd y.
Proof. apply R. Qed.

Lemma rnd_zero : rnd 0 == 0.
Proof.
  destruct R as (_ & _ & _ & _ & Hp & Hn & _).
  pose proof (Hp 0 ltac:(lra)); pose proof (Hn 0 ltac:(lra)); lra.
Qed.

Lemma rnd_nonneg x : 0 <= x -> 0 <= rnd x /\ rnd x <= 2 * x.
Proof.
  intro H; split; [| apply R, H].
  pose proof (rnd_monotone 0 x H); pose proof rnd_zero; lra.
Qed.

Lemma rnd_nonpos x : x <= 0 -> 2 * x <= rnd x /\ rnd x <= 0.
Proof.
  intro H; split; [apply R, H |].
  pose proof (rnd_monotone x 0 H); pose proof rnd_zero; lra.
Qed.

Lemma rnd_between a x b :
  rnd a == a -> rnd b == b -> a <= x -> x <= b -> a <= rnd x /\ rnd x <= b.
Proof.
  intros Ha Hb H1 H2.
  pose proof (rnd_monotone a x H1); pose proof (rnd_monotone x b H2).
  split; lra.
Qed.

Lemma ease_rounded_up g t :
  rnd g == g -> rnd t == t -> g <= t ->
  g <= ease_rounded rnd g t /\ ease_rounded rnd g t <= t.
Proof.
  intros Hg Ht H; unfold ease_rounded.
  destruct (rnd_nonneg (t - g)) as [D0 D1]; [lra |].
  destruct (rnd_nonneg 0.02) as [C0 C1]; [lra |].
  destruct (rnd_nonneg (rnd (t - g) * rnd 0.02)) as [P0 P1]; [nra |].
  apply rnd_between; [exact Hg | exact Ht | lra | nra].
Qed.

Lemma ease_rounded_down g t :
  rnd g == g -> rnd t == t -> t <= g ->
  t <= ease_rounded rnd g t /\ ease_rounded rnd g t <= g.
Proof.
  intros Hg Ht H; unfold ease_rounded.
  destruct (rnd_nonpos (t - g)) as [D0 D1]; [lra |].
  destruct (rnd_nonneg 0.02) as [C0 C1]; [lra |].
  destruct (rnd_nonpos (rnd (t - g) * rnd 0.02)) as [P0 P1]; [nra |].
  apply rnd_between; [exact Ht | exact Hg | nra | lra].
Qed.

Lemma ease_rounded_kept g t : rnd (ease_rounded rnd g t) == ease_rounded rnd g t.
Proof. unfold ease_rounded; apply R. Qed.

Lemma eased_rounded_kept n g t :
  rnd g == g -> rnd (eased_rounded rnd n g t) == eased_rounded rnd n g t.
Proof. destruct n; simpl; [trivial | intros _; apply ease_rounded_kept]. Qed.

Lemma eased_rounded_up n g t :
  rnd g == g -> rnd t == t -> g <= t ->
  eased_rounded rnd n g t <= eased_rounded rnd (S n) g t
  /\ eased_rounded rnd (S n) g t <= t.
Proof.
  intros Hg Ht H.
  assert (B : eased_rounded rnd n g t <= t).
  { induction n as [| n IH]; simpl; [exact H |].
    apply (ease_rounded_up _ _ (eased_rounded_kept n g t Hg) Ht IH). }
  simpl; apply (ease_rounded_up _ _ (eased_rounded_kept n g t Hg) Ht B).
Qed.

Lemma eased_rounded_down n g t :
  rnd g == g -> rnd t == t -> t <= g ->
  t <= eased_rounded rnd (S n) g t
  /\ eased_rounded rnd (S n) g t <= eased_rounded rnd n g t.
Proof.
  intros Hg Ht H.
  assert (B : t <= eased_rounded rnd n g t).
  { induction n as [| n IH]; simpl; [exact H |].
    apply (ease_rounded_down _ _ (eased_rounded_kept n g t Hg) Ht IH). }
  simpl; apply (ease_rounded_down _ _ (eased_rounded_kept n g t Hg) Ht B).
Qed.

(** The error of one rounding of a value of size at most [X <= 8]. *)
Lemma rnd_error x X :
  Qabs x <= X -> X <= 8 ->
  - (u * X + eta) <= rnd x - x /\ rnd x - x <= u * X + eta.
Proof.
  intros Hx HX.
  destruct R as ((U0 & _) & _ & _ & _ & _ & _ & He).
  assert (H8 : Qabs x <= 8) by lra.
  pose proof (He x H8) as H.
  assert (Hm : u * Qabs x <= u * X) by nra.
  apply Qabs_Qle_condition; lra.
Qed.

Lemma ease_rounded_close g t :
  Qabs g <= 2 -> Qabs t <= 2 ->
  Qabs (ease_rounded rnd g t - ease g t) <= 3 * u + 7 * eta.
Proof.
  intros Hg Ht.
  destruct R as ((U0 & U1) & (E0 & E1) & _).
  apply Qabs_Qle_condition in Hg, Ht.
  assert (HD : Qabs (t - g) <= 4) by (apply Qabs_Qle_condition; lra).
  destruct (rnd_error (t - g) 4 HD) as [D0 D1]; [lra |].
  assert (HC : Qabs 0.02 <= 0.02) by (apply Qabs_Qle_condition; lra).
  destruct (rnd_error 0.02 0.02 HC) as [C0 C1]; [lra |].
  apply Qabs_Qle_condition in HD.
  set (D := t - g) in *; set (d := rnd D) in *; set (c := rnd 0.02) in *.
  assert (Hc : 0 <= c /\ c <= 0.02102) by (split; lra).
  assert (Hd : -4.005 <= d /\ d <= 4.005) by (split; lra).
  assert (A1 : (d - D) * c <= (4 * u + eta) * 0.02102) by nra.
  assert (A2 : - ((4 * u + eta) * 0.02102) <= (d - D) * c) by nra.
  assert (A3 : D * (c - 0.02) <= 4 * (0.02 * u + eta)) by nra.
  assert (A4 : - (4 * (0.02 * u + eta)) <= D * (c - 0.02)) by nra.
  assert (HQ : Qabs (d * c) <= 0.0846) by (apply Qabs_Qle_condition; nra).
  destruct (rnd_error (d * c) 0.0846 HQ) as [P0 P1]; [lra |].
  set (p := rnd (d * c)) in *.
  apply Qabs_Qle_condition in HQ.
  assert (HS : Qabs (g + p) <= 2.0857) by (apply Qabs_Qle_condition; lra).
  destruct (rnd_error (g + p) 2.0857 HS) as [S0 S1]; [lra |].
  unfold ease_rounded, ease; fold D d c p.
  assert (E : d * c - D * 0.02 == (d - D) * c + D * (c - 0.02)) by ring.
  apply Qabs_Qle_condition; lra.
Qed.

End Rounded.

(** *** Binary64 rounds as asked *)

Lemma two_pos e : 0 < two e.
Proof. apply Qpower_0_lt; reflexivity. Qed.

Lemma two_plus a b : two (a + b) == two a * two b.
Proof. apply Qpower_plus; discriminate. Qed.

Lemma two_le a b : (a <= b)%Z -> two a <= two b.
Proof. intro H; apply Qpower_le_compat_l; [exact H | discriminate]. Qed.

Lemma two_lt a b : (a < b)%Z -> two a < two b.
Proof. intro H; apply Qpower_lt_compat_l; [exact H | reflexivity]. Qed.

Lemma two_lt_inv a b : two a < two b -> (a < b)%Z.
Proof. intro H; apply (Qpower_lt_compat_l_inv 2); [exact H | reflexivity]. Qed.

Lemma two_succ e : two (e + 1) == 2 * two e.
Proof. rewrite two_plus; change (two 1) with 2; ring. Qed.

Lemma two_cancel e : two (- e) * two e == 1.
Proof. rewrite <- two_plus, Z.add_opp_diag_l; reflexivity. Qed.

Lemma two_Z n : (0 <= n)%Z -> inject_Z (2 ^ n) == two n.
Proof. intro H; unfold two; rewrite Zpower_Qpower by exact H; reflexivity. Qed.

Lemma binade_unique x e : two e <= x -> x < two (e + 1) -> forall e',
  two e' <= x -> x < two (e' + 1) -> e = e'.
Proof.
  intros H1 H2 e' H3 H4.
  assert (A : two e < two (e' + 1)) by lra.
  assert (B : two e' < two (e + 1)) by lra.
  apply two_lt_inv in A, B; lia.
Qed.

Lemma binade_rough x :
  0 < x ->
  let k := (Z.log2 (Qnum x) - Z.log2 (Zpos (Qden x)))%Z in
  two (k - 1) <= x /\ x < two (k + 1).
Proof.
  destruct x as [n d]; intro Hx; cbv zeta; cbn [Qnum Qden].
  assert (Hn : (0 < n)%Z) by (unfold Qlt in Hx; simpl in Hx; lia).
  destruct (Z.log2_spec n Hn) as [A1 A2].
  destruct (Z.log2_spec (Zpos d) ltac:(lia)) as [B1 B2].
  pose proof (Z.log2_nonneg n) as An; pose proof (Z.log2_nonneg (Zpos d)) as Bn.
  set (a := Z.log2 n) in *; set (b := Z.log2 (Zpos d)) in *.
  rewrite Zle_Qle, two_Z in A1, B1 by assumption.
  rewrite Z.pow_succ_r in A2, B2 by assumption.
  rewrite Zlt_Qlt, inject_Z_mult, two_Z in A2, B2 by assumption.
  change (inject_Z 2) with 2 in A2, B2.
  assert (E : (n # d) * inject_Z (Zpos d) == inject_Z n).
  { rewrite (Qmake_Qdiv n d); field; discriminate. }
  assert (D : 0 < inject_Z (Zpos d)) by reflexivity.
  pose proof (two_pos b) as Pb.
  assert (K : two (a - b) * two b == two a).
  { rewrite <- two_plus; replace (a - b + b)%Z with a by lia; reflexivity. }
  pose proof (two_pos (a - b)) as Pk.
  assert (K1 : two (a - b - 1) * 2 == two (a - b)).
  { replace (a - b)%Z with (a - b - 1 + 1)%Z at 2 by lia.
    rewrite two_succ; ring. }
  rewrite two_succ.
  set (T := two (a - b)) in *; set (x := n # d) in *.
  set (N := inject_Z n) in *; set (DD := inject_Z (Zpos d)) in *.
  set (A := two a) in *; set (B := two b) in *.
  split; nra.
Qed.

Lemma binade_spec x :
  0 < x -> two (binade x) <= x /\ x < two (binade x + 1).
Proof.
  intro Hx; destruct (binade_rough x Hx) as [R1 R2]; unfold binade.
  set (k := (Z.log2 (Qnum x) - Z.log2 (Zpos (Qden x)))%Z) in *.
  destruct (Qle_bool (two k) x) eqn:E.
  - apply Qle_bool_iff in E; split; assumption.
  - replace (k - 1 + 1)%Z with k by lia; split; [exact R1 |].
    apply Qnot_le_lt; intro H; apply Qle_bool_iff in H; congruence.
Qed.

Lemma binade_is x e : two e <= x -> x < two (e + 1) -> binade x = e.
Proof.
  intros H1 H2.
  assert (Hx : 0 < x) by (pose proof (two_pos e); lra).
  destruct (binade_spec x Hx) as [S1 S2].
  exact (binade_unique x _ S1 S2 e H1 H2).
Qed.

Lemma binade_comp x y : 0 < x -> x == y -> binade x = binade y.
Proof.
  intros Hx E; destruct (binade_spec x Hx) as [S1 S2].
  symmetry; apply binade_is; lra.
Qed.

Lemma binade_mono x y : 0 < x -> x <= y -> (binade x <= binade y)%Z.
Proof.
  intros Hx H.
  destruct (binade_spec x Hx) as [S1 _].
  destruct (binade_spec y ltac:(lra)) as [_ T2].
  assert (A : two (binade x) < two (binade y + 1)) by lra.
  apply two_lt_inv in A; lia.
Qed.

Lemma Qfloor_bounds y :
  inject_Z (Qfloor y) <= y /\ y < inject_Z (Qfloor y) + 1.
Proof.
  split; [apply Qfloor_le |].
  pose proof (Qlt_floor y) as H; rewrite inject_Z_plus in H; exact H.
Qed.

Lemma Qfloor_unique y (m : Z) :
  inject_Z m <= y -> y < inject_Z m + 1 -> Qfloor y = m.
Proof.
  intros H1 H2; destruct (Qfloor_bounds y) as [F1 F2].
  assert (A : inject_Z m < inject_Z (Qfloor y + 1))
    by (rewrite inject_Z_plus; change (inject_Z 1) with 1; lra).
  assert (B : inject_Z (Qfloor y) < inject_Z (m + 1))
    by (rewrite inject_Z_plus; change (inject_Z 1) with 1; lra).
  rewrite <- Zlt_Qlt in A, B; lia.
Qed.

(** [rne y] is the floor of [y] or the integer above, whichever is
    nearer. *)
Lemma rne_cases y :
  (rne y = Qfloor y /\ y - inject_Z (Qfloor y) <= 1 # 2)
  \/ (rne y = (Qfloor y + 1)%Z /\ 1 # 2 <= y - inject_Z (Qfloor y)).
Proof.
  unfold rne.
  destruct (Qcompare_spec (y - inject_Z (Qfloor y)) (1 # 2)) as [E | L | G].
  - destruct (Z.even (Qfloor y)); [left | right]; split;
      try reflexivity; lra.
  - left; split; [reflexivity | lra].
  - right; split; [reflexivity | lra].
Qed.

Lemma rne_close y :
  - (1 # 2) <= inject_Z (rne y) - y /\ inject_Z (rne y) - y <= 1 # 2.
Proof.
  destruct (Qfloor_bounds y) as [F1 F2].
  destruct (rne_cases y) as [[-> H] | [-> H]];
    [| rewrite inject_Z_plus; change (inject_Z 1) with 1]; split; lra.
Qed.

Lemma rne_comp y z : y == z -> rne y = rne z.
Proof.
  intro E; unfold rne.
  rewrite (Qfloor_comp _ _ E).
  assert (C : Qcompare (y - inject_Z (Qfloor z)) (1 # 2)
              = Qcompare (z - inject_Z (Qfloor z)) (1 # 2))
    by (apply Qcompare_comp; [rewrite E |]; reflexivity).
  rewrite C; reflexivity.
Qed.

Lemma rne_Z m : rne (inject_Z m) = m.
Proof.
  unfold rne; rewrite Qfloor_Z.
  destruct (Qcompare_spec (inject_Z m - inject_Z m) (1 # 2)) as [E | L | G];
    [lra | reflexivity | lra].
Qed.

Lemma rne_mono y z : y <= z -> (rne y <= rne z)%Z.
Proof.
  intro H.
  pose proof (Qfloor_resp_le _ _ H) as F.
  destruct (Z.eq_dec (Qfloor y) (Qfloor z)) as [E | N].
  - unfold rne; rewrite E.
    destruct (Qcompare_spec (y - inject_Z (Qfloor z)) (1 # 2));
      destruct (Qcompare_spec (z - inject_Z (Qfloor z)) (1 # 2));
      destruct (Z.even (Qfloor z)); try lia; lra.
  - destruct (rne_cases y) as [[-> _] | [-> _]];
      destruct (rne_cases z) as [[-> _] | [-> _]]; lia.
Qed.

Lemma rne_small y : - (1 # 2) <= y -> y <= 1 # 2 -> rne y = 0%Z.
Proof.
  intros H1 H2; unfold rne.
  destruct (Qlt_le_dec y 0) as [N | P].
  - rewrite (Qfloor_unique y (-1)%Z);
      change (inject_Z (-1)) with (-1); try lra.
    destruct (Qcompare_spec (y - -1) (1 # 2)) as [E | L | G];
      [reflexivity | lra | reflexivity].
  - rewrite (Qfloor_unique y 0%Z); change (inject_Z 0) with 0; try lra.
    destruct (Qcompare_spec (y - 0) (1 # 2)) as [E | L | G];
      [reflexivity | reflexivity | lra].
Qed.

Lemma rne_nonneg y : 0 <= y -> (0 <= rne y)%Z.
Proof. intro H; rewrite <- (rne_Z 0); apply rne_mono; exact H. Qed.

(** A rounded non-negative number is at most twice the number. *)
Lemma rne_twice y : 0 <= y -> inject_Z (rne y) <= 2 * y.
Proof.
  intro H; destruct (Qlt_le_dec y (1 # 2)) as [S | L].
  - rewrite (rne_small y); [change (inject_Z 0) with 0 | |]; lra.
  - destruct (rne_close y); lra.
Qed.

Lemma spacing_bounds x :
  (-1074 <= spacing x)%Z /\ (binade x - 52 <= spacing x)%Z
  /\ (spacing x = -1074 \/ spacing x = binade x - 52 /\ -1022 < binade x)%Z.
Proof. unfold spacing; lia. Qed.

Lemma scaled_back x s : x * two (- s) * two s == x.
Proof. rewrite <- Qmult_assoc, two_cancel; ring. Qed.

Lemma magnitude_zero x : x == 0 -> round_magnitude x == 0.
Proof.
  intro E; unfold round_magnitude.
  rewrite (rne_comp (x * two (- spacing x)) 0)
    by (generalize (two (- spacing x)); intro t; rewrite E; ring).
  rewrite rne_small by lra; change (inject_Z 0) with 0; ring.
Qed.

(** The integer that [round_magnitude] scales back: below 2^53, and at
    least 2^52 in the normal range. *)
Lemma magnitude_mantissa x :
  0 < x ->
  (rne (x * two (- spacing x)) <= 2 ^ 53)%Z
  /\ ((-1022 <= binade x)%Z -> (2 ^ 52 <= rne (x * two (- spacing x)))%Z).
Proof.
  intro Hx; destruct (binade_spec x Hx) as [B1 B2].
  destruct (spacing_bounds x) as (S1 & S2 & S3).
  pose proof (two_pos (- spacing x)) as P.
  split.
  - rewrite <- (rne_Z (2 ^ 53)); apply rne_mono.
    rewrite two_Z by lia.
    assert (A : two (binade x + 1) <= two (spacing x + 53))
      by (apply two_le; lia).
    assert (C : two (spacing x + 53) * two (- spacing x) == two 53).
    { rewrite <- two_plus.
      replace (spacing x + 53 + - spacing x)%Z with 53%Z by lia.
      reflexivity. }
    nra.
  - intro N; rewrite <- (rne_Z (2 ^ 52)); apply rne_mono.
    rewrite two_Z by lia.
    assert (E : spacing x = (binade x - 52)%Z) by (unfold spacing; lia).
    assert (C : two (binade x) * two (- spacing x) == two 52).
    { rewrite <- two_plus, E.
      replace (binade x + - (binade x - 52))%Z with 52%Z by lia.
      reflexivity. }
    nra.
Qed.

Lemma magnitude_nonneg x : 0 <= x -> 0 <= round_magnitude x.
Proof.
  intro H; unfold round_magnitude.
  pose proof (two_pos (spacing x)); pose proof (two_pos (- spacing x)).
  assert (A : (0 <= rne (x * two (- spacing x)))%Z)
    by (apply rne_nonneg; nra).
  rewrite Zle_Qle in A; change (inject_Z 0) with 0 in A; nra.
Qed.

Lemma magnitude_twice x : 0 <= x -> round_magnitude x <= 2 * x.
Proof.
  intro H; unfold round_magnitude.
  pose proof (two_pos (spacing x)) as P; pose proof (two_pos (- spacing x)).
  pose proof (rne_twice (x * two (- spacing x)) ltac:(nra)) as A.
  pose proof (scaled_back x (spacing x)) as E.
  set (y := x * two (- spacing x)) in *.
  nra.
Qed.

(** The result is within half a spacing. *)
Lemma magnitude_half x :
  - (two (spacing x) * (1 # 2)) <= round_magnitude x - x
  /\ round_magnitude x - x <= two (spacing x) * (1 # 2).
Proof.
  unfold round_magnitude.
  pose proof (two_pos (spacing x)) as P.
  destruct (rne_close (x * two (- spacing x))) as [A B].
  pose proof (scaled_back x (spacing x)) as E.
  set (y := x * two (- spacing x)) in *.
  set (M := inject_Z (rne y)) in *.
  split; nra.
Qed.

Lemma magnitude_error x :
  0 <= x ->
  Qabs (round_magnitude x - x) <= two (-53) * x + two (-1075).
Proof.
  intro H; apply Qabs_Qle_condition.
  pose proof (two_pos (-53)) as U; pose proof (two_pos (-1075)) as V.
  destruct (Qlt_le_dec 0 x) as [Hx | Hz].
  - destruct (magnitude_half x) as [A B].
    destruct (binade_spec x Hx) as [B1 _].
    destruct (spacing_bounds x) as (_ & _ & [S | (S & _)]); rewrite S in A, B.
    + assert (E : two (-1074) == 2 * two (-1075)) by (apply (two_succ (-1075))).
      split; nra.
    + assert (E : two (binade x - 52) == two (binade x) * (2 * two (-53))).
      { rewrite <- (two_succ (-53)), <- two_plus.
        replace (binade x + (-53 + 1))%Z with (binade x - 52)%Z by lia.
        reflexivity. }
      set (T := two (binade x)) in *.
      split; nra.
  - pose proof (magnitude_zero x ltac:(lra)); split; nra.
Qed.

Lemma magnitude_comp x y : 0 <= x -> x == y -> round_magnitude x == round_magnitude y.
Proof.
  intros H E; destruct (Qlt_le_dec 0 x) as [Hx | Hz].
  - unfold round_magnitude, spacing.
    rewrite (binade_comp x y Hx E).
    rewrite (rne_comp (x * two (- (Z.max (binade y) (-1022) - 52)))
               (y * two (- (Z.max (binade y) (-1022) - 52))));
      [reflexivity |].
    generalize (two (- (Z.max (binade y) (-1022) - 52))); intro t.
    rewrite E; reflexivity.
  - rewrite (magnitude_zero x), (magnitude_zero y) by lra; reflexivity.
Qed.

(** A number [M * 2^s] with [M] below 2^53, and at least 2^52 unless
    [s = -1074], is a binary64 number: rounding leaves it alone. *)
Lemma representable_fixed (M s : Z) :
  (0 < M < 2 ^ 53)%Z -> (-1074 <= s)%Z -> (s = -1074 \/ 2 ^ 52 <= M)%Z ->
  round_magnitude (inject_Z M * two s) == inject_Z M * two s.
Proof.
  intros HM Hs Hn.
  pose proof (two_pos s) as P.
  assert (M0 : 0 < inject_Z M)
    by (change 0 with (inject_Z 0); rewrite <- Zlt_Qlt; lia).
  assert (M1 : inject_Z M < two 53)
    by (rewrite <- two_Z by lia; rewrite <- Zlt_Qlt; lia).
  set (v := inject_Z M * two s).
  assert (Ev : v == inject_Z M * two s) by reflexivity.
  clearbody v.
  assert (Hv : 0 < v) by nra.
  destruct (binade_spec v Hv) as [B1 B2].
  assert (U : (binade v < s + 53)%Z).
  { apply two_lt_inv.
    assert (E : two (s + 53) == two 53 * two s)
      by (rewrite <- two_plus; replace (s + 53)%Z with (53 + s)%Z by lia;
          reflexivity).
    nra. }
  assert (S : spacing v = s).
  { unfold spacing; destruct Hn as [-> | Hn]; [lia |].
    assert (L : (s + 52 < binade v + 1)%Z).
    { apply two_lt_inv.
      assert (E : two (s + 52) == two 52 * two s)
        by (rewrite <- two_plus; replace (s + 52)%Z with (52 + s)%Z by lia;
            reflexivity).
      assert (M2 : two 52 <= inject_Z M)
        by (rewrite <- two_Z by lia; rewrite <- Zle_Qle; lia).
      nra. }
    lia. }
  unfold round_magnitude; rewrite S.
  rewrite (rne_comp (v * two (- s)) (inject_Z M)).
  - rewrite rne_Z; symmetry; exact Ev.
  - rewrite Ev, <- Qmult_assoc, (Qmult_comm (two s)), two_cancel; ring.
Qed.

Lemma magnitude_idem x :
  0 <= x -> round_magnitude (round_magnitude x) == round_magnitude x.
Proof.
  intro H; destruct (Qlt_le_dec 0 x) as [Hx | Hz].
  - destruct (magnitude_mantissa x Hx) as [M1 M2].
    destruct (spacing_bounds x) as (S1 & _ & S3).
    pose proof (rne_nonneg (x * two (- spacing x))) as M0.
    pose proof (two_pos (- spacing x)) as P.
    specialize (M0 ltac:(nra)).
    unfold round_magnitude at 2 3.
    set (M := rne (x * two (- spacing x))) in *.
    set (s := spacing x) in *.
    destruct (Z.eq_dec M 0) as [E0 | N0];
      [| destruct (Z.eq_dec M (2 ^ 53)) as [E1 | N1]].
    + rewrite E0, magnitude_zero by (change (inject_Z 0) with 0; ring).
      change (inject_Z 0) with 0; ring.
    + assert (E : inject_Z M * two s == inject_Z (2 ^ 52) * two (s + 1)).
      { rewrite E1, two_succ.
        change (inject_Z (2 ^ 53)) with (2 * inject_Z (2 ^ 52)); ring. }
      assert (V0 : 0 <= inject_Z M * two s).
      { pose proof (two_pos s).
        assert (0 <= inject_Z M)
          by (change 0 with (inject_Z 0); rewrite <- Zle_Qle; lia).
        nra. }
      rewrite (magnitude_comp _ _ V0 E).
      rewrite E; apply representable_fixed; lia.
    + apply representable_fixed; [lia | lia |].
      destruct S3 as [S3 | (_ & S3)]; [left; exact S3 | right; apply M2; lia].
  - rewrite (magnitude_zero (round_magnitude x));
      rewrite (magnitude_zero x) by lra; reflexivity.
Qed.

Lemma magnitude_mono x y :
  0 <= x -> x <= y -> round_magnitude x <= round_magnitude y.
Proof.
  intros H L; destruct (Qlt_le_dec 0 x) as [Hx | Hz].
  - assert (Hy : 0 < y) by lra.
    pose proof (binade_mono x y Hx L) as B.
    destruct (magnitude_mantissa x Hx) as [X1 _].
    destruct (magnitude_mantissa y Hy) as [_ Y2].
    destruct (Z.eq_dec (spacing x) (spacing y)) as [E | N].
    + unfold round_magnitude; rewrite E.
      pose proof (two_pos (spacing y)) as P.
      pose proof (two_pos (- spacing y)) as P'.
      assert (A : (rne (x * two (- spacing y)) <= rne (y * two (- spacing y)))%Z)
        by (apply rne_mono; nra).
      rewrite Zle_Qle in A; nra.
    + assert (S : (spacing x + 1 <= spacing y)%Z) by (unfold spacing in *; lia).
      assert (Ny : (-1022 <= binade y)%Z) by (unfold spacing in *; lia).
      specialize (Y2 Ny).
      unfold round_magnitude.
      rewrite Zle_Qle, two_Z in X1, Y2 by lia.
      pose proof (two_pos (spacing x)) as Px.
      pose proof (two_pos (spacing y)) as Py.
      assert (T : two 53 * two (spacing x) <= two 52 * two (spacing y)).
      { rewrite <- !two_plus; apply two_le; lia. }
      set (Mx := inject_Z (rne (x * two (- spacing x)))) in *.
      set (My := inject_Z (rne (y * two (- spacing y)))) in *.
      nra.
  - rewrite (magnitude_zero x) by lra; apply magnitude_nonneg; lra.
Qed.

Lemma round64_mono x y : x <= y -> round64 x <= round64 y.
Proof.
  intro H; unfold round64.
  destruct (Qlt_le_dec x 0) as [X | X]; destruct (Qlt_le_dec y 0) as [Y | Y].
  - pose proof (magnitude_mono (- y) (- x) ltac:(lra) ltac:(lra)); lra.
  - pose proof (magnitude_nonneg (- x) ltac:(lra)).
    pose proof (magnitude_nonneg y Y); lra.
  - lra.
  - apply magnitude_mono; assumption.
Qed.

Lemma round64_idem x : round64 (round64 x) == round64 x.
Proof.
  unfold round64 at 2 3; destruct (Qlt_le_dec x 0) as [X | X].
  - pose proof (magnitude_nonneg (- x) ltac:(lra)) as V.
    pose proof (magnitude_idem (- x) ltac:(lra)) as I.
    set (v := round_magnitude (- x)) in *.
    unfold round64; destruct (Qlt_le_dec (- v) 0) as [N | N].
    + rewrite (magnitude_comp (- - v) v) by (try ring; lra).
      rewrite I; reflexivity.
    + rewrite (magnitude_zero (- v)) by lra; lra.
  - pose proof (magnitude_nonneg x X) as V.
    unfold round64; destruct (Qlt_le_dec (round_magnitude x) 0) as [N | N];
      [lra | apply magnitude_idem, X].
Qed.

Lemma round64_error x :
  Qabs (round64 x - x) <= two (-53) * Qabs x + two (-1075).
Proof.
  unfold round64; destruct (Qlt_le_dec x 0) as [X | X].
  - pose proof (magnitude_error (- x) ltac:(lra)) as E.
    rewrite (Qabs_neg x) by lra.
    assert (A : Qabs (- round_magnitude (- x) - x)
                == Qabs (round_magnitude (- x) - - x))
      by (rewrite <- Qabs_opp; apply Qabs_wd; ring).
    rewrite A; exact E.
  - rewrite (Qabs_pos x) by exact X; apply magnitude_error, X.
Qed.

Lemma round64_rounding : rounding (two (-53)) (two (-1075)) round64.
Proof.
  unfold rounding.
  split; [split; [apply Qlt_le_weak, two_pos
                 | apply Qle_bool_iff; vm_compute; reflexivity] |].
  split; [split; [apply Qlt_le_weak, two_pos
                 | apply Qle_bool_iff; vm_compute; reflexivity] |].
  split; [exact round64_mono |]; split; [exact round64_idem |].
  split; [| split].
  - intros x H; unfold round64; destruct (Qlt_le_dec x 0) as [X | X];
      [lra | apply magnitude_twice, X].
  - intros x H; unfold round64; destruct (Qlt_le_dec x 0) as [X | X].
    + pose proof (magnitude_twice (- x) ltac:(lra)); lra.
    + pose proof (magnitude_zero x ltac:(lra)); lra.
  - intros x _; apply round64_error.
Qed.

Lemma exact_rounding : rounding 0 0 (fun x => x).
Proof.
  unfold rounding.
  split; [split; lra |]; split; [split; lra |].
  split; [intros; assumption |]; split; [intro; reflexivity |].
  split; [intros; lra |]; split; [intros; lra |].
  intros x _; apply Qabs_Qle_condition; split; lra.
Qed.

(** What the rounding of the three operations and of the literal can add
    up to in binary64, for a gust and a target in [-2, 2]. *)
Lemma rounding_budget : 3 * two (-53) + 7 * two (-1075) <= two (-51).
Proof. apply Qle_bool_iff; vm_compute; reflexivity. Qed.

(** C8: on every frame of a running effect the gust takes one easing step
    towards the target in force on that frame, and a frame that does not
    re-roll keeps the target.  In exact arithmetic the step is exactly
    0.02 of the gap: |gust' - gust| = 0.02 * |target - gust|, the gap
    shrinks by the factor 0.98, and the gust moves strictly towards the
    target, frame after frame, without reaching it.  In binary64, with
    the literal and each of the three operations rounded to nearest, a
    gust and a target that are binary64 numbers give a gust that still
    moves monotonically towards the target and never past it, though not
    always strictly; and for a gust and a target in [-2, 2] the rounded
    step is within 2^-51 of the exact one, so that |gust' - gust| is
    within 2^-51 of 0.02 * |target - gust|, on either side. *)
Theorem gust_eases_up_to_rounding (b : Build) (w : World) (c : Canvas)
    (currentTime : Q) :
  isPaused (self w) = false ->
  canvas (self w) = Some c ->
  exists w',
    _animate b currentTime w = Ok tt w'
    /\ windGust (self w') = ease (windGust (self w)) (windGustTarget (self w'))
    /\ (rerolled w currentTime = false ->
        windGustTarget (self w') = windGustTarget (self w))
    /\ forall g t,
         (ease_rounded (fun x => x) g t = ease g t
          /\ Qabs (ease g t - g) == 0.02 * Qabs (t - g)
          /\ t - ease g t == 0.98 * (t - g)
          /\ (g < t ->
              forall n,
                eased n g t < eased (S n) g t /\ eased (S n) g t < t)
          /\ (t < g ->
              forall n,
                t < eased (S n) g t /\ eased (S n) g t < eased n g t))
         /\ (round64 g == g -> round64 t == t ->
             (g <= t ->
              forall n,
                eased_rounded round64 n g t
                <= eased_rounded round64 (S n) g t
                /\ eased_rounded round64 (S n) g t <= t)
             /\ (t <= g ->
                 forall n,
                   t <= eased_rounded round64 (S n) g t
                   /\ eased_rounded round64 (S n) g t
                      <= eased_rounded round64 n g t))
         /\ (Qabs g <= 2 -> Qabs t <= 2 ->
             Qabs (ease_rounded round64 g t - ease g t) <= two (-51)
             /\ 0.02 * Qabs (t - g) - two (-51)
                <= Qabs (ease_rounded round64 g t - g)
             /\ Qabs (ease_rounded round64 g t - g)
                <= 0.02 * Qabs (t - g) + two (-51)).
Proof.
  intros Hp Hc.
  destruct (animate_runs b currentTime w c Hp Hc)
    as (w1 & w' & E1 & E & _ & Hg & Ht & _).
  destruct (update_wind_spec currentTime
              (mkWorld (host w)
                 (set_twinkleTime currentTime
                    (set_lastTime currentTime (self w)))))
    as (w1' & E1' & _ & _ & Hg1 & Ht1).
  rewrite E1 in E1'; inversion E1'; subst w1'; clear E1'.
  simpl in Hg1, Ht1.
  exists w'; split; [exact E |]; split; [rewrite Hg, Ht; exact Hg1 |].
  split.
  { intro Hr; rewrite Ht, Ht1.
    unfold rerolled in *; simpl; rewrite Hr; reflexivity. }
  pose proof round64_rounding as HR.
  intros g t; split; [| split].
  - split; [reflexivity |]; split; [apply ease_step |].
    split; [apply ease_gap |]; split; intros H n;
      [apply eased_strictly_up | apply eased_strictly_down]; exact H.
  - intros Rg Rt; split; intros H n;
      [apply (eased_rounded_up _ _ _ HR) | apply (eased_rounded_down _ _ _ HR)];
      assumption.
  - intros Bg Bt.
    pose proof (ease_rounded_close _ _ _ HR g t Bg Bt) as Hc'.
    pose proof rounding_budget as Hb.
    pose proof (ease_step g t) as Hs.
    assert (D1 : Qabs (ease_rounded round64 g t - g - (ease g t - g))
                 == Qabs (ease_rounded round64 g t - ease g t))
      by (apply Qabs_wd; ring).
    assert (D2 : Qabs (ease g t - g - (ease_rounded round64 g t - g))
                 == Qabs (ease_rounded round64 g t - ease g t))
      by (rewrite <- (Qabs_opp (ease_rounded round64 g t - ease g t));
          apply Qabs_wd; ring).
    pose proof (Qabs_triangle_reverse (ease_rounded round64 g t - g)
                  (ease g t - g)) as T1.
    pose proof (Qabs_triangle_reverse (ease g t - g)
                  (ease_rounded round64 g t - g)) as T2.
    split; [| split]; lra.
Qed.

Lemma gust_eases_up_to_rounding_witness :
  exists w',
    _animate CoreBuild 20000 gusty = Ok tt w'
    /\ windGust (self w') = ease (-1.5) (windGustTarget (self w'))
    /\ -1.5 <= ease_rounded round64 (-1.5) (round64 1.6)
    /\ ease_rounded round64 (-1.5) (round64 1.6) <= round64 1.6.
Proof.
  destruct (gust_eases_up_to_rounding CoreBuild gusty
              (mkCanvas 1024 768 true) 20000 eq_refl eq_refl)
    as (w' & E & G & _ & H).
  exists w'; split; [exact E |]; split; [exact G |].
  destruct (H (-1.5) (round64 1.6)) as (_ & Hr & _).
  destruct (Hr ltac:(vm_compute; reflexivity) ltac:(vm_compute; reflexivity))
    as (Hup & _).
  destruct (Hup ltac:(vm_compute; discriminate) 0%nat) as (A & B).
  split; [exact A | exact B].
Defined.

(** The two descriptions of binary64 agree where the examples need them:
    the literals 0.02 and 1.6, and the difference, the product and the
    sum of the step from -1.5 towards 1.6. *)
Lemma round64_agrees :
  round64 0.02 == Binary64.value (Binary64.literal 2 100)
  /\ round64 1.6 == Binary64.value target64
  /\ round64 (-1.5) == Binary64.value gust64
  /\ round64 (Binary64.value target64 - Binary64.value gust64)
     == Binary64.value (Binary64.sub target64 gust64)
  /\ round64 (Binary64.value (Binary64.sub target64 gust64)
              * Binary64.value (Binary64.literal 2 100))
     == Binary64.value
          (Binary64.mul (Binary64.sub target64 gust64)
             (Binary64.literal 2 100))
  /\ ease_rounded round64 (Binary64.value gust64) (Binary64.value target64)
     == Binary64.value (Binary64.ease gust64 target64).
Proof. repeat split; vm_compute; reflexivity. Qed.

(** The claim as it stands fails in binary64, the arithmetic the code
    runs in: from a gust of -1.5 towards a target of 1.6 the step ends at
    -6476176264158773 * 2^-52 (printed as -1.438), and that is further
    from -1.5 than 0.02 of the gap, whether the two sides are compared as
    the numbers they are or are themselves computed in binary64
    (0.062000000000000055 against 0.062000000000000006). *)
Lemma gust_step_exceeds_bound :
  Binary64.ease gust64 target64 = S754_finite true 6476176264158773 (-52)
  /\ 0.02 * Qabs (Binary64.value target64 - Binary64.value gust64)
     < Qabs (Binary64.value (Binary64.ease gust64 target64)
             - Binary64.value gust64)
  /\ Binary64.value
       (Binary64.mul (Binary64.literal 2 100)
          (Binary64.sub target64 gust64))
     < Binary64.value
         (Binary64.sub (Binary64.ease gust64 target64) gust64)
  /\ 0.02 * Qabs (round64 1.6 - -1.5)
     < Qabs (ease_rounded round64 (-1.5) (round64 1.6) - -1.5).
Proof. repeat split; vm_compute; reflexivity. Qed.

(** It is longer by less than the rounding allows, and does not pass the
    target. *)
Lemma gust_step_within_rounding :
  Qabs (Binary64.value (Binary64.ease gust64 target64)
        - ease (Binary64.value gust64) (Binary64.value target64))
  <= two (-51)
  /\ Binary64.value gust64 < Binary64.value (Binary64.ease gust64 target64)
  /\ Binary64.value (Binary64.ease gust64 target64) < Binary64.value target64.
Proof.
  split; [vm_compute; discriminate | split; vm_compute; reflexivity].
Qed.

(** Next to its target the gust can stop short of it: from 1 towards the
    binary64 number above 1 the step rounds back to 1. *)
Lemma gust_stalls_next_to_target :
  round64 (1 + two (-52)) == 1 + two (-52)
  /\ ease_rounded round64 1 (1 + two (-52)) == 1.
Proof. split; vm_compute; reflexivity. Qed.

(** ** Everything but the frame leaves the wind alone *)

Lemma windless_assign (f : Effect -> Effect) :
  (forall e, windGust (f e) = windGust e
             /\ windGustTarget (f e) = windGustTarget e) ->
  within windless (assign f).
Proof.
  intros Hf w; destruct (Hf (self w)) as (? & ?); repeat split; assumption.
Qed.

Lemma windless_tell (f : Host -> Host) :
  (forall s, randoms (f s) = randoms s) -> within windless (tell f).
Proof. intros Hf w; repeat split; apply Hf. Qed.

Lemma windless_pure {A} (m : M A) : pure_draw m -> within windless m.
Proof. intros [Qm _] w; apply calm_windless, quiet_calm, Qm. Qed.

#[local] Hint Resolve pure_createParticle pure_createStaticTree
  pure_createStaticWreath pure_updateParticle pure_updateSpecialParticle : pure.

Ltac head_of t :=
  lazymatch t with
  | ?f _ => head_of f
  | _ => t
  end.

(** Walks through a method: binds, assignments, branches and loops; a
    method applied at the head is unfolded. *)
Ltac windless_steps :=
  repeat first
    [ apply (within_ret windless windless_refl)
    | apply (within_this windless windless_refl)
    | apply (within_page windless windless_refl)
    | apply (within_TypeError windless windless_refl)
    | solve [apply windless_pure; auto 1 with pure nocore]
    | match goal with
      | |- within windless (bind _ _) =>
          apply (within_bind windless windless_trans); [| intros ?]
      | |- within windless (assign _) =>
          apply windless_assign; intros ?; split; reflexivity
      | |- within windless (tell _) =>
          apply windless_tell; intros ?; reflexivity
      | |- within windless (repeatM _ _) =>
          apply (within_repeatM windless windless_refl windless_trans)
      | |- within windless (if ?c then _ else _) => destruct c
      | |- within windless (match ?x with _ => _ end) => destruct x
      | |- within windless (let _ := _ in _) => cbv zeta
      | |- within windless ?m => let h := head_of m in unfold h
      end ].

Lemma windless_createParticles b : within windless (_createParticles b).
Proof. windless_steps. Qed.

Lemma windless_init b : within windless (init b).
Proof. windless_steps. Qed.

Lemma windless_start : within windless start.
Proof. windless_steps. Qed.

Lemma windless_pause : within windless pause.
Proof. windless_steps. Qed.

Lemma windless_stop : within windless stop.
Proof. windless_steps. Qed.

Lemma windless_setIntensity b level : within windless (setIntensity b level).
Proof. windless_steps. Qed.

Lemma windless_shouldDisplay : within windless shouldDisplay.
Proof. windless_steps. Qed.

Lemma windless_handleResize : within windless _handleResize.
Proof. windless_steps. Qed.

Lemma windless_resize_callback b : within windless (resize_callback b).
Proof. windless_steps. Qed.

Lemma windless_visibilitychange hid : within windless (visibilitychange hid).
Proof. windless_steps. Qed.

(** ** The gust stays within [-2, 2] *)

(** The invariant: draws in [0, 1), gust and target in [-2, 2]. *)
Definition gust_bounded (w : World) : Prop :=
  unit_interval (host w)
  /\ (-2 <= windGust (self w) /\ windGust (self w) <= 2)
  /\ (-2 <= windGustTarget (self w) /\ windGustTarget (self w) <= 2).

Lemma windless_bounded w w' : windless w w' -> gust_bounded w -> gust_bounded w'.
Proof.
  intros (Hg & Ht & Hr) (Hu & HG & HT); unfold gust_bounded, unit_interval.
  rewrite Hg, Ht, Hr; auto.
Qed.

Lemma within_bounded {A} (m : M A) w :
  within windless m -> gust_bounded w -> gust_bounded (after (m w)).
Proof. intros Hm; apply windless_bounded, Hm. Qed.

Lemma update_wind_bounded currentTime w w' :
  update_wind currentTime w = Ok tt w' -> gust_bounded w -> gust_bounded w'.
Proof.
  intros E (Hu & HG & HT).
  destruct (update_wind_spec currentTime w) as (w1 & E1 & _ & Hr & Hg & Ht).
  rewrite E in E1; inversion E1; subst w1; clear E1.
  assert (HT' : -2 <= windGustTarget (self w')
                /\ windGustTarget (self w') <= 2).
  { rewrite Ht; destruct (rerolled w currentTime); [| exact HT].
    destruct (Hu (S (drawn (host w)))); split; lra. }
  unfold gust_bounded, unit_interval; rewrite Hr, Hg; unfold ease.
  split; [exact Hu |]; split; [| exact HT'].
  destruct HG, HT'; split; lra.
Qed.

Lemma animate_bounded b currentTime w :
  gust_bounded w -> gust_bounded (after (_animate b currentTime w)).
Proof.
  intro Hb.
  destruct (isPaused (self w)) eqn:Hp.
  - unfold _animate; rewrite (bind_Ok this _ w (self w) w eq_refl), Hp.
    exact Hb.
  - destruct (canvas (self w)) as [c |] eqn:Hc.
    + destruct (animate_runs b currentTime w c Hp Hc)
        as (w1 & w' & E1 & E & Hcalm).
      rewrite E; simpl.
      apply (windless_bounded w1 w' (calm_windless _ _ Hcalm)).
      apply (update_wind_bounded _ _ _ E1); exact Hb.
    + unfold _animate; rewrite (bind_Ok this _ w (self w) w eq_refl), Hp, Hc.
      exact Hb.
Qed.

Lemma dispatch_bounded b ev w :
  gust_bounded w -> gust_bounded (after (dispatch b ev w)).
Proof.
  destruct ev; unfold dispatch;
    try (apply within_bounded; solve [windless_steps]).
  intro Hb; rewrite (bind_Ok page _ w (host w) w eq_refl).
  destruct (pending id (frames (host w))); [| exact Hb].
  rewrite (bind_Ok (tell _) _ w tt _ eq_refl).
  apply animate_bounded; exact Hb.
Qed.

Lemma run_bounded b evs w : gust_bounded w -> gust_bounded (run b evs w).
Proof.
  revert w; induction evs as [| ev evs IH]; intros w Hb; simpl; [exact Hb |].
  apply IH, dispatch_bounded, Hb.
Qed.

(** C10: on a page whose random draws are in [0, 1), whatever the build,
    the options and the sequence of calls and page events since the effect
    was constructed, the gust is within [-2, 2] (and so is its target). *)
Theorem gust_within_bounds (b : Build) (s : Host) (options : Options)
    (evs : list Event) :
  unit_interval s ->
  -2 <= windGust (self (run b evs (boot s options)))
  /\ windGust (self (run b evs (boot s options))) <= 2
  /\ -2 <= windGustTarget (self (run b evs (boot s options)))
  /\ windGustTarget (self (run b evs (boot s options))) <= 2.
Proof.
  intro Hu.
  assert (H0 : gust_bounded (boot s options)).
  { unfold gust_bounded; simpl; split; [exact Hu | split; split; lra]. }
  destruct (run_bounded b evs _ H0) as (_ & (? & ?) & (? & ?)).
  repeat split; assumption.
Qed.

Lemma gust_within_bounds_witness :
  -2 <= windGust (self (run CoreBuild
                          [Call_init; Call_start; Frame 1 20000; Frame 2 20016]
                          (boot desk (mkOptions None (Some true) None))))
  /\ windGust (self (run CoreBuild
                       [Call_init; Call_start; Frame 1 20000; Frame 2 20016]
                       (boot desk (mkOptions None (Some true) None)))) <= 2.
Proof.
  destruct (gust_within_bounds CoreBuild desk (mkOptions None (Some true) None)
              [Call_init; Call_start; Frame 1 20000; Frame 2 20016]
              desk_draws)
    as (H1 & H2 & _).
  split; assumption.
Defined.

(** ** Snow on the decorations (accrual build) *)

(** A static decoration as one of the two constructors of the accrual
    build makes it, on a page whose draws are in [0, 1). *)
Definition decoration (particle : Special.t) : Prop :=
  exists w w',
    unit_interval (host w)
    /\ (_createStaticTree AccrualBuild w = Ok particle w'
        \/ _createStaticWreath AccrualBuild w = Ok particle w').

(** A trace of states whose snow level starts at or above [level], never
    decreases from one state to the next and stays at or below 0.3 times
    the size of the decoration. *)
Fixpoint rising (level : Q) (trace : list Special.t) : Prop :=
  match trace with
  | [] => True
  | p :: rest =>
      exists s, Special.snowLevel p = Some s
                /\ level <= s
                /\ s <= Special.size p * 0.3
                /\ rising s rest
  end.

Lemma quiet_draws w w' : quiet w w' -> unit_interval (host w) -> unit_interval (host w').
Proof.
  intros [_ H] Hu; unfold unit_interval; rewrite H; exact Hu.
Qed.

(** [fair m P]: on a page whose draws are in [0, 1), whatever [m] returns
    satisfies [P], and the draws are still in [0, 1) afterwards. *)
Definition fair {A} (m : M A) (P : A -> Prop) : Prop :=
  forall w a w',
    unit_interval (host w) -> m w = Ok a w' -> P a /\ unit_interval (host w').

Lemma fair_ret {A} (a : A) (P : A -> Prop) : P a -> fair (ret a) P.
Proof. intros H w a' w' Hu E; inversion E; subst; auto. Qed.

Lemma fair_bind {A B} (m : M A) (k : A -> M B) (Q : A -> Prop) (P : B -> Prop) :
  fair m Q -> (forall a, Q a -> fair (k a) P) -> fair (bind m k) P.
Proof.
  intros Hm Hk w b w' Hu E.
  unfold bind in E; destruct (m w) as [a w1 | w1] eqn:Em; [| discriminate].
  destruct (Hm w a w1 Hu Em) as [Ha Hu1].
  exact (Hk a Ha w1 b w' Hu1 E).
Qed.

Lemma fair_quiet {A} (m : M A) : within quiet m -> fair m (fun _ => True).
Proof.
  intros Hm w a w' Hu E; split; [exact I |].
  specialize (Hm w); rewrite E in Hm; exact (quiet_draws _ _ Hm Hu).
Qed.

Lemma fair_Math_random : fair Math_random (fun r => 0 <= r /\ r < 1).
Proof.
  intros w a w' Hu E; inversion E; subst; split; [apply Hu | exact Hu].
Qed.

Lemma createStaticTree_size b :
  fair (_createStaticTree b) (fun p => 20 <= Special.size p).
Proof.
  unfold _createStaticTree.
  eapply fair_bind; [apply fair_Math_random | intros rx _].
  eapply fair_bind; [apply fair_quiet, pure_the_canvas | intros c _].
  eapply fair_bind; [apply fair_Math_random | intros ry _].
  eapply fair_bind; [apply fair_Math_random | intros rs [Hs _]].
  eapply fair_bind; [apply fair_Math_random | intros ro _].
  apply fair_ret; simpl; lra.
Qed.

Lemma createStaticWreath_size b :
  fair (_createStaticWreath b) (fun p => 15 <= Special.size p).
Proof.
  unfold _createStaticWreath; destruct b.
  - eapply fair_bind; [apply fair_Math_random | intros rx _].
    eapply fair_bind; [apply fair_quiet, pure_the_canvas | intros c _].
    eapply fair_bind; [apply fair_Math_random | intros ry _].
    eapply fair_bind; [apply fair_Math_random | intros rs [Hs _]].
    eapply fair_bind; [apply fair_Math_random | intros ro _].
    eapply fair_bind; [apply fair_Math_random | intros rr _].
    apply fair_ret; simpl; lra.
  - eapply fair_bind; [apply fair_quiet, pure_wreathShape | intros sh _].
    eapply fair_bind; [apply fair_Math_random | intros rx _].
    eapply fair_bind; [apply fair_quiet, pure_the_canvas | intros c _].
    eapply fair_bind; [apply fair_Math_random | intros ry _].
    eapply fair_bind; [apply fair_Math_random | intros rs [Hs _]].
    eapply fair_bind; [apply fair_Math_random | intros ro _].
    apply fair_ret; simpl; lra.
Qed.

Lemma decoration_fresh p :
  decoration p ->
  Special.static p = true
  /\ Special.snowLevel p = Some 0
  /\ 0 <= Special.size p * 0.3.
Proof.
  intros (w & w' & Hu & [E | E]).
  - destruct (createStaticTree_fresh AccrualBuild w p w' E) as (_ & ? & _ & ?).
    destruct (createStaticTree_size _ _ _ _ Hu E) as [Hs _].
    repeat split; try assumption; lra.
  - destruct (createStaticWreath_fresh AccrualBuild w p w' E) as (_ & ? & _ & ?).
    destruct (createStaticWreath_size _ _ _ _ Hu E) as [Hs _].
    repeat split; try assumption; lra.
Qed.

(** The core build has no snow level and leaves a static decoration as it
    is. *)
Lemma core_leaves_decorations p deltaTime w :
  Special.static p = true ->
  _updateSpecialParticle CoreBuild p deltaTime w = Ok p w.
Proof. intro Hst; unfold _updateSpecialParticle; rewrite Hst; reflexivity. Qed.

(** One frame of a static decoration: it stays static and keeps its size;
    its level does not go down and stays under the cap. *)
Lemma accrual_step p deltaTime w s :
  Special.static p = true ->
  Special.snowLevel p = Some s ->
  s <= Special.size p * 0.3 ->
  unit_interval (host w) ->
  exists p' w' s',
    _updateSpecialParticle AccrualBuild p deltaTime w = Ok p' w'
    /\ Special.static p' = true
    /\ Special.size p' = Special.size p
    /\ Special.snowLevel p' = Some s'
    /\ s <= s'
    /\ s' <= Special.size p * 0.3
    /\ unit_interval (host w').
Proof.
  intros Hst Hs Hcap Hu.
  unfold _updateSpecialParticle; rewrite Hst.
  unfold Math_random, page, tell, ret, bind; simpl.
  destruct (lt (randoms (host w) (drawn (host w))) 0.0005); simpl.
  - eexists; eexists; eexists; split; [reflexivity |]; simpl.
    unfold accrue; rewrite Hs.
    destruct (Hu (S (drawn (host w)))) as [R0 _].
    repeat split; try assumption; try reflexivity.
    + apply Q.min_glb; [lra | exact Hcap].
    + apply Q.le_min_r.
    + apply Hu.
    + apply Hu.
  - exists p; eexists; exists s; split; [reflexivity |]; simpl.
    repeat split; try assumption; try apply Hu; apply Qle_refl.
Qed.

Lemma age_rises deltas :
  forall p w s,
    Special.static p = true ->
    Special.snowLevel p = Some s ->
    s <= Special.size p * 0.3 ->
    unit_interval (host w) ->
    exists trace w',
      age AccrualBuild deltas p w = Ok trace w'
      /\ List.length trace = List.length deltas
      /\ rising s trace.
Proof.
  induction deltas as [| deltaTime rest IH]; intros p w s Hst Hs Hcap Hu.
  - exists [], w; repeat split.
  - destruct (accrual_step p deltaTime w s Hst Hs Hcap Hu)
      as (p' & w1 & s' & E & Hst' & Hsz & Hs' & Hle & Hcap' & Hu').
    rewrite <- Hsz in Hcap'.
    destruct (IH p' w1 s' Hst' Hs' Hcap' Hu') as (trace & w' & E' & Hl & Hr).
    exists (p' :: trace), w'; split; [| split].
    + simpl; rewrite (bind_Ok _ _ _ _ _ E), (bind_Ok _ _ _ _ _ E').
      reflexivity.
    + simpl; rewrite Hl; reflexivity.
    + simpl; exists s'; repeat split; assumption.
Qed.

(** C9: a tree or wreath of the accrual build is created with snow level
    0, and over any finite sequence of frames its update returns, and the
    level it holds after each frame is at least the level before and at
    most 0.3 times its size. *)
Theorem snow_level_rises_to_cap (particle : Special.t) (deltas : list Q)
    (w : World) :
  decoration particle ->
  unit_interval (host w) ->
  Special.snowLevel particle = Some 0
  /\ exists trace w',
       age AccrualBuild deltas particle w = Ok trace w'
       /\ List.length trace = List.length deltas
       /\ rising 0 trace.
Proof.
  intros Hd Hu; destruct (decoration_fresh particle Hd) as (Hst & Hs & Hcap).
  split; [exact Hs |].
  apply (age_rises deltas particle w 0 Hst Hs Hcap Hu).
Qed.

(** A page whose even draws are 0 and whose odd draws are 0.5, so that
    snow does accrue, and the accrual build initialized on it. *)
Definition frosty : Host :=
  mkHost 1024 768 false 0
    (fun n => if Nat.even n then 0 else 0.5) 0
    (fun _ => 0) 1 [] [] false.

Definition snowy : World :=
  run AccrualBuild [Call_init] (boot frosty (mkOptions None (Some true) None)).

(** The tree that [_createStaticTree] makes on [snowy]. *)
Definition young_tree : Special.t :=
  Eval vm_compute in
    match _createStaticTree AccrualBuild snowy with
    | Ok p _ => p
    | Throw _ => Special.mk tree 0 0 0 0 0 0 0 0 0 0 0 true true [] None
    end.

Lemma frosty_draws : unit_interval frosty.
Proof.
  intro n; unfold frosty; simpl.
  destruct (Nat.even n); split; (discriminate || reflexivity).
Qed.

Lemma snowy_draws : unit_interval (host snowy).
Proof.
  assert (E : randoms (host snowy) = randoms frosty)
    by (vm_compute; reflexivity).
  unfold unit_interval; rewrite E; apply frosty_draws.
Qed.

Lemma young_tree_decoration : decoration young_tree.
Proof.
  exists snowy, (after (_createStaticTree AccrualBuild snowy)).
  split; [exact snowy_draws | left; vm_compute; reflexivity].
Qed.

Lemma snow_level_rises_to_cap_witness :
  exists trace w',
    age AccrualBuild [16; 17; 16] young_tree snowy = Ok trace w'
    /\ rising 0 trace.
Proof.
  destruct (snow_level_rises_to_cap young_tree [16; 17; 16] snowy
              young_tree_decoration snowy_draws)
    as (_ & trace & w' & E & _ & R).
  exists trace, w'; split; [exact E | exact R].
Defined.

(** On [snowy] the level of [young_tree] goes up by 0.1 per frame. *)
Example young_tree_gathers_snow :
  match age AccrualBuild [16; 17; 16] young_tree snowy with
  | Ok trace _ => map Special.snowLevel trace
  | Throw _ => []
  end = [Some 0.10; Some 0.2000; Some 0.300000].
Proof. vm_compute; reflexivity. Qed.

(** After 80 frames the level of [young_tree] has stopped at its cap,
    0.3 * 20 = 6. *)
Example young_tree_snow_is_capped :
  match age AccrualBuild (repeat 16 80) young_tree snowy with
  | Ok trace _ =>
      match Special.snowLevel (last trace young_tree) with
      | Some s => Qeq_bool s 6
      | None => false
      end
  | Throw _ => false
  end = true.
Proof. vm_compute; reflexivity. Qed.

(** * The engine as a whole: lifecycle, schedule and population *)

(** ** What a rebuild of the population leaves alone *)

(** The effect with its two collections emptied, and the page with its
    draw count reset. *)
Definition bare (e : Effect) : Effect :=
  set_particles [] (set_specialParticles [] e).

(** A computation is a rebuild when it changes nothing but the two
    particle collections and the count of random draws. *)
Definition rebuilt (w w' : World) : Prop :=
  bare (self w') = bare (self w)
  /\ host w' = set_drawn (drawn (host w')) (host w).

Lemma rebuilt_refl w : rebuilt w w.
Proof. split; [reflexivity | destruct w as [[] e]; reflexivity]. Qed.

Lemma rebuilt_trans a b c : rebuilt a b -> rebuilt b c -> rebuilt a c.
Proof.
  intros [E1 H1] [E2 H2]; split; [congruence |].
  rewrite H2, H1; reflexivity.
Qed.

Lemma rebuilt_canvas w w' : rebuilt w w' -> canvas (self w') = canvas (self w).
Proof. intros [E _]; apply (f_equal canvas) in E; exact E. Qed.

Lemma quiet_rebuilt w w' : quiet w w' -> rebuilt w w'.
Proof. intros [E H]; split; [rewrite E; reflexivity | exact H]. Qed.

Lemma rebuilt_assign (f : Effect -> Effect) :
  (forall e, bare (f e) = bare e) -> within rebuilt (assign f).
Proof.
  intros Hf w; split; [apply Hf | destruct w as [[] e]; reflexivity].
Qed.

Lemma rebuilt_pure {A} (m : M A) : pure_draw m -> within rebuilt m.
Proof. intros [Qm _] w; apply quiet_rebuilt, Qm. Qed.

(** Walks through a method that only rebuilds. *)
Ltac rebuilt_steps :=
  repeat first
    [ apply (within_ret rebuilt rebuilt_refl)
    | apply (within_this rebuilt rebuilt_refl)
    | apply (within_page rebuilt rebuilt_refl)
    | apply (within_TypeError rebuilt rebuilt_refl)
    | solve [apply rebuilt_pure; auto 1 with pure nocore]
    | match goal with
      | |- within rebuilt (bind _ _) =>
          apply (within_bind rebuilt rebuilt_trans); [| intros ?]
      | |- within rebuilt (assign _) =>
          apply rebuilt_assign; intros []; reflexivity
      | |- within rebuilt (repeatM _ _) =>
          apply (within_repeatM rebuilt rebuilt_refl rebuilt_trans)
      | |- within rebuilt (if ?c then _ else _) => destruct c
      | |- within rebuilt (match ?x with _ => _ end) => destruct x
      | |- within rebuilt (let _ := _ in _) => cbv zeta
      | |- within rebuilt ?m => let h := head_of m in unfold h
      end ].

Lemma rebuilt_createParticles b : within rebuilt (_createParticles b).
Proof. rebuilt_steps. Qed.

(** The fields of the effect that a rebuild keeps, read off [bare]. *)
Lemma rebuilt_fields w w' :
  rebuilt w w' ->
  intensity (self w') = intensity (self w)
  /\ enabled (self w') = enabled (self w)
  /\ canvas (self w') = canvas (self w)
  /\ animationId (self w') = animationId (self w)
  /\ isPaused (self w') = isPaused (self w)
  /\ resizeTimeout (self w') = resizeTimeout (self w)
  /\ windGust (self w') = windGust (self w)
  /\ lastTime (self w') = lastTime (self w).
Proof.
  intros [E _].
  pose proof (f_equal intensity E); pose proof (f_equal enabled E).
  pose proof (f_equal canvas E); pose proof (f_equal animationId E).
  pose proof (f_equal isPaused E); pose proof (f_equal resizeTimeout E).
  pose proof (f_equal windGust E); pose proof (f_equal lastTime E).
  repeat split; assumption.
Qed.

Lemma rebuilt_page w w' :
  rebuilt w w' ->
  frames (host w') = frames (host w)
  /\ timers (host w') = timers (host w)
  /\ listening (host w') = listening (host w)
  /\ randoms (host w') = randoms (host w)
  /\ innerWidth (host w') = innerWidth (host w)
  /\ nextHandle (host w') = nextHandle (host w).
Proof. intros [_ H]; rewrite H; repeat split. Qed.

(** ** The lifecycle, operation by operation *)

Lemma rebuilt_calm w w' : rebuilt w w' -> calm w w'.
Proof.
  intro R; destruct (rebuilt_fields _ _ R) as (_ & _ & ? & _ & _ & _ & ? & _).
  destruct (rebuilt_page _ _ R) as (_ & _ & _ & ? & _).
  destruct R as [E _]; pose proof (f_equal windGustTarget E).
  repeat split; assumption.
Qed.

Lemma createCanvas_spec w :
  _createCanvas w
  = Ok tt (mkWorld (host w)
             (set_canvas
                (Some (mkCanvas (innerWidth (host w)) (innerHeight (host w)) true))
                (self w))).
Proof.
  unfold _createCanvas, _resizeCanvas, the_canvas, this, page, assign, ret,
    bind; simpl.
  destruct w as [s e]; destruct e; reflexivity.
Qed.

(** X1: on an effect without a canvas whose tier is in the table, [init()]
    returns; the canvas then has the size of the viewport and is attached,
    the listeners are bound, the population has the counts of the tier
    (halved below 768 px), and nothing is scheduled or unpaused by it. *)
Theorem init_builds_ready (b : Build) (w : World) (config : IntensityConfig) :
  canvas (self w) = None ->
  INTENSITY_CONFIG b (intensity (self w)) = Some config ->
  exists w',
    init b w = Ok tt w'
    /\ canvas (self w')
       = Some (mkCanvas (innerWidth (host w)) (innerHeight (host w)) true)
    /\ listening (host w') = true
    /\ List.length (particles (self w'))
       = Z.to_nat (density (lt (num (innerWidth (host w))) 768) (count config))
    /\ List.length (specialParticles (self w'))
       = (Z.to_nat (density (lt (num (innerWidth (host w))) 768) (trees config))
          + Z.to_nat (density (lt (num (innerWidth (host w))) 768)
                        (wreaths config)))%nat
    /\ animationId (self w') = animationId (self w)
    /\ isPaused (self w') = isPaused (self w)
    /\ frames (host w') = frames (host w).
Proof.
  intros Hc Hcfg.
  set (c := mkCanvas (innerWidth (host w)) (innerHeight (host w)) true).
  pose (w1 := mkWorld (host w) (set_canvas (Some c) (self w))).
  destruct (createParticles_spec b w1 c config eq_refl Hcfg)
    as (ps & ts & ws & w2 & E & S & H & Lp & Lt & Lw & _).
  exists (mkWorld (set_listening true (host w2)) (self w2)).
  split.
  - unfold init.
    rewrite (bind_Ok this _ w (self w) w eq_refl), Hc.
    rewrite (bind_Ok _ _ _ _ _ (createCanvas_spec w)).
    fold c; fold w1; rewrite (bind_Ok _ _ _ _ _ E); reflexivity.
  - simpl; rewrite S; simpl.
    rewrite length_app, Lp, Lt, Lw, H; simpl.
    repeat split; reflexivity.
Qed.

Lemma init_builds_ready_witness :
  exists w',
    init CoreBuild (boot phone (mkOptions None None None)) = Ok tt w'
    /\ List.length (particles (self w')) = 75%nat
    /\ List.length (specialParticles (self w')) = 8%nat.
Proof.
  destruct (init_builds_ready CoreBuild (boot phone (mkOptions None None None))
              (mkConfig 150 (0.8, 2.5) (1, 4) 10 6) eq_refl eq_refl)
    as (w' & E & _ & _ & Lp & Ls & _).
  exists w'; split; [exact E |]; split; [exact Lp | exact Ls].
Defined.

(** After [init()] there is a canvas, whether it returned or raised. *)
Lemma init_leaves_canvas b w : canvas (self (after (init b w))) <> None.
Proof.
  unfold init; rewrite (bind_Ok this _ w (self w) w eq_refl).
  destruct (canvas (self w)) as [c |] eqn:Hc.
  - simpl; congruence.
  - rewrite (bind_Ok _ _ _ _ _ (createCanvas_spec w)).
    match goal with
    | |- canvas (self (after (?m ?w1))) <> None =>
        assert (Hr : within calm m);
        [| rewrite (calm_canvas _ _ (Hr w1)); simpl; discriminate]
    end.
    apply (within_bind calm calm_trans).
    + intro w1; apply rebuilt_calm, rebuilt_createParticles.
    + intros _ w1; repeat split.
Qed.

(** X2: [init()] is idempotent, also after a failure: once [init()] has
    run, returned or raised, a second [init()] returns and changes
    nothing (it does not retry a build that raised). *)
Theorem init_twice (b : Build) (w : World) :
  init b (after (init b w)) = Ok tt (after (init b w)).
Proof.
  pose proof (init_leaves_canvas b w) as Hc.
  unfold init at 1.
  rewrite (bind_Ok this _ _ _ _ eq_refl).
  destruct (canvas (self (after (init b w)))); [reflexivity | congruence].
Qed.

(** [start()] on an initialized effect with no frame recorded. *)
Lemma start_spec w c :
  canvas (self w) = Some c ->
  animationId (self w) = None ->
  start w
  = Ok tt
      (mkWorld
         (set_frames (nextHandle (host w) :: frames (host w))
            (set_nextHandle (Pos.succ (nextHandle (host w))) (host w)))
         (set_animationId (Some (nextHandle (host w)))
            (set_lastGustTime (clock (host w))
               (set_lastTime (clock (host w))
                  (set_isPaused false (self w)))))).
Proof.
  intros Hc Hid.
  unfold start, requestAnimationFrame, fresh_handle, performance_now, this,
    page, assign, tell, ret, bind; simpl.
  rewrite Hc, Hid; reflexivity.
Qed.

(** [pause()] from any state. *)
Lemma pause_spec w :
  exists w1,
    pause w = Ok tt w1
    /\ self w1 = set_animationId None (set_isPaused true (self w))
    /\ host w1
       = match animationId (self w) with
         | Some id => set_frames (drop id (frames (host w))) (host w)
         | None => host w
         end.
Proof.
  unfold pause, cancelAnimationFrame, this, page, assign, tell, ret, bind;
    simpl.
  destruct (animationId (self w)) as [id |] eqn:Hid; simpl;
    eexists; (split; [reflexivity |]); simpl; split; try reflexivity.
  destruct (self w); simpl in *; rewrite Hid; reflexivity.
Qed.

(** X3: on an initialized effect, [pause()] followed by [start()] leaves a
    frame scheduled and the paused flag cleared, keeps the canvas, the
    tier, the gust and both particle collections as they were (nothing is
    rebuilt), and restarts the frame clock and the gust clock at the
    current time, so the pause does not count as elapsed time. *)
Theorem pause_then_start_resumes (w : World) (c : Canvas) :
  canvas (self w) = Some c ->
  exists w1 w2,
    pause w = Ok tt w1
    /\ start w1 = Ok tt w2
    /\ animationId (self w2) = Some (nextHandle (host w))
    /\ isPaused (self w2) = false
    /\ particles (self w2) = particles (self w)
    /\ specialParticles (self w2) = specialParticles (self w)
    /\ canvas (self w2) = Some c
    /\ intensity (self w2) = intensity (self w)
    /\ windGust (self w2) = windGust (self w)
    /\ lastTime (self w2) = clock (host w)
    /\ lastGustTime (self w2) = clock (host w).
Proof.
  intro Hc.
  destruct (pause_spec w) as (w1 & E1 & S1 & H1).
  assert (Hc1 : canvas (self w1) = Some c) by (rewrite S1; exact Hc).
  assert (Hid1 : animationId (self w1) = None) by (rewrite S1; reflexivity).
  assert (Hn : nextHandle (host w1) = nextHandle (host w)
               /\ clock (host w1) = clock (host w))
    by (rewrite H1; destruct (animationId (self w)); split; reflexivity).
  destruct Hn as [Hn Hk].
  exists w1; eexists; split; [exact E1 |].
  split; [apply (start_spec w1 c Hc1 Hid1) |].
  simpl; rewrite S1, Hn, Hk; simpl.
  repeat split; try reflexivity; exact Hc.
Qed.

Lemma pause_then_start_resumes_witness :
  exists w1 w2,
    pause started = Ok tt w1
    /\ start w1 = Ok tt w2
    /\ isPaused (self w2) = false
    /\ particles (self w2) = particles (self started).
Proof.
  destruct (pause_then_start_resumes started (mkCanvas 1024 768 true) eq_refl)
    as (w1 & w2 & E1 & E2 & _ & Hp & Hps & _).
  exists w1, w2; repeat split; assumption.
Defined.

(** X4: [stop()] returns from every state; afterwards there is no canvas,
    both collections are empty, no frame is recorded, the listeners are
    removed and the paused flag is set.  On the stopped effect a second
    [stop()], a [start()] and a late frame callback all return and change
    nothing. *)
Theorem stop_tears_down (w : World) :
  exists w',
    stop w = Ok tt w'
    /\ canvas (self w') = None
    /\ particles (self w') = []
    /\ specialParticles (self w') = []
    /\ animationId (self w') = None
    /\ isPaused (self w') = true
    /\ listening (host w') = false
    /\ stop w' = Ok tt w'
    /\ start w' = Ok tt w'
    /\ forall b currentTime, _animate b currentTime w' = Ok tt w'.
Proof.
  unfold stop, pause, _cleanup, start, _animate, cancelAnimationFrame, this,
    page, assign, tell, ret, bind; simpl.
  destruct w as [s e]; destruct s, e; simpl.
  destruct animationId0 as [id |]; simpl;
    (eexists; split; [reflexivity |]); simpl; repeat split; reflexivity.
Qed.

(** ** One frame, stage by stage *)

Lemma rebuilt_spawn b : within rebuilt (spawn b).
Proof. rebuilt_steps. Qed.

(** A frame of a running effect: the gust update, the spawn step, the
    update of the drift particles, the update of the decorations and
    sprites, and the request for the next frame. *)
Lemma animate_stages b currentTime w c :
  isPaused (self w) = false ->
  canvas (self w) = Some c ->
  exists w1 w2 ps w3 qs w4,
    update_wind currentTime
      (mkWorld (host w)
         (set_twinkleTime currentTime (set_lastTime currentTime (self w))))
    = Ok tt w1
    /\ spawn b w1 = Ok tt w2
    /\ rebuilt w1 w2
    /\ mapM (fun p => _updateParticle p (currentTime - lastTime (self w)))
         (particles (self w2)) w2
       = Ok ps w3
    /\ quiet w2 w3
    /\ mapM (fun p => _updateSpecialParticle b p (currentTime - lastTime (self w)))
         (specialParticles (self w2))
         (mkWorld (host w3) (set_particles ps (self w3)))
       = Ok qs w4
    /\ quiet (mkWorld (host w3) (set_particles ps (self w3))) w4
    /\ _animate b currentTime w
       = Ok tt
           (mkWorld
              (set_frames (nextHandle (host w4) :: frames (host w4))
                 (set_nextHandle (Pos.succ (nextHandle (host w4))) (host w4)))
              (set_animationId (Some (nextHandle (host w4)))
                 (set_specialParticles (filter Special.active qs) (self w4)))).
Proof.
  intros Hp Hc.
  destruct (update_wind_spec currentTime
              (mkWorld (host w)
                 (set_twinkleTime currentTime
                    (set_lastTime currentTime (self w)))))
    as (w1 & E1 & Hc1 & _).
  assert (C1 : canvas (self w1) <> None) by (rewrite Hc1; simpl; congruence).
  destruct (sound_run calm (spawn b) w1 (steady_spawn b) C1)
    as ([] & w2 & E2 & _).
  pose proof (rebuilt_spawn b w1) as R2; rewrite E2 in R2; simpl in R2.
  assert (C2 : canvas (self w2) <> None)
    by (rewrite (rebuilt_canvas _ _ R2); exact C1).
  destruct (pure_run
              (mapM (fun p => _updateParticle p (currentTime - lastTime (self w)))
                 (particles (self w2))) w2
              (pure_mapM _ _ (fun p => pure_updateParticle p _)) C2)
    as (ps & w3 & E3 & Q3).
  pose (w3' := mkWorld (host w3) (set_particles ps (self w3))).
  assert (C3 : canvas (self w3') <> None).
  { simpl; destruct Q3 as [S3 _]; rewrite S3; exact C2. }
  assert (S3 : specialParticles (self w3') = specialParticles (self w2)).
  { simpl; destruct Q3 as [S3 _]; rewrite S3; reflexivity. }
  destruct (pure_run
              (mapM (fun p => _updateSpecialParticle b p
                                (currentTime - lastTime (self w)))
                 (specialParticles (self w2))) w3'
              (pure_mapM _ _ (fun p => pure_updateSpecialParticle b p _)) C3)
    as (qs & w4 & E4 & Q4).
  exists w1, w2, ps, w3, qs, w4.
  split; [exact E1 |]; split; [exact E2 |]; split; [exact R2 |].
  split; [exact E3 |]; split; [exact Q3 |]; split; [exact E4 |].
  split; [exact Q4 |].
  unfold _animate.
  rewrite (bind_Ok this _ w (self w) w eq_refl), Hp, Hc.
  change (false || false) with false; cbv iota zeta.
  rewrite (bind_Ok (assign (set_lastTime currentTime)) _ w tt _ eq_refl).
  rewrite (bind_Ok (assign (set_twinkleTime currentTime)) _ _ tt _ eq_refl).
  rewrite (bind_Ok _ _ _ _ _ E1).
  rewrite (bind_Ok _ _ _ _ _ E2).
  rewrite (bind_Ok this _ w2 (self w2) w2 eq_refl).
  rewrite (bind_Ok _ _ _ _ _ E3).
  rewrite (bind_Ok (assign (set_particles ps)) _ w3 tt w3' eq_refl).
  rewrite (bind_Ok this _ w3' (self w3') w3' eq_refl), S3.
  rewrite (bind_Ok _ _ _ _ _ E4).
  reflexivity.
Qed.

(** ** What is scheduled *)

(** The frame loop is consistent: either no frame is recorded and none is
    pending, or exactly the recorded frame is pending, the effect is not
    paused and it has a canvas. *)
Definition loop_consistent (w : World) : Prop :=
  (animationId (self w) = None /\ frames (host w) = [])
  \/ (exists id,
        animationId (self w) = Some id
        /\ frames (host w) = [id]
        /\ isPaused (self w) = false
        /\ canvas (self w) <> None).

(** The resize timer is debounced: at most one timeout is pending, the one
    recorded in [resizeTimeout]. *)
Definition debounced (w : World) : Prop :=
  timers (host w) = []
  \/ (exists id, timers (host w) = [id] /\ resizeTimeout (self w) = Some id).

Definition scheduled (w : World) : Prop := loop_consistent w /\ debounced w.

(** A computation keeps the schedule when it leaves the recorded frame,
    the paused flag, the recorded timeout and the pending handles alone
    and does not take the canvas away. *)
Definition idle (w w' : World) : Prop :=
  animationId (self w') = animationId (self w)
  /\ isPaused (self w') = isPaused (self w)
  /\ resizeTimeout (self w') = resizeTimeout (self w)
  /\ frames (host w') = frames (host w)
  /\ timers (host w') = timers (host w)
  /\ (canvas (self w) <> None -> canvas (self w') <> None).

Lemma idle_refl w : idle w w.
Proof. repeat split; auto. Qed.

Lemma idle_trans a b c : idle a b -> idle b c -> idle a c.
Proof.
  intros (?&?&?&?&?&?) (?&?&?&?&?&?).
  repeat split; try congruence; auto.
Qed.

Lemma rebuilt_idle w w' : rebuilt w w' -> idle w w'.
Proof.
  intro R; destruct (rebuilt_fields _ _ R) as (_&_&Hc&?&?&?&_).
  destruct (rebuilt_page _ _ R) as (?&?&_).
  repeat split; try assumption; rewrite Hc; auto.
Qed.

Lemma idle_scheduled w w' : idle w w' -> scheduled w -> scheduled w'.
Proof.
  intros (Ha & Hp & Hr & Hf & Ht & Hc) [L D]; split.
  - destruct L as [[L1 L2] | (id & L1 & L2 & L3 & L4)]; [left | right].
    + rewrite Ha, Hf; auto.
    + exists id; rewrite Ha, Hf, Hp; auto.
  - destruct D as [D | (id & D1 & D2)]; [left | right].
    + rewrite Ht; exact D.
    + exists id; rewrite Ht, Hr; auto.
Qed.

Lemma idle_assign (f : Effect -> Effect) :
  (forall e, animationId (f e) = animationId e
             /\ isPaused (f e) = isPaused e
             /\ resizeTimeout (f e) = resizeTimeout e
             /\ (canvas e <> None -> canvas (f e) <> None)) ->
  within idle (assign f).
Proof.
  intros Hf w; destruct (Hf (self w)) as (?&?&?&?).
  repeat split; assumption.
Qed.

Lemma idle_tell (f : Host -> Host) :
  (forall s, frames (f s) = frames s /\ timers (f s) = timers s) ->
  within idle (tell f).
Proof.
  intros Hf w; destruct (Hf (host w)) as (?&?).
  repeat split; auto.
Qed.

Lemma idle_createParticles b : within idle (_createParticles b).
Proof. intro w; apply rebuilt_idle, rebuilt_createParticles. Qed.

(** Walks through a method that keeps the schedule. *)
Ltac idle_steps :=
  repeat first
    [ apply (within_ret idle idle_refl)
    | apply (within_this idle idle_refl)
    | apply (within_page idle idle_refl)
    | apply (within_TypeError idle idle_refl)
    | apply idle_createParticles
    | match goal with
      | |- within idle (bind _ _) =>
          apply (within_bind idle idle_trans); [| intros ?]
      | |- within idle (assign _) =>
          apply idle_assign; intros ?; simpl;
          repeat split; try reflexivity; solve [auto | discriminate]
      | |- within idle (tell _) =>
          apply idle_tell; intros ?; split; reflexivity
      | |- within idle (if ?c then _ else _) => destruct c
      | |- within idle (match ?x with _ => _ end) => destruct x
      | |- within idle ?m => let h := head_of m in unfold h
      end ].

Lemma idle_init b : within idle (init b).
Proof. idle_steps. Qed.

Lemma idle_setIntensity b level : within idle (setIntensity b level).
Proof. idle_steps. Qed.

Lemma idle_shouldDisplay : within idle shouldDisplay.
Proof. idle_steps. Qed.

Lemma idle_resize_callback b : within idle (resize_callback b).
Proof. idle_steps. Qed.

Lemma drop_only id : drop id [id] = [].
Proof. unfold drop; simpl; rewrite Pos.eqb_refl; reflexivity. Qed.

Lemma pending_only id id0 : pending id [id0] = true -> id = id0.
Proof.
  unfold pending; simpl; rewrite orb_false_r; apply Pos.eqb_eq.
Qed.

Lemma start_scheduled w : scheduled w -> scheduled (after (start w)).
Proof.
  intros [L D].
  destruct (canvas (self w)) as [c |] eqn:Hc.
  - destruct (animationId (self w)) as [id |] eqn:Hid.
    + unfold start; rewrite (bind_Ok this _ w (self w) w eq_refl), Hc, Hid.
      split; assumption.
    + rewrite (start_spec w c Hc Hid); simpl.
      destruct L as [[_ L2] | (id & L1 & _)]; [| congruence].
      split.
      * right; exists (nextHandle (host w)); simpl; rewrite L2, Hc.
        repeat split; discriminate.
      * exact D.
  - unfold start; rewrite (bind_Ok this _ w (self w) w eq_refl), Hc.
    split; assumption.
Qed.

Lemma pause_scheduled w : scheduled w -> scheduled (after (pause w)).
Proof.
  intros [L D]; destruct (pause_spec w) as (w1 & E & S & H).
  rewrite E; simpl; split.
  - left; rewrite S, H; split; [reflexivity |].
    destruct L as [[L1 L2] | (id & L1 & L2 & _)].
    + rewrite L1; exact L2.
    + rewrite L1; simpl; rewrite L2; apply drop_only.
  - assert (Ht : timers (host w1) = timers (host w))
      by (rewrite H; destruct (animationId (self w)); reflexivity).
    unfold debounced; rewrite Ht, S; exact D.
Qed.

Lemma cleanup_scheduled w :
  animationId (self w) = None -> scheduled w -> scheduled (after (_cleanup w)).
Proof.
  intros Hid [L D]; unfold _cleanup, assign, tell, bind; simpl; split.
  - left; simpl; split; [reflexivity |].
    destruct L as [[_ L2] | (id & L1 & _)]; [exact L2 | congruence].
  - exact D.
Qed.

Lemma stop_scheduled w : scheduled w -> scheduled (after (stop w)).
Proof.
  intro Hs; destruct (pause_spec w) as (w1 & E & S & _).
  pose proof (pause_scheduled w Hs) as H1; rewrite E in H1; simpl in H1.
  unfold stop; rewrite (bind_Ok _ _ _ _ _ E).
  apply cleanup_scheduled; [rewrite S; reflexivity | exact H1].
Qed.

Lemma handleResize_scheduled w :
  scheduled w -> scheduled (after (_handleResize w)).
Proof.
  intros [L D].
  unfold _handleResize, clearTimeout, setTimeout, fresh_handle, this, page,
    assign, tell, ret, bind; simpl.
  destruct (resizeTimeout (self w)) as [id |] eqn:Hr; simpl; split;
    try exact L; right; exists (nextHandle (host w)); simpl.
  - destruct D as [D | (id' & D1 & D2)].
    + rewrite D; simpl; auto.
    + assert (id' = id) by congruence; subst id'.
      rewrite D1, drop_only; auto.
  - destruct D as [D | (id' & _ & D2)]; [| congruence].
    rewrite D; auto.
Qed.

Lemma animate_scheduled b currentTime w :
  isPaused (self w) = false ->
  canvas (self w) <> None ->
  frames (host w) = [] ->
  debounced w ->
  scheduled (after (_animate b currentTime w)).
Proof.
  intros Hp Hc Hf D.
  destruct (canvas (self w)) as [c |] eqn:Hc'; [| congruence].
  destruct (animate_stages b currentTime w c Hp Hc')
    as (w1 & w2 & ps & w3 & qs & w4 & E1 & _ & R2 & _ & Q3 & _ & Q4 & E).
  destruct (update_wind_spec currentTime
              (mkWorld (host w)
                 (set_twinkleTime currentTime
                    (set_lastTime currentTime (self w)))))
    as (w1' & E1' & _).
  rewrite E1 in E1'; inversion E1'; subst w1'; clear E1'.
  assert (I1 : idle w w1).
  { revert E1.
    unfold update_wind, Math_random, this, page, assign, tell, ret, bind;
      simpl.
    destruct (gt _ _); simpl; intro E1; inversion E1; subst w1;
      repeat split; simpl; auto; rewrite Hc'; discriminate. }
  pose proof (rebuilt_idle _ _ R2) as I2.
  pose proof (rebuilt_idle _ _ (quiet_rebuilt _ _ Q3)) as I3.
  assert (I3' : idle w3 (mkWorld (host w3) (set_particles ps (self w3))))
    by (repeat split; auto).
  pose proof (rebuilt_idle _ _ (quiet_rebuilt _ _ Q4)) as I4.
  pose proof (idle_trans _ _ _ I1
                (idle_trans _ _ _ I2
                   (idle_trans _ _ _ I3 (idle_trans _ _ _ I3' I4))))
    as (_ & Hp4 & Hr4 & Hf4 & Ht4 & Hc4).
  rewrite E; simpl; split.
  - right; exists (nextHandle (host w4)); simpl.
    rewrite Hf4, Hf, Hp4, Hp.
    repeat split; apply Hc4; rewrite Hc'; discriminate.
  - unfold debounced; simpl; rewrite Ht4, Hr4; exact D.
Qed.

Lemma dispatch_scheduled b ev w :
  scheduled w -> scheduled (after (dispatch b ev w)).
Proof.
  intro Hs; destruct ev; unfold dispatch.
  - apply (idle_scheduled _ _ (idle_init b w) Hs).
  - apply start_scheduled, Hs.
  - apply pause_scheduled, Hs.
  - apply stop_scheduled, Hs.
  - apply (idle_scheduled _ _ (idle_setIntensity b level w) Hs).
  - refine (idle_scheduled _ _ _ Hs).
    assert (Hm : within idle (_ <- shouldDisplay ;; ret tt)) by idle_steps.
    apply Hm.
  - rewrite (bind_Ok (tell (set_viewport w0 h)) _ w tt _ eq_refl).
    rewrite (bind_Ok page _ _ _ _ eq_refl); simpl.
    destruct (listening (host w)); [apply handleResize_scheduled |];
      exact Hs.
  - rewrite (bind_Ok page _ w (host w) w eq_refl).
    destruct (pending id (timers (host w))) eqn:Hpend; [| exact Hs].
    rewrite (bind_Ok (tell _) _ w tt _ eq_refl).
    apply (idle_scheduled _ _ (idle_resize_callback b _)).
    destruct Hs as [L D]; split; [exact L |]; left; simpl.
    destruct D as [D | (id' & D1 & _)].
    + rewrite D in Hpend; discriminate.
    + rewrite D1 in *; rewrite (pending_only _ _ Hpend); apply drop_only.
  - rewrite (bind_Ok page _ w (host w) w eq_refl).
    destruct (listening (host w)); [| exact Hs].
    unfold visibilitychange.
    rewrite (bind_Ok (tell (set_hidden hid)) _ w tt _ eq_refl).
    unfold _handleVisibility.
    rewrite (bind_Ok page _ _ _ _ eq_refl); simpl.
    destruct hid.
    + apply pause_scheduled; exact Hs.
    + rewrite (bind_Ok this _ _ _ _ eq_refl); simpl.
      destruct (enabled (self w) && negb (isPaused (self w)));
        [apply start_scheduled |]; exact Hs.
  - rewrite (bind_Ok page _ w (host w) w eq_refl).
    destruct (pending id (frames (host w))) eqn:Hpend; [| exact Hs].
    rewrite (bind_Ok (tell _) _ w tt _ eq_refl).
    destruct Hs as [L D].
    destruct L as [[_ L2] | (id' & L1 & L2 & L3 & L4)].
    + rewrite L2 in Hpend; discriminate.
    + apply animate_scheduled; simpl; try assumption.
      rewrite L2 in *; rewrite (pending_only _ _ Hpend); apply drop_only.
  - exact Hs.
Qed.

Lemma run_scheduled b evs w : scheduled w -> scheduled (run b evs w).
Proof.
  revert w; induction evs as [| ev evs IH]; intros w Hs; simpl; [exact Hs |].
  apply IH, dispatch_scheduled, Hs.
Qed.

Lemma run_app b evs ev w :
  run b (evs ++ [ev]) w = after (dispatch b ev (run b evs w)).
Proof.
  revert w; induction evs as [| e evs IH]; intro w; simpl; [reflexivity |].
  apply IH.
Qed.

Lemma boot_scheduled s options :
  frames s = [] -> timers s = [] -> scheduled (boot s options).
Proof. intros Hf Ht; split; left; simpl; auto. Qed.

(** X5: on a page where nothing was scheduled before the effect was
    constructed, after any sequence of calls and page events: at most one
    frame callback is pending; one is pending exactly when [animationId]
    records it, and then the effect is not paused and has a canvas; and
    right after a [pause()] or a [stop()] no frame callback is pending. *)
Theorem one_frame_pending (b : Build) (s : Host) (options : Options)
    (evs : list Event) :
  frames s = [] ->
  timers s = [] ->
  loop_consistent (run b evs (boot s options))
  /\ frames (host (run b (evs ++ [Call_pause]) (boot s options))) = []
  /\ frames (host (run b (evs ++ [Call_stop]) (boot s options))) = [].
Proof.
  intros Hf Ht.
  pose proof (run_scheduled b evs _ (boot_scheduled s options Hf Ht)) as Hs.
  split; [apply Hs |].
  assert (Hidle : forall ev,
             animationId
               (self (run b (evs ++ [ev]) (boot s options))) = None ->
             frames (host (run b (evs ++ [ev]) (boot s options))) = []).
  { intros ev Hid.
    destruct (run_scheduled b (evs ++ [ev]) _ (boot_scheduled s options Hf Ht))
      as [[[_ L] | (id & L & _)] _]; [exact L | congruence]. }
  split; apply Hidle; rewrite run_app; unfold dispatch.
  - destruct (pause_spec (run b evs (boot s options))) as (w1 & E & S & _).
    rewrite E; simpl; rewrite S; reflexivity.
  - destruct (stop_tears_down (run b evs (boot s options)))
      as (w1 & E & _ & _ & _ & Hid & _).
    rewrite E; exact Hid.
Qed.

Lemma one_frame_pending_witness :
  frames (host (run CoreBuild
                  ([Call_init; Call_start; Frame 1 16; Frame 2 33]
                     ++ [Call_stop])
                  (boot desk (mkOptions None (Some true) None)))) = [].
Proof.
  exact (proj2 (proj2 (one_frame_pending CoreBuild desk
                         (mkOptions None (Some true) None)
                         [Call_init; Call_start; Frame 1 16; Frame 2 33]
                         eq_refl eq_refl))).
Defined.

(** X6: on such a page, after any sequence of calls and page events at
    most one resize timeout is pending, the one recorded in
    [resizeTimeout]; and while the listeners are bound, right after a
    resize event exactly one timeout is pending, however many resize
    events came before it. *)
Theorem resize_is_debounced (b : Build) (s : Host) (options : Options)
    (evs : list Event) (width' height' : Z) :
  frames s = [] ->
  timers s = [] ->
  debounced (run b evs (boot s options))
  /\ (listening (host (run b evs (boot s options))) = true ->
      exists id,
        timers (host (run b (evs ++ [Resize width' height']) (boot s options)))
        = [id]
        /\ resizeTimeout
             (self (run b (evs ++ [Resize width' height']) (boot s options)))
           = Some id).
Proof.
  intros Hf Ht.
  pose proof (run_scheduled b evs _ (boot_scheduled s options Hf Ht)) as Hs.
  split; [apply Hs |].
  intro Hl; rewrite run_app; unfold dispatch.
  set (w := run b evs (boot s options)) in *.
  rewrite (bind_Ok (tell (set_viewport width' height')) _ w tt _ eq_refl).
  rewrite (bind_Ok page _ _ _ _ eq_refl); simpl; rewrite Hl.
  destruct Hs as [_ D].
  unfold _handleResize, clearTimeout, setTimeout, fresh_handle, this, page,
    assign, tell, ret, bind; simpl.
  exists (nextHandle (host w)).
  destruct (resizeTimeout (self w)) as [id |] eqn:Hr; simpl.
  - destruct D as [D | (id' & D1 & D2)].
    + rewrite D; simpl; auto.
    + assert (id' = id) by congruence; subst id'.
      rewrite D1, drop_only; auto.
  - destruct D as [D | (id' & _ & D2)]; [| congruence].
    rewrite D; auto.
Qed.

Lemma resize_is_debounced_witness :
  exists id,
    timers (host (run CoreBuild
                    ([Call_init; Resize 800 600; Resize 700 600]
                       ++ [Resize 500 600])
                    (boot desk (mkOptions None None None)))) = [id].
Proof.
  destruct (resize_is_debounced CoreBuild desk (mkOptions None None None)
              [Call_init; Resize 800 600; Resize 700 600] 500 600
              eq_refl eq_refl)
    as [_ H].
  destruct (H eq_refl) as (id & Ht & _).
  exists id; exact Ht.
Defined.

(** ** What the factory makes *)

(** [made c m P]: on a world whose canvas is [c] and whose draws are in
    [0, 1), whatever [m] returns satisfies [P]. *)
Definition made (c : Canvas) {A} (m : M A) (P : A -> Prop) : Prop :=
  forall w a w',
    canvas (self w) = Some c -> unit_interval (host w) ->
    m w = Ok a w' -> P a.

Lemma bind_inv {A B} (m : M A) (k : A -> M B) w b w' :
  bind m k w = Ok b w' -> exists a w1, m w = Ok a w1 /\ k a w1 = Ok b w'.
Proof.
  unfold bind; destruct (m w) as [a w1 | w1]; [eauto | discriminate].
Qed.

Lemma made_ret c {A} (a : A) (P : A -> Prop) : P a -> made c (ret a) P.
Proof. intros H w a' w' _ _ E; inversion E; subst; exact H. Qed.

Lemma made_bind c {A B} (m : M A) (k : A -> M B) (Q : A -> Prop)
    (P : B -> Prop) :
  within quiet m -> made c m Q -> (forall a, Q a -> made c (k a) P) ->
  made c (bind m k) P.
Proof.
  intros Hq Hm Hk w b w' Hc Hu E.
  apply bind_inv in E; destruct E as (a & w1 & E1 & E2).
  pose proof (Hq w) as Q1; rewrite E1 in Q1; simpl in Q1.
  apply (Hk a (Hm w a w1 Hc Hu E1) w1 b w'); [| | exact E2].
  - rewrite (quiet_canvas _ _ Q1); exact Hc.
  - exact (quiet_draws _ _ Q1 Hu).
Qed.

Lemma made_Math_random c : made c Math_random (fun r => 0 <= r /\ r < 1).
Proof. intros w a w' _ Hu E; inversion E; subst; apply Hu. Qed.

Lemma made_the_canvas c : made c the_canvas (fun c' => c' = c).
Proof.
  intros w a w' Hc _; unfold the_canvas, this, ret, TypeError, bind; simpl.
  rewrite Hc; intro E; inversion E; reflexivity.
Qed.

(** One step of a [made] proof: a draw, a read of the canvas, or any other
    pure draw whose value is not needed. *)
Ltac made_draw r H :=
  eapply made_bind;
  [ apply pure_Math_random | apply made_Math_random | intros r H ].

Ltac made_canvas :=
  eapply made_bind;
  [ apply pure_the_canvas | apply made_the_canvas | intros ? -> ].

(** The depth layers: what [layer] gives for size, speed, opacity and wind
    response, as offsets within the ranges of the tier. *)
Definition front_layer (config : IntensityConfig) (l : Q * Q * Q * Q) : Prop :=
  let '(size, speed, opacity, windSpeed) := l in
  exists r1 r2,
    (0 <= r1 /\ r1 < 1) /\ (0 <= r2 /\ r2 < 1)
    /\ size = fst (sizeRange config)
              + r1 * (snd (sizeRange config) - fst (sizeRange config)) * 1.5
    /\ speed = fst (speedRange config)
               + r2 * (snd (speedRange config) - fst (speedRange config)) * 1.3
    /\ (0.8 <= opacity /\ opacity <= 1)
    /\ (0.01 <= windSpeed /\ windSpeed <= 0.03).

Definition middle_layer (config : IntensityConfig) (l : Q * Q * Q * Q) : Prop :=
  let '(size, speed, opacity, windSpeed) := l in
  exists r1 r2,
    (0 <= r1 /\ r1 < 1) /\ (0 <= r2 /\ r2 < 1)
    /\ size = fst (sizeRange config)
              + r1 * (snd (sizeRange config) - fst (sizeRange config))
    /\ speed = fst (speedRange config)
               + r2 * (snd (speedRange config) - fst (speedRange config))
    /\ (0.5 <= opacity /\ opacity <= 0.7)
    /\ (0.02 <= windSpeed /\ windSpeed <= 0.05).

Definition back_layer (config : IntensityConfig) (l : Q * Q * Q * Q) : Prop :=
  let '(size, speed, opacity, windSpeed) := l in
  exists r1 r2,
    (0 <= r1 /\ r1 < 1) /\ (0 <= r2 /\ r2 < 1)
    /\ size = fst (sizeRange config)
              + r1 * (snd (sizeRange config) - fst (sizeRange config)) * 0.7
    /\ speed = fst (speedRange config)
               + r2 * (snd (speedRange config) - fst (speedRange config)) * 0.7
    /\ (0.3 <= opacity /\ opacity <= 0.5)
    /\ (0.03 <= windSpeed /\ windSpeed <= 0.07).

Lemma made_layer c config depth :
  made c (layer config depth)
    (fun l => front_layer config l \/ middle_layer config l
              \/ back_layer config l).
Proof.
  unfold layer; cbv zeta.
  destruct (lt depth 0.33); [| destruct (lt depth 0.66)];
    made_draw r1 H1; made_draw r2 H2; made_draw r3 H3; made_draw r4 H4;
    apply made_ret; [left | right; left | right; right];
    exists r1, r2; destruct H3, H4;
    (split; [exact H1 |]); (split; [exact H2 |]);
    (split; [reflexivity |]); (split; [reflexivity |]);
    split; split; lra.
Qed.

Lemma scaled r d : 0 <= r -> r < 1 -> 0 < d -> 0 <= r * d /\ r * d < d.
Proof. intros; split; nra. Qed.

(** A drift particle as the factory makes it for tier [config] on canvas
    [c]: inside the width, above the top edge by at most one surface
    height, with size, speed, opacity and wind response in the bands of
    one of the three depth layers, and angles below one turn. *)
Definition newborn (config : IntensityConfig) (c : Canvas) (p : Particle.t)
    : Prop :=
  (0 <= Particle.x p /\ Particle.x p < num (width c))
  /\ (- num (height c) <= Particle.y p /\ Particle.y p < 0)
  /\ (front_layer config
        (Particle.size p, Particle.speed p, Particle.opacity p,
         Particle.windSpeed p)
      \/ middle_layer config
           (Particle.size p, Particle.speed p, Particle.opacity p,
            Particle.windSpeed p)
      \/ back_layer config
           (Particle.size p, Particle.speed p, Particle.opacity p,
            Particle.windSpeed p))
  /\ (0 <= Particle.windOffset p /\ Particle.windOffset p < Math_PI * 2)
  /\ (0 <= Particle.rotation p /\ Particle.rotation p < Math_PI * 2)
  /\ (-0.01 <= Particle.rotationSpeed p /\ Particle.rotationSpeed p < 0.01).

Lemma Math_PI_pos : 0 < Math_PI.
Proof. reflexivity. Qed.

Lemma made_createParticle c config :
  (0 < width c)%Z -> (0 < height c)%Z ->
  made c (_createParticle config) (newborn config c).
Proof.
  intros HW HH; pose proof (num_pos _ HW); pose proof (num_pos _ HH).
  pose proof Math_PI_pos.
  unfold _createParticle.
  made_draw depth Hd.
  eapply made_bind; [apply pure_layer | apply made_layer |].
  intros [[[size speed] opacity] windSpeed] Hl.
  made_draw rx Hx; made_canvas; made_draw ry Hy; made_draw ro Ho;
    made_draw rr Hr; made_draw rs Hs.
  apply made_ret; unfold newborn; simpl.
  destruct Hx, Hy, Ho, Hr, Hs.
  split; [split; nra |]; split; [split; nra |]; split; [exact Hl |].
  split; [split; nra |]; split; [split; nra |]; split; lra.
Qed.

(** One segment of a wreath's ring. *)
Definition segment_ok (s : Segment) : Prop :=
  (0.9 <= radius s /\ radius s <= 1.1)
  /\ (0.2 <= thickness s /\ thickness s <= 0.35).

Lemma made_wreathShape c n i :
  made c (wreathShape n i)
    (fun sh =>
       List.length sh = n
       /\ Forall segment_ok sh
       /\ map angle sh
          = map (fun k => num (i + Z.of_nat k) / 20 * Math_PI * 2) (seq 0 n)).
Proof.
  revert i; induction n as [| n IH]; intro i.
  - apply made_ret; repeat split; constructor.
  - cbn [wreathShape].
    made_draw r1 H1; made_draw r2 H2.
    eapply made_bind; [apply pure_wreathShape | apply IH |].
    intros rest (Hl & Hf & Ha).
    apply made_ret; split; [simpl; rewrite Hl; reflexivity |]; split.
    + constructor; [| exact Hf].
      destruct H1, H2; unfold segment_ok; simpl; repeat split; lra.
    + cbn [map seq angle]; rewrite Z.add_0_r; f_equal.
      rewrite Ha, <- seq_shift, map_map.
      apply map_ext; intro k.
      replace (i + 1 + Z.of_nat k)%Z with (i + Z.of_nat (S k))%Z by lia.
      reflexivity.
Qed.

(** A decoration as the factory makes it on canvas [c]: static, active,
    somewhere on the surface, with the size and opacity band of its kind;
    in the accrual build its snow level is 0 and a wreath carries a ring
    of 20 segments at twentieths of a turn. *)
Definition planted (b : Build) (c : Canvas) (p : Special.t) : Prop :=
  Special.static p = true
  /\ Special.active p = true
  /\ (0 <= Special.x p /\ Special.x p < num (width c))
  /\ (0 <= Special.y p /\ Special.y p < num (height c))
  /\ Special.snowLevel p
     = match b with CoreBuild => None | AccrualBuild => Some 0 end
  /\ ((Special.type p = tree
       /\ (20 <= Special.size p /\ Special.size p <= 35)
       /\ (0.6 <= Special.opacity p /\ Special.opacity p <= 0.9)
       /\ Special.rotation p = 0)
      \/ (Special.type p = wreath
          /\ (15 <= Special.size p /\ Special.size p <= 25)
          /\ (0.7 <= Special.opacity p /\ Special.opacity p <= 0.9)
          /\ match b with
             | CoreBuild => Special.shape p = []
             | AccrualBuild =>
                 List.length (Special.shape p) = 20%nat
                 /\ Forall segment_ok (Special.shape p)
                 /\ map angle (Special.shape p)
                    = map (fun k => num (Z.of_nat k) / 20 * Math_PI * 2)
                        (seq 0 20)
             end)).

Lemma made_createStaticTree b c :
  (0 < width c)%Z -> (0 < height c)%Z ->
  made c (_createStaticTree b) (planted b c).
Proof.
  intros HW HH; pose proof (num_pos _ HW); pose proof (num_pos _ HH).
  unfold _createStaticTree.
  made_draw rx Hx; made_canvas; made_draw ry Hy; made_draw rs Hs;
    made_draw ro Ho.
  apply made_ret; unfold planted; simpl.
  destruct Hx, Hy, Hs, Ho.
  split; [reflexivity |]; split; [reflexivity |].
  split; [split; nra |]; split; [split; nra |]; split; [reflexivity |].
  left; split; [reflexivity |]; split; [split; lra |].
  split; [split; lra | reflexivity].
Qed.

Lemma made_createStaticWreath b c :
  (0 < width c)%Z -> (0 < height c)%Z ->
  made c (_createStaticWreath b) (planted b c).
Proof.
  intros HW HH; pose proof (num_pos _ HW); pose proof (num_pos _ HH).
  unfold _createStaticWreath; destruct b.
  - made_draw rx Hx; made_canvas; made_draw ry Hy; made_draw rs Hs;
      made_draw ro Ho; made_draw rr Hr.
    apply made_ret; unfold planted; simpl.
    destruct Hx, Hy, Hs, Ho.
    split; [reflexivity |]; split; [reflexivity |].
    split; [split; nra |]; split; [split; nra |]; split; [reflexivity |].
    right; split; [reflexivity |]; split; [split; lra |].
    split; [split; lra | reflexivity].
  - eapply made_bind;
      [apply pure_wreathShape | apply (made_wreathShape c 20 0) |].
    intros sh (Hl & Hf & Ha).
    made_draw rx Hx; made_canvas; made_draw ry Hy; made_draw rs Hs;
      made_draw ro Ho.
    apply made_ret; unfold planted; cbn [Special.static Special.active
      Special.x Special.y Special.snowLevel Special.type Special.size
      Special.opacity Special.rotation Special.shape].
    destruct Hx, Hy, Hs, Ho.
    split; [reflexivity |]; split; [reflexivity |].
    split; [split; nra |]; split; [split; nra |]; split; [reflexivity |].
    right; split; [reflexivity |]; split; [split; lra |].
    split; [split; lra |].
    split; [exact Hl |]; split; [exact Hf | exact Ha].
Qed.

(** The factory loops again, now with what each built object satisfies. *)
Lemma fill_particles_made c (mk : M Particle.t) (P : Particle.t -> Prop) n :
  pure_draw mk -> made c mk P ->
  forall w, canvas (self w) = Some c -> unit_interval (host w) ->
  exists l w',
    repeatM n (p <- mk ;; push_particle p) w = Ok tt w'
    /\ List.length l = n
    /\ Forall P l
    /\ self w' = set_particles (particles (self w) ++ l) (self w)
    /\ host w' = set_drawn (drawn (host w')) (host w).
Proof.
  intros Hmk HP; induction n as [| n IH]; intros w Hc Hu.
  - exists [], w; simpl; split; [reflexivity |]; split; [reflexivity |].
    split; [constructor |]; split.
    + rewrite app_nil_r; destruct (self w); reflexivity.
    + destruct (host w); reflexivity.
  - assert (Hc' : canvas (self w) <> None) by congruence.
    destruct (pure_run mk w Hmk Hc') as (p & w1 & E1 & Q1).
    pose (w2 := mkWorld (host w1)
                  (set_particles (particles (self w1) ++ [p]) (self w1))).
    assert (Hc2 : canvas (self w2) = Some c).
    { destruct Q1 as [Es _]; simpl; rewrite Es; exact Hc. }
    assert (Hu2 : unit_interval (host w2))
      by (apply (quiet_draws _ _ Q1 Hu)).
    destruct (IH w2 Hc2 Hu2) as (l & w' & E2 & Hl & HF & Hs & Hh).
    exists (p :: l), w'; split; [| split; [| split; [| split]]].
    + simpl.
      assert (Eb : (p <- mk ;; push_particle p) w = Ok tt w2)
        by (rewrite (bind_Ok _ _ _ _ _ E1); reflexivity).
      rewrite (bind_Ok _ _ _ _ _ Eb); exact E2.
    + simpl; rewrite Hl; reflexivity.
    + constructor; [exact (HP _ _ _ Hc Hu E1) | exact HF].
    + rewrite Hs; destruct Q1 as [Es _]; simpl; rewrite Es.
      rewrite <- app_assoc; destruct (self w); reflexivity.
    + rewrite Hh; simpl; rewrite (quiet_host _ _ _ Q1); reflexivity.
Qed.

Lemma fill_specials_made c (mk : M Special.t) (P : Special.t -> Prop) n :
  pure_draw mk -> made c mk P ->
  forall w, canvas (self w) = Some c -> unit_interval (host w) ->
  exists l w',
    repeatM n (p <- mk ;; push_special p) w = Ok tt w'
    /\ List.length l = n
    /\ Forall P l
    /\ self w' = set_specialParticles (specialParticles (self w) ++ l) (self w)
    /\ host w' = set_drawn (drawn (host w')) (host w).
Proof.
  intros Hmk HP; induction n as [| n IH]; intros w Hc Hu.
  - exists [], w; simpl; split; [reflexivity |]; split; [reflexivity |].
    split; [constructor |]; split.
    + rewrite app_nil_r; destruct (self w); reflexivity.
    + destruct (host w); reflexivity.
  - assert (Hc' : canvas (self w) <> None) by congruence.
    destruct (pure_run mk w Hmk Hc') as (p & w1 & E1 & Q1).
    pose (w2 := mkWorld (host w1)
                  (set_specialParticles (specialParticles (self w1) ++ [p])
                     (self w1))).
    assert (Hc2 : canvas (self w2) = Some c).
    { destruct Q1 as [Es _]; simpl; rewrite Es; exact Hc. }
    assert (Hu2 : unit_interval (host w2))
      by (apply (quiet_draws _ _ Q1 Hu)).
    destruct (IH w2 Hc2 Hu2) as (l & w' & E2 & Hl & HF & Hs & Hh).
    exists (p :: l), w'; split; [| split; [| split; [| split]]].
    + simpl.
      assert (Eb : (p <- mk ;; push_special p) w = Ok tt w2)
        by (rewrite (bind_Ok _ _ _ _ _ E1); reflexivity).
      rewrite (bind_Ok _ _ _ _ _ Eb); exact E2.
    + simpl; rewrite Hl; reflexivity.
    + constructor; [exact (HP _ _ _ Hc Hu E1) | exact HF].
    + rewrite Hs; destruct Q1 as [Es _]; simpl; rewrite Es.
      rewrite <- app_assoc; destruct (self w); reflexivity.
    + rewrite Hh; simpl; rewrite (quiet_host _ _ _ Q1); reflexivity.
Qed.

(** The whole build with what it makes. *)
Lemma createParticles_made b w c config :
  canvas (self w) = Some c ->
  (0 < width c)%Z -> (0 < height c)%Z ->
  unit_interval (host w) ->
  INTENSITY_CONFIG b (intensity (self w)) = Some config ->
  exists ps qs w',
    _createParticles b w = Ok tt w'
    /\ self w' = set_particles ps (set_specialParticles qs (self w))
    /\ host w' = set_drawn (drawn (host w')) (host w)
    /\ Forall (newborn config c) ps
    /\ Forall (planted b c) qs.
Proof.
  intros Hc HW HH Hu Hcfg.
  set (isMobile := lt (num (innerWidth (host w))) 768).
  pose (w0 := mkWorld (host w)
                (set_specialParticles [] (set_particles [] (self w)))).
  destruct (fill_particles_made c _ (newborn config c)
              (Z.to_nat (density isMobile (count config)))
              (pure_createParticle config)
              (made_createParticle c config HW HH) w0 Hc Hu)
    as (ps & w1 & E1 & _ & F1 & S1 & H1).
  assert (Hc1 : canvas (self w1) = Some c) by (rewrite S1; exact Hc).
  assert (Hu1 : unit_interval (host w1))
    by (unfold unit_interval; rewrite H1; exact Hu).
  destruct (fill_specials_made c _ (planted b c)
              (Z.to_nat (density isMobile (trees config)))
              (pure_createStaticTree b)
              (made_createStaticTree b c HW HH) w1 Hc1 Hu1)
    as (ts & w2 & E2 & _ & F2 & S2 & H2).
  assert (Hc2 : canvas (self w2) = Some c) by (rewrite S2; exact Hc1).
  assert (Hu2 : unit_interval (host w2))
    by (unfold unit_interval; rewrite H2; exact Hu1).
  destruct (fill_specials_made c _ (planted b c)
              (Z.to_nat (density isMobile (wreaths config)))
              (pure_createStaticWreath b)
              (made_createStaticWreath b c HW HH) w2 Hc2 Hu2)
    as (ws & w3 & E3 & _ & F3 & S3 & H3).
  exists ps, (ts ++ ws), w3.
  split; [| split; [| split; [| split]]].
  - unfold _createParticles.
    rewrite (bind_Ok this _ w (self w) w eq_refl), Hcfg.
    rewrite (bind_Ok page _ w (host w) w eq_refl).
    fold isMobile.
    rewrite (bind_Ok (assign (set_particles [])) _ w tt
               (mkWorld (host w) (set_particles [] (self w))) eq_refl).
    rewrite (bind_Ok (assign (set_specialParticles [])) _
               (mkWorld (host w) (set_particles [] (self w))) tt w0 eq_refl).
    rewrite (bind_Ok _ _ _ _ _ E1).
    rewrite (bind_Ok _ _ _ _ _ E2).
    exact E3.
  - rewrite S3, S2, S1; simpl; destruct (self w); reflexivity.
  - rewrite H3; simpl; rewrite H2; simpl; rewrite H1; reflexivity.
  - exact F1.
  - apply Forall_app; split; assumption.
Qed.

Lemma table_ranges b tier config :
  INTENSITY_CONFIG b tier = Some config ->
  (0 < fst (sizeRange config)
   /\ fst (sizeRange config) < snd (sizeRange config))
  /\ (0 < fst (speedRange config)
      /\ fst (speedRange config) < snd (speedRange config)).
Proof.
  destruct b; simpl;
    [unfold INTENSITY_CONFIG_core | unfold INTENSITY_CONFIG_accrual];
    repeat (destruct (String.eqb tier _));
    intro E; inversion E; simpl; repeat split; reflexivity.
Qed.

Lemma newborn_bands config c p :
  (0 < fst (sizeRange config)
   /\ fst (sizeRange config) < snd (sizeRange config))
  /\ (0 < fst (speedRange config)
      /\ fst (speedRange config) < snd (speedRange config)) ->
  newborn config c p ->
  (fst (sizeRange config) <= Particle.size p
   /\ Particle.size p
      <= fst (sizeRange config)
         + (snd (sizeRange config) - fst (sizeRange config)) * 1.5)
  /\ (fst (speedRange config) <= Particle.speed p
      /\ Particle.speed p
         <= fst (speedRange config)
            + (snd (speedRange config) - fst (speedRange config)) * 1.3)
  /\ (0.3 <= Particle.opacity p /\ Particle.opacity p <= 1)
  /\ (0.01 <= Particle.windSpeed p /\ Particle.windSpeed p <= 0.07)
  /\ (0.8 <= Particle.opacity p -> Particle.windSpeed p <= 0.03)
  /\ (Particle.opacity p < 0.5 -> 0.03 <= Particle.windSpeed p).
Proof.
  intros ((S0 & S1) & (V0 & V1)) (_ & _ & L & _).
  assert (Hs : 0 < snd (sizeRange config) - fst (sizeRange config)) by lra.
  assert (Hv : 0 < snd (speedRange config) - fst (speedRange config)) by lra.
  destruct L as [L | [L | L]];
    destruct L as (r1 & r2 & (A1 & A2) & (B1 & B2) & Es & Ev
                   & (O1 & O2) & (W1 & W2));
    rewrite Es, Ev;
    destruct (scaled r1 _ A1 A2 Hs); destruct (scaled r2 _ B1 B2 Hv);
    repeat split; try lra; intros; lra.
Qed.

(** X7: a build for a tier of the table, on a surface of positive width
    and height, returns, and every drift particle it makes lies within the
    width, starts above the top edge by at most one surface height, falls
    (its speed is at least the tier's minimum, which is positive), has a
    size and speed between the tier's minimum and that minimum plus the
    tier's span stretched by 1.5 and 1.3, both ends included, an opacity
    in [0.3, 1] and a wind response in [0.01, 0.07]; a particle of opacity
    0.8 or more has a wind response of at most 0.03, one of opacity below
    0.5 a wind response of at least 0.03.  The upper ends of the value
    ranges are included because a sum such as [0.8 + r * 0.2] with
    [r < 1] can round up to its limit; the bounds on the position are
    strict. *)
Theorem flakes_start_above (b : Build) (tier : string)
    (config : IntensityConfig) (w : World) (c : Canvas) :
  INTENSITY_CONFIG b tier = Some config ->
  intensity (self w) = tier ->
  canvas (self w) = Some c ->
  (0 < width c)%Z -> (0 < height c)%Z ->
  unit_interval (host w) ->
  exists w',
    _createParticles b w = Ok tt w'
    /\ Forall
         (fun p =>
            (0 <= Particle.x p /\ Particle.x p < num (width c))
            /\ (- num (height c) <= Particle.y p /\ Particle.y p < 0)
            /\ 0 < Particle.speed p
            /\ (fst (sizeRange config) <= Particle.size p
                /\ Particle.size p
                   <= fst (sizeRange config)
                      + (snd (sizeRange config) - fst (sizeRange config))
                        * 1.5)
            /\ (fst (speedRange config) <= Particle.speed p
                /\ Particle.speed p
                   <= fst (speedRange config)
                      + (snd (speedRange config) - fst (speedRange config))
                        * 1.3)
            /\ (0.3 <= Particle.opacity p /\ Particle.opacity p <= 1)
            /\ (0.01 <= Particle.windSpeed p
                /\ Particle.windSpeed p <= 0.07)
            /\ (0.8 <= Particle.opacity p -> Particle.windSpeed p <= 0.03)
            /\ (Particle.opacity p < 0.5 -> 0.03 <= Particle.windSpeed p))
         (particles (self w')).
Proof.
  intros Hcfg Hi Hc HW HH Hu; subst tier.
  destruct (createParticles_made b w c config Hc HW HH Hu Hcfg)
    as (ps & qs & w' & E & S & _ & Fp & _).
  exists w'; split; [exact E |].
  rewrite S; simpl.
  pose proof (table_ranges _ _ _ Hcfg) as Hr.
  eapply Forall_impl; [| exact Fp].
  intros p Hn.
  destruct (newborn_bands config c p Hr Hn) as (A & B & C & D & E1 & E2).
  destruct Hn as (Hx & Hy & _).
  destruct Hr as (_ & V0 & _); destruct B as [B1 B2].
  split; [exact Hx |]; split; [exact Hy |]; split; [lra |].
  split; [exact A |]; split; [split; assumption |].
  split; [exact C |]; split; [exact D |]; split; assumption.
Qed.

Lemma flakes_start_above_witness :
  exists w',
    _createParticles CoreBuild ready = Ok tt w'
    /\ Forall (fun p => Particle.y p < 0 /\ 0 < Particle.speed p)
         (particles (self w')).
Proof.
  destruct (flakes_start_above CoreBuild "medium"
              (mkConfig 150 (0.8, 2.5) (1, 4) 10 6) ready
              (mkCanvas 1024 768 true) eq_refl eq_refl eq_refl eq_refl eq_refl
              ready_draws)
    as (w' & E & F).
  exists w'; split; [exact E |].
  eapply Forall_impl; [| exact F].
  intros p (_ & (_ & Hy) & Hs & _); split; assumption.
Defined.

(** X8: the same build makes only decorations that are static and active,
    lie on the surface, and have the size and opacity band of their kind,
    both ends included (trees: size in [20, 35], opacity in [0.6, 0.9],
    upright; wreaths: size in [15, 25], opacity in [0.7, 0.9]); in the
    accrual build they start with snow level 0 and every wreath carries a
    ring of 20 segments at twentieths of a turn, with radius in
    [0.9, 1.1] and thickness in [0.2, 0.35].  The upper ends are included
    because a sum such as [20 + r * 15] with [r < 1] can round up to its
    limit. *)
Theorem decorations_are_planted (b : Build) (tier : string)
    (config : IntensityConfig) (w : World) (c : Canvas) :
  INTENSITY_CONFIG b tier = Some config ->
  intensity (self w) = tier ->
  canvas (self w) = Some c ->
  (0 < width c)%Z -> (0 < height c)%Z ->
  unit_interval (host w) ->
  exists w',
    _createParticles b w = Ok tt w'
    /\ Forall (planted b c) (specialParticles (self w')).
Proof.
  intros Hcfg Hi Hc HW HH Hu; subst tier.
  destruct (createParticles_made b w c config Hc HW HH Hu Hcfg)
    as (ps & qs & w' & E & S & _ & _ & Fq).
  exists w'; split; [exact E |].
  rewrite S; simpl; exact Fq.
Qed.

Lemma decorations_are_planted_witness :
  exists w',
    _createParticles AccrualBuild snowy = Ok tt w'
    /\ Forall (planted AccrualBuild (mkCanvas 1024 768 true))
         (specialParticles (self w')).
Proof.
  exact (decorations_are_planted AccrualBuild "medium"
           (mkConfig 150 (0.8, 2.5) (1, 4) 6 3) snowy
           (mkCanvas 1024 768 true) eq_refl eq_refl eq_refl eq_refl eq_refl
           snowy_draws).
Defined.

(** ** Drift particles over a frame *)

Lemma wrap_range c x :
  (0 <= width c)%Z -> -10 <= wrap c x /\ wrap c x <= num (width c) + 10.
Proof.
  intro HW; pose proof (num_nonneg _ HW).
  unfold wrap, gt.
  destruct (lt x (-10)) eqn:L1; [split; lra |].
  destruct (lt (num (width c) + 10) x) eqn:L2; [split; lra |].
  apply lt_false in L1; apply lt_false in L2; split; assumption.
Qed.

(** What one update keeps of a particle: everything the factory chose
    except position, wind phase and rotation. *)
Definition same_flake (p p' : Particle.t) : Prop :=
  Particle.size p' = Particle.size p
  /\ Particle.speed p' = Particle.speed p
  /\ Particle.opacity p' = Particle.opacity p
  /\ Particle.windSpeed p' = Particle.windSpeed p
  /\ Particle.rotationSpeed p' = Particle.rotationSpeed p.

(** Inside the margins: at most 10 px outside the surface on either side
    and at most 10 px below it. *)
Definition in_margins (c : Canvas) (p : Particle.t) : Prop :=
  -10 <= Particle.x p
  /\ Particle.x p <= num (width c) + 10
  /\ Particle.y p <= num (height c) + 10.

Lemma updateParticle_kept (w : World) (c : Canvas)
    (particle : Particle.t) (deltaTime : Q) :
  canvas (self w) = Some c ->
  (0 <= width c)%Z -> (0 <= height c)%Z ->
  exists p' w',
    _updateParticle particle deltaTime w = Ok p' w'
    /\ in_margins c p'
    /\ same_flake particle p'.
Proof.
  intros Hc HW HH; pose proof (num_nonneg _ HH).
  unfold _updateParticle, the_canvas, sin, this, page, Math_random, tell, ret,
    bind; simpl.
  rewrite Hc; simpl.
  destruct (gt (fallen particle deltaTime) (num (height c) + 10)) eqn:G;
    simpl; eexists; eexists; (split; [reflexivity |]);
    unfold in_margins, same_flake; simpl;
    destruct (wrap_range c
                (randoms (host w) (drawn (host w)) * num (width c)) HW);
    destruct (wrap_range c
                (drifted
                   (Math_sin (host w)
                      (Particle.windOffset particle
                       + Particle.windSpeed particle
                         * normalizedDelta deltaTime))
                   (windGust (self w)) particle deltaTime) HW);
    repeat split; try assumption; try reflexivity; try lra.
  apply lt_false in G; exact G.
Qed.

(** X9: whatever the particle and the elapsed time, on a surface of
    non-negative size one update returns and leaves the particle within
    10 px of the surface horizontally and at most 10 px below it, with its
    size, speed, opacity, wind response and rotation rate unchanged; the
    effect object itself is not touched by the update. *)
Theorem flake_stays_in_margins (w : World) (c : Canvas)
    (particle : Particle.t) (deltaTime : Q) :
  canvas (self w) = Some c ->
  (0 <= width c)%Z -> (0 <= height c)%Z ->
  exists p' w',
    _updateParticle particle deltaTime w = Ok p' w'
    /\ in_margins c p'
    /\ same_flake particle p'
    /\ self w' = self w.
Proof.
  intros Hc HW HH.
  destruct (updateParticle_kept w c particle deltaTime Hc HW HH)
    as (p' & w' & E & Hm & Hs).
  exists p', w'; split; [exact E |]; split; [exact Hm |].
  split; [exact Hs |].
  pose proof (proj1 (pure_updateParticle particle deltaTime) w) as Q.
  rewrite E in Q; exact (proj1 Q).
Qed.

Lemma flake_stays_in_margins_witness :
  exists p' w',
    _updateParticle corner_flake (1000 / 60) gusty = Ok p' w'
    /\ in_margins (mkCanvas 1024 768 true) p'.
Proof.
  destruct (flake_stays_in_margins gusty (mkCanvas 1024 768 true) corner_flake
              (1000 / 60) eq_refl)
    as (p' & w' & E & Hm & _ & _).
  - discriminate.
  - discriminate.
  - exists p', w'; split; assumption.
Defined.

(** [mapM] over a list, with a fact per element and a fact about the
    world that every step keeps. *)
Lemma mapM_Forall2 {A B} (f : A -> M B) (I : World -> Prop)
    (R : A -> B -> Prop) :
  (forall a w b w', I w -> f a w = Ok b w' -> R a b /\ I w') ->
  forall xs w ys w',
    I w -> mapM f xs w = Ok ys w' -> Forall2 R xs ys /\ I w'.
Proof.
  intros Hf; induction xs as [| a xs IH]; intros w ys w' Hi E.
  - inversion E; subst; split; [constructor | exact Hi].
  - simpl in E.
    apply bind_inv in E; destruct E as (b & w1 & E1 & E).
    apply bind_inv in E; destruct E as (bs & w2 & E2 & E).
    inversion E; subst.
    destruct (Hf a w b w1 Hi E1) as [Hr Hi1].
    destruct (IH w1 bs w' Hi1 E2) as [Hrs Hi2].
    split; [constructor; assumption | exact Hi2].
Qed.


(** ** The fall does not depend on the frame rate *)

Lemma normalizedDelta_linear deltaTime :
  normalizedDelta deltaTime == deltaTime * (60 # 1000).
Proof. unfold normalizedDelta; field. Qed.

Lemma updateParticle_glides w c particle deltaTime :
  canvas (self w) = Some c ->
  fallen particle deltaTime <= num (height c) + 10 ->
  exists p',
    _updateParticle particle deltaTime w = Ok p' w
    /\ Particle.y p' = fallen particle deltaTime
    /\ Particle.speed p' = Particle.speed particle
    /\ Particle.rotation p'
       = Particle.rotation particle
         + Particle.rotationSpeed particle * normalizedDelta deltaTime
    /\ Particle.rotationSpeed p' = Particle.rotationSpeed particle
    /\ Particle.windOffset p'
       = Particle.windOffset particle
         + Particle.windSpeed particle * normalizedDelta deltaTime
    /\ Particle.windSpeed p' = Particle.windSpeed particle.
Proof.
  intros Hc Hy.
  assert (G : gt (fallen particle deltaTime) (num (height c) + 10) = false)
    by (apply lt_false; exact Hy).
  unfold _updateParticle, the_canvas, sin, this, page, Math_random, tell, ret,
    bind; simpl.
  rewrite Hc, G; simpl.
  eexists; split; [destruct w; reflexivity |]; repeat split.
Qed.

(** X29: the fall of a drift particle depends on the elapsed time, not on
    how it is cut into frames.  As long as the particle is not recycled at
    the bottom, two updates with elapsed times [d1] and [d2] leave it at
    the same height, rotation and wind phase as one update with
    [d1 + d2]; in 1000/60 ms it falls by exactly its [speed]. *)
Theorem fall_is_frame_rate_independent (w : World) (c : Canvas)
    (particle : Particle.t) (d1 d2 : Q) :
  canvas (self w) = Some c ->
  fallen particle d1 <= num (height c) + 10 ->
  fallen particle (d1 + d2) <= num (height c) + 10 ->
  exists p1 p2 p12,
    _updateParticle particle d1 w = Ok p1 w
    /\ _updateParticle p1 d2 w = Ok p2 w
    /\ _updateParticle particle (d1 + d2) w = Ok p12 w
    /\ Particle.y p2 == Particle.y p12
    /\ Particle.rotation p2 == Particle.rotation p12
    /\ Particle.windOffset p2 == Particle.windOffset p12
    /\ fallen particle (1000 / 60)
       == Particle.y particle + Particle.speed particle.
Proof.
  intros Hc H1 H12.
  destruct (updateParticle_glides w c particle d1 Hc H1)
    as (p1 & E1 & Y1 & S1 & R1 & RS1 & W1 & WS1).
  destruct (updateParticle_glides w c particle (d1 + d2) Hc H12)
    as (p12 & E12 & Y12 & _ & R12 & _ & W12 & _).
  pose proof (normalizedDelta_linear d1) as N1.
  pose proof (normalizedDelta_linear d2) as N2.
  pose proof (normalizedDelta_linear (d1 + d2)) as N12.
  assert (Hsum : fallen p1 d2 == fallen particle (d1 + d2)).
  { unfold fallen; rewrite Y1, S1; unfold fallen.
    rewrite N1, N2, N12; ring. }
  assert (H2 : fallen p1 d2 <= num (height c) + 10)
    by (rewrite Hsum; exact H12).
  destruct (updateParticle_glides w c p1 d2 Hc H2)
    as (p2 & E2 & Y2 & _ & R2 & _ & W2 & _).
  exists p1, p2, p12.
  split; [exact E1 |]; split; [exact E2 |]; split; [exact E12 |].
  split; [rewrite Y2, Y12; exact Hsum |]; split; [| split].
  - rewrite R2, R12, R1, RS1, N1, N2, N12; ring.
  - rewrite W2, W12, W1, WS1, N1, N2, N12; ring.
  - unfold fallen; rewrite normalizedDelta_linear; field.
Qed.

Lemma fall_is_frame_rate_independent_witness :
  exists p1 p2 p12,
    _updateParticle flake 8 ready = Ok p1 ready
    /\ _updateParticle p1 8 ready = Ok p2 ready
    /\ _updateParticle flake (8 + 8) ready = Ok p12 ready
    /\ Particle.y p2 == Particle.y p12.
Proof.
  destruct (fall_is_frame_rate_independent ready (mkCanvas 1024 768 true)
              flake 8 8 eq_refl)
    as (p1 & p2 & p12 & E1 & E2 & E12 & Hy & _).
  - vm_compute; discriminate.
  - vm_compute; discriminate.
  - exists p1, p2, p12.
    split; [exact E1 |]; split; [exact E2 |]; split; [exact E12 | exact Hy].
Defined.

(** ** Sleighs and elves *)

(** A sprite as [_spawnSpecialParticle] makes it: a sleigh in the upper
    half or, in the accrual build, an elf 30 px above the bottom; it starts
    beyond the edge it enters by and heads for the other one.  The ranges
    of speed, amplitude and size include both ends: a sum such as
    [3 + r * 2] with [r < 1] can round up to its limit. *)
Definition entering (b : Build) (c : Canvas) (p : Special.t) : Prop :=
  Special.static p = false
  /\ Special.active p = true
  /\ Special.time p = 0
  /\ Special.y p = Special.baseY p
  /\ ((Special.type p = sleigh
       /\ (0 <= Special.baseY p /\ Special.baseY p <= num (height c) * 0.5)
       /\ ((Special.x p = -100 /\ 3 <= Special.vx p /\ Special.vx p <= 5)
           \/ (Special.x p = num (width c) + 100
               /\ -5 <= Special.vx p /\ Special.vx p <= -3))
       /\ (20 <= Special.waveAmplitude p /\ Special.waveAmplitude p <= 50)
       /\ (15 <= Special.size p /\ Special.size p <= 25))
      \/ (b = AccrualBuild
          /\ Special.type p = elf
          /\ Special.baseY p = num (height c) - 30
          /\ ((Special.x p = -50
               /\ 1.5 <= Special.vx p /\ Special.vx p <= 2.5)
              \/ (Special.x p = num (width c) + 50
                  /\ -2.5 <= Special.vx p /\ Special.vx p <= -1.5))
          /\ Special.waveAmplitude p = 3
          /\ (10 <= Special.size p /\ Special.size p <= 15))).

Lemma spawn_sleigh_spec b w c :
  canvas (self w) = Some c -> (0 <= height c)%Z -> unit_interval (host w) ->
  exists p w',
    spawn_sleigh w = Ok tt w'
    /\ self w' = set_specialParticles (specialParticles (self w) ++ [p]) (self w)
    /\ host w' = set_drawn (drawn (host w')) (host w)
    /\ entering b c p.
Proof.
  intros Hc HH Hu; pose proof (num_nonneg _ HH).
  unfold spawn_sleigh, push_special, the_canvas, Math_random, this, page,
    tell, assign, TypeError, ret, bind; simpl.
  rewrite Hc; simpl.
  eexists; eexists; split; [reflexivity |].
  split; [reflexivity |]; split; [reflexivity |].
  unfold entering; simpl.
  pose proof (Hu (drawn (host w))) as [? ?].
  pose proof (Hu (S (drawn (host w)))) as [? ?].
  pose proof (Hu (S (S (drawn (host w))))) as [? ?].
  pose proof (Hu (S (S (S (drawn (host w)))))) as [? ?].
  pose proof (Hu (S (S (S (S (S (S (drawn (host w))))))))) as [? ?].
  split; [reflexivity |]; split; [reflexivity |]; split; [reflexivity |].
  split; [reflexivity |]; left.
  split; [reflexivity |]; split; [split; nra |]; split.
  - destruct (lt (randoms (host w) (drawn (host w))) 0.5);
      [left | right]; (split; [reflexivity | split; lra]).
  - split; split; lra.
Qed.

Lemma spawn_elf_spec w c :
  canvas (self w) = Some c -> unit_interval (host w) ->
  exists p w',
    spawn_elf w = Ok tt w'
    /\ self w' = set_specialParticles (specialParticles (self w) ++ [p]) (self w)
    /\ host w' = set_drawn (drawn (host w')) (host w)
    /\ entering AccrualBuild c p.
Proof.
  intros Hc Hu.
  unfold spawn_elf, push_special, the_canvas, Math_random, this, page,
    tell, assign, TypeError, ret, bind; simpl.
  rewrite Hc; simpl.
  eexists; eexists; split; [reflexivity |].
  split; [reflexivity |]; split; [reflexivity |].
  unfold entering; simpl.
  pose proof (Hu (S (drawn (host w)))) as [? ?].
  pose proof (Hu (S (S (S (drawn (host w)))))) as [? ?].
  split; [reflexivity |]; split; [reflexivity |]; split; [reflexivity |].
  split; [reflexivity |]; right.
  split; [reflexivity |]; split; [reflexivity |]; split; [reflexivity |].
  split; [| split; [reflexivity | split; lra]].
  destruct (lt (randoms (host w) (drawn (host w))) 0.5);
    [left | right]; (split; [reflexivity | split; lra]).
Qed.

Lemma spawn_nothing w :
  exists l,
    l = @nil Special.t
    /\ self w = set_specialParticles (specialParticles (self w) ++ l) (self w)
    /\ host w = set_drawn (drawn (host w)) (host w).
Proof.
  exists []; split; [reflexivity |]; split.
  - rewrite app_nil_r; destruct (self w); reflexivity.
  - destruct (host w); reflexivity.
Qed.

Lemma drawn_once w w1 w2 :
  host w1 = set_drawn (S (drawn (host w))) (host w) ->
  host w2 = set_drawn (drawn (host w2)) (host w1) ->
  host w2 = set_drawn (drawn (host w2)) (host w).
Proof. intros E1 E2; rewrite E2, E1; reflexivity. Qed.

Lemma spawn_spec b w c :
  canvas (self w) = Some c -> (0 <= height c)%Z -> unit_interval (host w) ->
  exists l w',
    spawn b w = Ok tt w'
    /\ self w' = set_specialParticles (specialParticles (self w) ++ l) (self w)
    /\ host w' = set_drawn (drawn (host w')) (host w)
    /\ (List.length l <= 1)%nat
    /\ Forall (entering b c) l.
Proof.
  intros Hc HH Hu.
  pose (w1 := mkWorld (set_drawn (S (drawn (host w))) (host w)) (self w)).
  assert (Hc1 : canvas (self w1) = Some c) by exact Hc.
  assert (Hu1 : unit_interval (host w1)) by exact Hu.
  assert (Hnone : exists l w',
             Ok tt w1 = Ok tt w'
             /\ self w' = set_specialParticles (specialParticles (self w) ++ l) (self w)
             /\ host w' = set_drawn (drawn (host w')) (host w)
             /\ (List.length l <= 1)%nat
             /\ Forall (entering b c) l).
  { destruct (spawn_nothing w) as (l & -> & Hs & _).
    exists [], w1; split; [reflexivity |]; split; [exact Hs |].
    split; [reflexivity |]; split; [simpl; lia | constructor]. }
  assert (Hsl : forall b', b' = b -> exists l w',
             spawn_sleigh w1 = Ok tt w'
             /\ self w' = set_specialParticles (specialParticles (self w) ++ l) (self w)
             /\ host w' = set_drawn (drawn (host w')) (host w)
             /\ (List.length l <= 1)%nat
             /\ Forall (entering b c) l).
  { intros b' _.
    destruct (spawn_sleigh_spec b w1 c Hc1 HH Hu1) as (p & w' & E & Hs & Hh & He).
    exists [p], w'; split; [exact E |]; split; [exact Hs |].
    split; [exact (drawn_once w w1 w' eq_refl Hh) |].
    split; [simpl; lia | constructor; [exact He | constructor]]. }
  destruct b; unfold spawn, _spawnSpecialParticle.
  - rewrite (bind_Ok Math_random _ w (randoms (host w) (drawn (host w))) w1
               eq_refl).
    destruct (lt (randoms (host w) (drawn (host w))) 0.0005);
      [apply (Hsl CoreBuild eq_refl) | exact Hnone].
  - rewrite (bind_Ok Math_random _ w (randoms (host w) (drawn (host w))) w1
               eq_refl).
    destruct (lt (randoms (host w) (drawn (host w))) 0.0005);
      [apply (Hsl AccrualBuild eq_refl) |].
    destruct (lt (randoms (host w) (drawn (host w))) 0.0008);
      [| exact Hnone].
    destruct (spawn_elf_spec w1 c Hc1 Hu1) as (p & w' & E & Hs & Hh & He).
    exists [p], w'; split; [exact E |]; split; [exact Hs |].
    split; [exact (drawn_once w w1 w' eq_refl Hh) |].
    split; [simpl; lia | constructor; [exact He | constructor]].
Qed.

(** X10: on a surface, with draws in [0, 1), the spawn step of a frame
    returns, leaves the drift particles and every entry already in the
    list alone, and appends at most one sprite.  The sprite is a moving,
    active sleigh in the upper half or (accrual build only) an elf 30 px
    above the bottom edge; it starts outside the surface, 100 px (sleigh)
    or 50 px (elf) beyond the edge, and its velocity points inwards, with
    a speed in [3, 5] (sleigh) or [1.5, 2.5] (elf).  A sleigh has a wave
    amplitude in [20, 50] and a size in [15, 25], an elf the amplitude 3
    and a size in [10, 15]; all these ranges include both ends. *)
Theorem sprites_enter_from_outside (b : Build) (w : World) (c : Canvas) :
  canvas (self w) = Some c ->
  (0 <= height c)%Z ->
  unit_interval (host w) ->
  exists l w',
    spawn b w = Ok tt w'
    /\ particles (self w') = particles (self w)
    /\ specialParticles (self w') = specialParticles (self w) ++ l
    /\ (List.length l <= 1)%nat
    /\ Forall (entering b c) l
    /\ (b = CoreBuild -> Forall (fun p => Special.type p = sleigh) l).
Proof.
  intros Hc HH Hu.
  destruct (spawn_spec b w c Hc HH Hu) as (l & w' & E & Hs & _ & Hl & He).
  exists l, w'; split; [exact E |].
  split; [rewrite Hs; reflexivity |]; split; [rewrite Hs; reflexivity |].
  split; [exact Hl |]; split; [exact He |].
  intros ->; revert He; apply Forall_impl.
  intros p (_ & _ & _ & _ & [(Ht & _) | (Hb & _)]); [exact Ht | discriminate].
Qed.

Lemma sprites_enter_from_outside_witness :
  exists l w',
    spawn AccrualBuild snowy = Ok tt w'
    /\ Forall (entering AccrualBuild (mkCanvas 1024 768 true)) l.
Proof.
  destruct (sprites_enter_from_outside AccrualBuild snowy
              (mkCanvas 1024 768 true) eq_refl)
    as (l & w' & E & _ & _ & _ & He & _).
  - discriminate.
  - exact frosty_draws.
  - exists l, w'; split; assumption.
Defined.

(** How far beyond the edge a sprite may fly before it is marked
    inactive. *)
Definition offscreenMargin (type : SpecialType) : Q :=
  match type with sleigh => 200 | _ => 100 end.

(** The fields of a sprite that its update leaves alone. *)
Definition same_sprite (p p' : Special.t) : Prop :=
  Special.type p' = Special.type p
  /\ Special.static p' = Special.static p
  /\ Special.vx p' = Special.vx p
  /\ Special.baseY p' = Special.baseY p
  /\ Special.waveAmplitude p' = Special.waveAmplitude p
  /\ Special.waveFrequency p' = Special.waveFrequency p
  /\ Special.wavePhase p' = Special.wavePhase p
  /\ Special.size p' = Special.size p
  /\ Special.opacity p' = Special.opacity p
  /\ Special.snowLevel p' = Special.snowLevel p.

Lemma fly_spec c margin p w :
  0 <= Special.waveAmplitude p ->
  (forall a, -1 <= Math_sin (host w) a /\ Math_sin (host w) a <= 1) ->
  exists p',
    fly c margin p w = Ok p' w
    /\ Special.x p' = Special.x p
    /\ Special.time p' = Special.time p
    /\ (Special.baseY p - Special.waveAmplitude p <= Special.y p'
        /\ Special.y p' <= Special.baseY p + Special.waveAmplitude p)
    /\ (Special.active p' = true
        <-> Special.active p = true
            /\ - margin <= Special.x p
            /\ Special.x p <= num (width c) + margin)
    /\ same_sprite p p'.
Proof.
  intros Ha Hsin.
  destruct (Hsin (Special.time p * Special.waveFrequency p
                  + Special.wavePhase p)) as [Hlo Hhi].
  unfold fly, sin, page, ret, bind; simpl.
  destruct (lt (Special.x p) (- margin)) eqn:L1; simpl.
  - apply lt_true in L1.
    eexists; split; [reflexivity |]; simpl.
    split; [reflexivity |]; split; [reflexivity |]; split; [split; nra |].
    split; [| repeat split].
    split; [discriminate | intros (_ & G & _); lra].
  - apply lt_false in L1.
    destruct (gt (Special.x p) (num (width c) + margin)) eqn:L2; simpl.
    + apply lt_true in L2.
      eexists; split; [reflexivity |]; simpl.
      split; [reflexivity |]; split; [reflexivity |]; split; [split; nra |].
      split; [| repeat split].
      split; [discriminate | intros (_ & _ & G); lra].
    + apply lt_false in L2.
      eexists; split; [reflexivity |]; simpl.
      split; [reflexivity |]; split; [reflexivity |]; split; [split; nra |].
      split; [| repeat split].
      split; [intro G; repeat split; assumption | intros (G & _); exact G].
Qed.


(** X11: a moving sleigh (or, in the accrual build, a moving elf) with a
    non-negative wave amplitude, on a page whose sine stays in [-1, 1]:
    one update returns without touching the world, moves the sprite
    horizontally by [vx] per 60 Hz frame, advances its clock by the elapsed
    time, keeps its height within one amplitude of its base line, and
    leaves it active exactly when it was active and is no further than its
    margin (200 px for a sleigh, 100 px for an elf) beyond either edge. *)
Theorem sprite_flight (b : Build) (w : World) (c : Canvas) (p : Special.t)
    (deltaTime : Q) :
  canvas (self w) = Some c ->
  Special.static p = false ->
  Special.type p = sleigh \/ (b = AccrualBuild /\ Special.type p = elf) ->
  0 <= Special.waveAmplitude p ->
  (forall a, -1 <= Math_sin (host w) a /\ Math_sin (host w) a <= 1) ->
  exists p',
    _updateSpecialParticle b p deltaTime w = Ok p' w
    /\ Special.x p'
       = Special.x p + Special.vx p * normalizedDelta deltaTime
    /\ Special.time p' = Special.time p + deltaTime
    /\ (Special.baseY p - Special.waveAmplitude p <= Special.y p'
        /\ Special.y p' <= Special.baseY p + Special.waveAmplitude p)
    /\ (Special.active p' = true
        <-> Special.active p = true
            /\ - offscreenMargin (Special.type p) <= Special.x p'
            /\ Special.x p' <= num (width c) + offscreenMargin (Special.type p))
    /\ same_sprite p p'.
Proof.
  intros Hc Hst Hty Ha Hsin.
  assert (Hfly : forall margin,
             exists p',
               fly c margin
                 (Special.set_time (Special.time p + deltaTime)
                    (Special.set_x
                       (Special.x p + Special.vx p * normalizedDelta deltaTime)
                       p)) w = Ok p' w
               /\ Special.x p'
                  = Special.x p + Special.vx p * normalizedDelta deltaTime
               /\ Special.time p' = Special.time p + deltaTime
               /\ (Special.baseY p - Special.waveAmplitude p <= Special.y p'
                   /\ Special.y p' <= Special.baseY p + Special.waveAmplitude p)
               /\ (Special.active p' = true
                   <-> Special.active p = true
                       /\ - margin <= Special.x p'
                       /\ Special.x p' <= num (width c) + margin)
               /\ same_sprite p p').
  { intro margin.
    destruct (fly_spec c margin
                (Special.set_time (Special.time p + deltaTime)
                   (Special.set_x
                      (Special.x p + Special.vx p * normalizedDelta deltaTime)
                      p)) w Ha Hsin)
      as (p' & E & Hx & Ht & Hy & Hact & Hsame).
    exists p'; split; [exact E |].
    split; [exact Hx |]; split; [exact Ht |]; split; [exact Hy |].
    split; [rewrite Hx; exact Hact | exact Hsame]. }
  assert (Hcv : the_canvas w = Ok c w).
  { unfold the_canvas, this, ret, bind; simpl; rewrite Hc; reflexivity. }
  unfold _updateSpecialParticle; rewrite Hst.
  destruct b; destruct Hty as [Hty | [Hb Hty]]; try discriminate;
    cbv zeta; cbn [Special.type Special.set_time Special.set_x];
    rewrite Hty; rewrite (bind_Ok the_canvas _ w c w Hcv); apply Hfly.
Qed.

(** A sleigh that has just entered from the left. *)
Definition fresh_sleigh : Special.t :=
  Special.mk sleigh (-100) 100 100 4 30 0.002 0 0 20 0.9 0 true false [] None.

Lemma sprite_flight_witness :
  exists p',
    _updateSpecialParticle CoreBuild fresh_sleigh (1000 / 60) ready
    = Ok p' ready
    /\ Special.x p' = -100 + 4 * normalizedDelta (1000 / 60)
    /\ (Special.active p' = true
        <-> true = true
            /\ - offscreenMargin sleigh <= Special.x p'
            /\ Special.x p' <= num 1024 + offscreenMargin sleigh).
Proof.
  destruct (sprite_flight CoreBuild ready (mkCanvas 1024 768 true)
              fresh_sleigh (1000 / 60) eq_refl eq_refl (or_introl eq_refl))
    as (p' & E & Hx & _ & _ & Hact & _).
  - discriminate.
  - intro a; vm_compute; split; discriminate.
  - exists p'; split; [exact E |]; split; [exact Hx | exact Hact].
Defined.

(** ** The population stays where it belongs *)

(** A computation is still when it keeps the canvas, the tier, both
    collections, the random source and the viewport. *)
Definition still (w w' : World) : Prop :=
  canvas (self w') = canvas (self w)
  /\ intensity (self w') = intensity (self w)
  /\ particles (self w') = particles (self w)
  /\ specialParticles (self w') = specialParticles (self w)
  /\ randoms (host w') = randoms (host w)
  /\ innerWidth (host w') = innerWidth (host w)
  /\ innerHeight (host w') = innerHeight (host w).

Lemma still_refl w : still w w.
Proof. repeat split. Qed.

Lemma still_trans a b c : still a b -> still b c -> still a c.
Proof.
  intros (A1 & A2 & A3 & A4 & A5 & A6 & A7) (B1 & B2 & B3 & B4 & B5 & B6 & B7).
  unfold still; repeat split; congruence.
Qed.

Ltac still_steps :=
  repeat first
    [ apply (within_ret still still_refl)
    | apply (within_this still still_refl)
    | apply (within_page still still_refl)
    | apply (within_TypeError still still_refl)
    | match goal with
      | |- within still (bind _ _) =>
          apply (within_bind still still_trans); [| intros ?]
      | |- within still (assign _) => intros ?; repeat split
      | |- within still (tell _) => intros ?; repeat split
      | |- within still (if ?c then _ else _) => destruct c
      | |- within still (match ?x with _ => _ end) => destruct x
      | |- within still ?m => let h := head_of m in unfold h
      end ].

Lemma still_start : within still start.
Proof. still_steps. Qed.

Lemma still_pause : within still pause.
Proof. still_steps. Qed.

Lemma still_shouldDisplay : within still shouldDisplay.
Proof. still_steps. Qed.

Lemma still_handleResize : within still _handleResize.
Proof. still_steps. Qed.

Lemma still_visibilitychange hid : within still (visibilitychange hid).
Proof. still_steps. Qed.

Lemma still_update_wind currentTime : within still (update_wind currentTime).
Proof. still_steps. Qed.


(** The snow on a decoration: none in the core build, between nothing and
    30% of the size in the accrual build. *)
Definition snow_capped (b : Build) (p : Special.t) : Prop :=
  match b with
  | CoreBuild => Special.snowLevel p = None
  | AccrualBuild =>
      exists s,
        Special.snowLevel p = Some s /\ 0 <= s /\ s <= Special.size p * 0.3
  end.

(** An entry of [specialParticles] in its place: active, and either a
    static tree or wreath on the surface with its snow under the cap, or a
    moving sleigh (an elf only in the accrual build). *)
Definition settled (b : Build) (c : Canvas) (p : Special.t) : Prop :=
  Special.active p = true
  /\ ((Special.static p = true
       /\ (Special.type p = tree \/ Special.type p = wreath)
       /\ (0 <= Special.x p /\ Special.x p < num (width c))
       /\ (0 <= Special.y p /\ Special.y p < num (height c))
       /\ snow_capped b p)
      \/ (Special.static p = false
          /\ (Special.type p = sleigh
              \/ (b = AccrualBuild /\ Special.type p = elf)))).

(** A sprite: moving and active, a sleigh or (accrual build) an elf. *)
Definition sprite (b : Build) (p : Special.t) : Prop :=
  Special.active p = true
  /\ Special.static p = false
  /\ (Special.type p = sleigh \/ (b = AccrualBuild /\ Special.type p = elf)).

Lemma sprite_settled b c p : sprite b p -> settled b c p.
Proof.
  intros (Ha & Hs & Ht); split; [exact Ha | right; split; assumption].
Qed.

Lemma entering_sprite b c p : entering b c p -> sprite b p.
Proof.
  intros (Hs & Ha & _ & _ & [(Ht & _) | (Hb & Ht & _)]);
    (split; [exact Ha |]); (split; [exact Hs |]); [left | right]; auto.
Qed.

Lemma planted_settled b c p : planted b c p -> settled b c p.
Proof.
  intros (Hs & Ha & Hx & Hy & Hsnow & Hty).
  split; [exact Ha |]; left; split; [exact Hs |].
  assert (Hsize : 15 <= Special.size p).
  { destruct Hty as [(_ & (? & _) & _) | (_ & (? & _) & _)]; lra. }
  split; [destruct Hty as [(T & _) | (T & _)]; auto |].
  split; [exact Hx |]; split; [exact Hy |].
  destruct b; simpl; [exact Hsnow |].
  exists 0; split; [exact Hsnow |]; split; lra.
Qed.

Lemma newborn_in_margins config c p : newborn config c p -> in_margins c p.
Proof.
  intros ((? & ?) & (? & ?) & _); unfold in_margins.
  assert (0 <= num (height c)) by lra.
  repeat split; lra.
Qed.

(** The page an effect can live on: draws in [0, 1) and a viewport of
    positive size. *)
Definition sane_page (s : Host) : Prop :=
  unit_interval s /\ (0 < innerWidth s)%Z /\ (0 < innerHeight s)%Z.

(** While there is a canvas, it has a positive size, every drift particle
    is within its margins and every decoration and sprite is in place. *)
Definition tidy (b : Build) (w : World) : Prop :=
  forall c,
    canvas (self w) = Some c ->
    (0 < width c)%Z /\ (0 < height c)%Z
    /\ Forall (in_margins c) (particles (self w))
    /\ Forall (settled b c) (specialParticles (self w)).

(** The tier is in the table, or nothing was ever built: no drift
    particles, and only sprites. *)
Definition stocked (b : Build) (w : World) : Prop :=
  INTENSITY_CONFIG b (intensity (self w)) <> None
  \/ (particles (self w) = []
      /\ Forall (sprite b) (specialParticles (self w))).

Definition healthy (b : Build) (w : World) : Prop :=
  sane_page (host w) /\ tidy b w /\ stocked b w.

(** Resizes to a viewport of positive size. *)
Definition sane_event (ev : Event) : Prop :=
  match ev with
  | Resize w h => (0 < w)%Z /\ (0 < h)%Z
  | _ => True
  end.

Lemma still_healthy b w w' : still w w' -> healthy b w -> healthy b w'.
Proof.
  intros (Hc & Hi & Hp & Hs & Hr & HW & HH) ((Hu & ? & ?) & Ht & Hk).
  unfold healthy, sane_page, tidy, stocked, unit_interval.
  rewrite Hc, Hi, Hp, Hs, Hr, HW, HH; auto.
Qed.

Lemma within_healthy {A} b (m : M A) w :
  within still m -> healthy b w -> healthy b (after (m w)).
Proof. intro Hm; apply still_healthy, Hm. Qed.

(** What a draw leaves of the page. *)
Lemma drawn_sane s s' n : s' = set_drawn n s -> sane_page s -> sane_page s'.
Proof. intros -> H; exact H. Qed.

(** Reasoning through a bind, whether the first part returns or raises. *)
Lemma after_bind {A B} (P : World -> Prop) (m : M A) (k : A -> M B) w :
  (forall w1, m w = Throw w1 -> P w1) ->
  (forall a w1, m w = Ok a w1 -> P (after (k a w1))) ->
  P (after (bind m k w)).
Proof.
  intros Ht Hk; unfold bind; destruct (m w) as [a w1 | w1]; simpl; auto.
Qed.

(** A rebuild of the population on a canvas of positive size. *)
Lemma createParticles_healthy b w c :
  canvas (self w) = Some c ->
  (0 < width c)%Z -> (0 < height c)%Z ->
  sane_page (host w) ->
  stocked b w ->
  healthy b (after (_createParticles b w))
  /\ (returns (_createParticles b w) = true
      <-> INTENSITY_CONFIG b (intensity (self w)) <> None).
Proof.
  intros Hc HW HH Hsane Hk.
  destruct (INTENSITY_CONFIG b (intensity (self w))) as [config |] eqn:Hcfg.
  - destruct Hsane as (Hu & Hiw & Hih).
    destruct (createParticles_made b w c config Hc HW HH Hu Hcfg)
      as (ps & qs & w' & E & Hs & Hh & Hps & Hqs).
    rewrite E; simpl; split; [| split; [discriminate | reflexivity]].
    split; [| split].
    + apply (drawn_sane (host w) (host w') _ Hh).
      exact (conj Hu (conj Hiw Hih)).
    + intros c' Hc'; rewrite Hs in Hc'; simpl in Hc'.
      rewrite Hc in Hc'; inversion Hc'; subst c'.
      split; [exact HW |]; split; [exact HH |]; rewrite Hs; simpl; split.
      * revert Hps; apply Forall_impl; intro p; apply newborn_in_margins.
      * revert Hqs; apply Forall_impl; intro p; apply planted_settled.
    + left; rewrite Hs; simpl; rewrite Hcfg; discriminate.
  - assert (E : _createParticles b w = Throw w).
    { unfold _createParticles.
      rewrite (bind_Ok this _ w (self w) w eq_refl), Hcfg; reflexivity. }
    rewrite E; simpl; split; [| split; [discriminate | congruence]].
    destruct Hk as [Hk | (Hp & Hs)]; [rewrite Hcfg in Hk; congruence |].
    split; [exact Hsane |]; split; [| right; split; assumption].
    intros c' Hc'; rewrite Hc in Hc'; inversion Hc'; subst c'.
    split; [exact HW |]; split; [exact HH |]; rewrite Hp; split;
      [constructor |].
    revert Hs; apply Forall_impl; intro p; apply sprite_settled.
Qed.

(** What an update keeps of any entry of [specialParticles]: whether it
    is static, its type, and for a static one its place and size, with
    the snow still under the cap. *)
Definition same_kind (b : Build) (p p' : Special.t) : Prop :=
  Special.static p' = Special.static p
  /\ Special.type p' = Special.type p
  /\ (Special.static p = true ->
      Special.active p' = Special.active p
      /\ Special.x p' = Special.x p
      /\ Special.y p' = Special.y p
      /\ Special.size p' = Special.size p
      /\ (snow_capped b p -> snow_capped b p')).

Lemma fly_kind b c margin p w p' w' :
  Special.static p = false ->
  fly c margin p w = Ok p' w' -> same_kind b p p'.
Proof.
  intros Hst; unfold fly, sin, page, ret, bind; simpl.
  destruct (lt (Special.x p) (- margin)
            || gt (Special.x p) (num (width c) + margin));
    intro E; inversion E; subst; unfold same_kind; simpl;
    (split; [reflexivity |]); (split; [reflexivity |]); congruence.
Qed.

Lemma updateSpecialParticle_kind b p deltaTime w p' w' :
  unit_interval (host w) ->
  _updateSpecialParticle b p deltaTime w = Ok p' w' ->
  same_kind b p p'.
Proof.
  intros Hu E.
  assert (Hid : same_kind b p p).
  { split; [reflexivity |]; split; [reflexivity |]; intros _.
    repeat split; auto. }
  unfold _updateSpecialParticle in E.
  destruct (Special.static p) eqn:Hst.
  - destruct b.
    + inversion E; subst; exact Hid.
    + revert E; unfold Math_random, page, tell, ret, bind; simpl.
      destruct (lt (randoms (host w) (drawn (host w))) 0.0005);
        intro E; inversion E; subst; [| exact Hid].
      split; [reflexivity |]; split; [reflexivity |]; intros _.
      split; [reflexivity |]; split; [reflexivity |].
      split; [reflexivity |]; split; [reflexivity |].
      intros (s & Hs & H0 & Hcap); unfold accrue; simpl; rewrite Hs.
      destruct (Hu (S (drawn (host w)))) as [Hr _].
      eexists; split; [reflexivity |]; split.
      * apply Q.min_glb; lra.
      * apply Q.le_min_r.
  - assert (Hmoving : forall q,
               Special.static q = false ->
               Special.type q = Special.type p ->
               same_kind b p q).
    { intros q Hq Ht; split; [congruence |]; split; [exact Ht |].
      congruence. }
    assert (Hfly : forall margin q,
               Special.static q = false ->
               Special.type q = Special.type p ->
               bind the_canvas (fun c => fly c margin q) w = Ok p' w' ->
               same_kind b p p').
    { intros margin q Hq Ht E'.
      apply bind_inv in E'; destruct E' as (c & w1 & _ & E').
      destruct (fly_kind b c margin q w1 p' w' Hq E') as (K1 & K2 & _).
      apply Hmoving; congruence. }
    destruct b; cbv zeta in E;
      cbn [Special.type Special.set_time Special.set_x] in E;
      destruct (Special.type p) eqn:Hty;
      try (inversion E; subst; apply Hmoving; simpl; assumption);
      refine (Hfly _ _ _ _ E); simpl; assumption.
Qed.

Lemma kind_settled b c p p' :
  same_kind b p p' -> settled b c p -> Special.active p' = true ->
  settled b c p'.
Proof.
  intros (Ks & Kt & Kp) (_ & [(Hs & Ht & Hx & Hy & Hsnow) | (Hs & Ht)]) Ha;
    (split; [exact Ha |]).
  - destruct (Kp Hs) as (_ & Ex & Ey & _ & Hcap).
    left; rewrite Ks, Kt, Ex, Ey.
    split; [exact Hs |]; split; [exact Ht |]; split; [exact Hx |].
    split; [exact Hy | exact (Hcap Hsnow)].
  - right; rewrite Ks, Kt; split; assumption.
Qed.

Lemma kind_sprite b p p' :
  same_kind b p p' -> sprite b p -> Special.active p' = true -> sprite b p'.
Proof.
  intros (Ks & Kt & _) (_ & Hs & Ht) Ha; unfold sprite.
  rewrite Ks, Kt; split; [exact Ha | split; assumption].
Qed.

Lemma survivors {A} (R : A -> A -> Prop) (P : A -> Prop) (keep : A -> bool) :
  (forall a a', R a a' -> P a -> keep a' = true -> P a') ->
  forall xs ys, Forall2 R xs ys -> Forall P xs -> Forall P (filter keep ys).
Proof.
  intros HR xs ys H; induction H as [| a a' xs ys Hr _ IH]; intro HP.
  - constructor.
  - inversion HP; subst; simpl.
    destruct (keep a') eqn:Hk; [constructor; eauto | auto].
Qed.

Lemma Forall2_right {A B} (R : A -> B -> Prop) (P : B -> Prop) :
  (forall a b, R a b -> P b) ->
  forall xs ys, Forall2 R xs ys -> Forall P ys.
Proof.
  intros HR xs ys H; induction H; constructor; eauto.
Qed.

Lemma updateParticles_kept c deltaTime xs w ps w' :
  canvas (self w) = Some c ->
  (0 <= width c)%Z -> (0 <= height c)%Z ->
  mapM (fun p => _updateParticle p deltaTime) xs w = Ok ps w' ->
  Forall2 (fun p p' => in_margins c p' /\ same_flake p p') xs ps.
Proof.
  intros Hc HW HH E.
  refine (proj1 (mapM_Forall2 _ (fun w => canvas (self w) = Some c) _ _
                   xs w ps w' Hc E)).
  intros p w0 p' w1 Hc0 E0.
  destruct (updateParticle_kept w0 c p deltaTime Hc0 HW HH)
    as (q & w2 & E2 & Hm & Hsame).
  rewrite E0 in E2; inversion E2; subst q w2.
  split; [split; assumption |].
  pose proof (proj1 (pure_updateParticle p deltaTime) w0) as Q.
  rewrite E0 in Q; simpl in Q.
  rewrite (quiet_canvas _ _ Q); exact Hc0.
Qed.

Lemma updateSpecials_kind b deltaTime xs w qs w' :
  unit_interval (host w) ->
  mapM (fun p => _updateSpecialParticle b p deltaTime) xs w = Ok qs w' ->
  Forall2 (same_kind b) xs qs.
Proof.
  intros Hu E.
  refine (proj1 (mapM_Forall2 _ (fun w => unit_interval (host w)) _ _
                   xs w qs w' Hu E)).
  intros p w0 p' w1 Hu0 E0.
  split; [exact (updateSpecialParticle_kind b p deltaTime w0 p' w1 Hu0 E0) |].
  pose proof (proj1 (pure_updateSpecialParticle b p deltaTime) w0) as Q.
  rewrite E0 in Q; simpl in Q.
  exact (quiet_draws _ _ Q Hu0).
Qed.

(** One frame of a running effect: where the frame leaves the two
    collections, the canvas, the tier and the page. *)
Lemma animate_frame b currentTime w c :
  unit_interval (host w) ->
  (0 <= width c)%Z -> (0 <= height c)%Z ->
  isPaused (self w) = false ->
  canvas (self w) = Some c ->
  exists ps l qs w',
    _animate b currentTime w = Ok tt w'
    /\ particles (self w') = ps
    /\ Forall2 (fun p p' => in_margins c p' /\ same_flake p p')
         (particles (self w)) ps
    /\ (List.length l <= 1)%nat
    /\ Forall (entering b c) l
    /\ Forall2 (same_kind b) (specialParticles (self w) ++ l) qs
    /\ specialParticles (self w') = filter Special.active qs
    /\ canvas (self w') = Some c
    /\ intensity (self w') = intensity (self w)
    /\ randoms (host w') = randoms (host w)
    /\ innerWidth (host w') = innerWidth (host w)
    /\ innerHeight (host w') = innerHeight (host w).
Proof.
  intros Hu HW HH Hp Hc.
  destruct (animate_stages b currentTime w c Hp Hc)
    as (w1 & w2 & ps & w3 & qs & w4 & E1 & E2 & _ & E3 & Q3 & E4 & Q4 & E).
  pose proof (still_update_wind currentTime
                (mkWorld (host w)
                   (set_twinkleTime currentTime
                      (set_lastTime currentTime (self w))))) as S1.
  rewrite E1 in S1; simpl in S1.
  destruct S1 as (Sc & Si & Sp & Ss & Sr & SW & SH).
  assert (Hc1 : canvas (self w1) = Some c) by (rewrite Sc; exact Hc).
  assert (Hu1 : unit_interval (host w1))
    by (unfold unit_interval; rewrite Sr; exact Hu).
  destruct (spawn_spec b w1 c Hc1 HH Hu1)
    as (l & w2' & E2' & Hs2 & Hh2 & Hl & He).
  rewrite E2 in E2'; inversion E2'; subst w2'; clear E2'.
  assert (Hc2 : canvas (self w2) = Some c) by (rewrite Hs2; exact Hc1).
  assert (Hp2 : particles (self w2) = particles (self w))
    by (rewrite Hs2; exact Sp).
  assert (Hq2 : specialParticles (self w2) = specialParticles (self w) ++ l)
    by (rewrite Hs2; simpl; rewrite Ss; reflexivity).
  pose proof (updateParticles_kept c _ _ w2 ps w3 Hc2 HW HH E3) as F3.
  rewrite Hp2 in F3.
  destruct Q3 as (Qs3 & Qh3).
  assert (Hu3 : unit_interval (host w3)).
  { unfold unit_interval; rewrite Qh3, Hh2; exact Hu1. }
  pose proof (updateSpecials_kind b _ _
                (mkWorld (host w3) (set_particles ps (self w3))) qs w4
                Hu3 E4) as F4.
  rewrite Hq2 in F4.
  destruct Q4 as (Qs4 & Qh4); simpl in Qs4, Qh4.
  exists ps, l, qs; eexists; split; [exact E |]; simpl.
  rewrite Qs4, Qs3, Qh4, Qh3, Hh2; simpl.
  split; [reflexivity |]; split; [exact F3 |]; split; [exact Hl |].
  split; [exact He |]; split; [exact F4 |]; split; [reflexivity |].
  split; [exact Hc2 |]; split; [rewrite Hs2; exact Si |].
  split; [exact Sr |]; split; [exact SW | exact SH].
Qed.

Lemma animate_healthy b currentTime w :
  healthy b w -> healthy b (after (_animate b currentTime w)).
Proof.
  intro Hh.
  destruct (isPaused (self w)) eqn:Hp.
  - unfold _animate; rewrite (bind_Ok this _ w (self w) w eq_refl), Hp.
    exact Hh.
  - destruct (canvas (self w)) as [c |] eqn:Hc.
    + destruct Hh as ((Hu & Hiw & Hih) & Ht & Hk).
      destruct (Ht c Hc) as (Wc & Hc0 & Hps & Hqs).
      destruct (animate_frame b currentTime w c Hu (Z.lt_le_incl _ _ Wc)
                  (Z.lt_le_incl _ _ Hc0) Hp Hc)
        as (ps & l & qs & w' & E & Eps & F3 & _ & He & F4 & Eqs & Hc' & Hi
            & Hr & HW & HH).
      rewrite E; simpl; split; [| split].
      * unfold sane_page, unit_interval; rewrite Hr, HW, HH; auto.
      * intros c' Hc''; rewrite Hc' in Hc''; inversion Hc''; subst c'.
        split; [exact Wc |]; split; [exact Hc0 |]; rewrite Eps, Eqs; split.
        -- revert F3; apply Forall2_right; intros p p' [Hm _]; exact Hm.
        -- apply (survivors (same_kind b) (settled b c) Special.active
                    (kind_settled b c) _ _ F4).
           apply Forall_app; split; [exact Hqs |].
           revert He; apply Forall_impl; intros p Hp'.
           apply sprite_settled, (entering_sprite b c), Hp'.
      * unfold stocked; rewrite Hi, Eps, Eqs.
        destruct Hk as [Hk | (Hnil & Hsp)]; [left; exact Hk | right].
        rewrite Hnil in F3; inversion F3; subst; split; [reflexivity |].
        apply (survivors (same_kind b) (sprite b) Special.active
                 (kind_sprite b) _ _ F4).
        apply Forall_app; split; [exact Hsp |].
        revert He; apply Forall_impl; intros p Hp'.
        apply (entering_sprite b c), Hp'.
    + unfold _animate; rewrite (bind_Ok this _ w (self w) w eq_refl), Hp, Hc.
      exact Hh.
Qed.

Lemma init_healthy b w : healthy b w -> healthy b (after (init b w)).
Proof.
  intro Hh; unfold init; rewrite (bind_Ok this _ w (self w) w eq_refl).
  destruct (canvas (self w)) as [c |] eqn:Hc; [exact Hh |].
  rewrite (bind_Ok _ _ _ _ _ (createCanvas_spec w)).
  destruct Hh as ((Hu & Hiw & Hih) & Ht & Hk).
  match goal with
  | |- healthy b (after (bind _ _ ?w1)) =>
      destruct (createParticles_healthy b w1
                  (mkCanvas (innerWidth (host w)) (innerHeight (host w)) true)
                  eq_refl Hiw Hih (conj Hu (conj Hiw Hih)) Hk) as [Hh1 _]
  end.
  apply after_bind.
  - intros w1 E; rewrite E in Hh1; exact Hh1.
  - intros [] w1 E; rewrite E in Hh1.
    apply within_healthy; [unfold _bindEvents; still_steps | exact Hh1].
Qed.

Lemma setIntensity_healthy b level w :
  healthy b w -> healthy b (after (setIntensity b level w)).
Proof.
  intro Hh; unfold setIntensity.
  destruct (includes level) eqn:Hl; simpl; [| exact Hh].
  rewrite (bind_Ok (assign (set_intensity level)) _ w tt _ eq_refl).
  destruct (table_valid b level Hl) as (config & Hcfg & _).
  destruct Hh as (Hsane & Ht & Hk).
  assert (Hk1 : stocked b (mkWorld (host w) (set_intensity level (self w)))).
  { left; simpl; rewrite Hcfg; discriminate. }
  destruct (canvas (self w)) as [c |] eqn:Hc.
  - destruct (Ht c Hc) as (HW & HH & _).
    apply (createParticles_healthy b _ c); assumption.
  - match goal with
    | |- healthy b (after (_createParticles b ?w1)) =>
        pose proof (rebuilt_createParticles b w1) as R;
        set (w' := after (_createParticles b w1)) in *
    end.
    destruct (rebuilt_fields _ _ R) as (Hi & _ & Hc' & _).
    destruct R as (_ & Hh'); simpl in Hi, Hc', Hh'.
    split; [exact (drawn_sane _ _ _ Hh' Hsane) |]; split.
    + intros c Hc''; rewrite Hc', Hc in Hc''; discriminate.
    + left; rewrite Hi, Hcfg; discriminate.
Qed.

Lemma resizeCanvas_spec w c :
  canvas (self w) = Some c ->
  _resizeCanvas w
  = Ok tt (mkWorld (host w)
             (set_canvas
                (Some (mkCanvas (innerWidth (host w)) (innerHeight (host w))
                         (parentNode c)))
                (self w))).
Proof.
  intro Hc; unfold _resizeCanvas, the_canvas, this, page, assign, ret, bind;
    simpl.
  rewrite Hc; reflexivity.
Qed.

Lemma resize_callback_healthy b w :
  healthy b w -> healthy b (after (resize_callback b w)).
Proof.
  intro Hh; unfold resize_callback.
  rewrite (bind_Ok this _ w (self w) w eq_refl).
  destruct (canvas (self w)) as [c |] eqn:Hc; [| exact Hh].
  rewrite (bind_Ok _ _ _ _ _ (resizeCanvas_spec w c Hc)).
  destruct Hh as ((Hu & Hiw & Hih) & Ht & Hk).
  apply (createParticles_healthy b
           (mkWorld (host w)
              (set_canvas
                 (Some (mkCanvas (innerWidth (host w)) (innerHeight (host w))
                          (parentNode c)))
                 (self w)))
           (mkCanvas (innerWidth (host w)) (innerHeight (host w))
              (parentNode c)) eq_refl Hiw Hih (conj Hu (conj Hiw Hih)) Hk).
Qed.

Lemma stop_spec w :
  exists w',
    stop w = Ok tt w'
    /\ canvas (self w') = None
    /\ intensity (self w') = intensity (self w)
    /\ randoms (host w') = randoms (host w)
    /\ innerWidth (host w') = innerWidth (host w)
    /\ innerHeight (host w') = innerHeight (host w).
Proof.
  unfold stop, pause, _cleanup, cancelAnimationFrame, this, page, assign,
    tell, ret, bind; simpl.
  destruct (animationId (self w)); simpl;
    (eexists; split; [reflexivity |]); simpl; repeat split.
Qed.

Lemma stop_healthy b w : healthy b w -> healthy b (after (stop w)).
Proof.
  intros ((Hu & Hiw & Hih) & Ht & Hk).
  destruct (stop_spec w) as (w' & E & Hc & Hi & Hr & HW & HH).
  rewrite E; simpl; split; [| split].
  - unfold sane_page, unit_interval; rewrite Hr, HW, HH; auto.
  - intros c Hc'; rewrite Hc in Hc'; discriminate.
  - assert (Hnil : particles (self w') = []
                   /\ specialParticles (self w') = []).
    { revert E; unfold stop, pause, _cleanup, cancelAnimationFrame, this,
        page, assign, tell, ret, bind; simpl.
      destruct (animationId (self w)); simpl; intro E; inversion E;
        split; reflexivity. }
    destruct Hnil as (Hp & Hs).
    right; rewrite Hp, Hs; split; constructor.
Qed.

Lemma dispatch_healthy b ev w :
  sane_event ev -> healthy b w -> healthy b (after (dispatch b ev w)).
Proof.
  intros Hev Hh; destruct ev; unfold dispatch.
  - apply init_healthy, Hh.
  - apply within_healthy; [apply still_start | exact Hh].
  - apply within_healthy; [apply still_pause | exact Hh].
  - apply stop_healthy, Hh.
  - apply setIntensity_healthy, Hh.
  - apply within_healthy; [still_steps | exact Hh].
  - rewrite (bind_Ok (tell (set_viewport w0 h)) _ w tt _ eq_refl).
    apply within_healthy; [still_steps |].
    destruct Hh as ((Hu & _ & _) & Ht & Hk); destruct Hev as (HW & HH).
    split; [| split; assumption].
    split; [exact Hu | split; assumption].
  - rewrite (bind_Ok page _ w (host w) w eq_refl).
    destruct (pending id (timers (host w))); [| exact Hh].
    rewrite (bind_Ok (tell _) _ w tt _ eq_refl).
    apply resize_callback_healthy.
    destruct Hh as (Hsane & Ht & Hk); split; [| split]; assumption.
  - apply within_healthy; [still_steps | exact Hh].
  - rewrite (bind_Ok page _ w (host w) w eq_refl).
    destruct (pending id (frames (host w))); [| exact Hh].
    rewrite (bind_Ok (tell _) _ w tt _ eq_refl).
    apply animate_healthy.
    destruct Hh as (Hsane & Ht & Hk); split; [| split]; assumption.
  - apply within_healthy; [still_steps | exact Hh].
Qed.

Lemma run_healthy b evs w :
  Forall sane_event evs -> healthy b w -> healthy b (run b evs w).
Proof.
  revert w; induction evs as [| ev evs IH]; intros w Hev Hh; simpl;
    [exact Hh |].
  inversion Hev; subst.
  apply IH; [assumption | apply dispatch_healthy; assumption].
Qed.

Lemma boot_healthy b s options : sane_page s -> healthy b (boot s options).
Proof.
  intro Hsane; split; [exact Hsane |]; split.
  - intros c Hc; discriminate.
  - right; split; constructor.
Qed.

(** X12: on a page whose draws are in [0, 1) and whose viewport has a
    positive size, also after every resize: whatever the build, the
    options and the sequence of calls and page events since the effect
    was constructed, while there is a canvas it has a positive size and
    every drift particle is at most 10 px outside it to the left or to the
    right and at most 10 px below it. *)
Theorem flakes_never_stray (b : Build) (s : Host) (options : Options)
    (evs : list Event) (c : Canvas) :
  unit_interval s ->
  (0 < innerWidth s)%Z -> (0 < innerHeight s)%Z ->
  Forall sane_event evs ->
  canvas (self (run b evs (boot s options))) = Some c ->
  (0 < width c)%Z /\ (0 < height c)%Z
  /\ Forall (in_margins c) (particles (self (run b evs (boot s options)))).
Proof.
  intros Hu HW HH Hev Hc.
  destruct (run_healthy b evs (boot s options) Hev
              (boot_healthy b s options (conj Hu (conj HW HH))))
    as (_ & Ht & _).
  destruct (Ht c Hc) as (Wc & Hc' & Hps & _).
  split; [exact Wc |]; split; [exact Hc' | exact Hps].
Qed.

Lemma flakes_never_stray_witness :
  Forall (in_margins (mkCanvas 800 600 true))
    (particles
       (self
          (run CoreBuild
             [Call_init; Call_start; Resize 800 600; Frame 1 16; Timeout 2;
              Frame 3 32]
             (boot desk (mkOptions None None None))))).
Proof.
  apply (flakes_never_stray CoreBuild desk (mkOptions None None None)
           [Call_init; Call_start; Resize 800 600; Frame 1 16; Timeout 2;
            Frame 3 32]
           (mkCanvas 800 600 true)).
  - exact desk_draws.
  - reflexivity.
  - reflexivity.
  - repeat constructor.
  - vm_compute; reflexivity.
Defined.

(** X13: under the same conditions, while there is a canvas every entry
    of [specialParticles] is active, and it is either a static tree or
    wreath that lies on the canvas, with no snow level in the core build
    and a snow level between 0 and 30% of its size in the accrual build,
    or a moving sleigh (a moving elf only in the accrual build). *)
Theorem decorations_stay_put (b : Build) (s : Host) (options : Options)
    (evs : list Event) (c : Canvas) :
  unit_interval s ->
  (0 < innerWidth s)%Z -> (0 < innerHeight s)%Z ->
  Forall sane_event evs ->
  canvas (self (run b evs (boot s options))) = Some c ->
  Forall (settled b c) (specialParticles (self (run b evs (boot s options)))).
Proof.
  intros Hu HW HH Hev Hc.
  destruct (run_healthy b evs (boot s options) Hev
              (boot_healthy b s options (conj Hu (conj HW HH))))
    as (_ & Ht & _).
  destruct (Ht c Hc) as (_ & _ & _ & Hqs).
  exact Hqs.
Qed.

Lemma decorations_stay_put_witness :
  Forall (settled AccrualBuild (mkCanvas 1024 768 true))
    (specialParticles
       (self
          (run AccrualBuild [Call_init; Call_start; Frame 1 16; Frame 2 32]
             (boot frosty (mkOptions None None None))))).
Proof.
  apply (decorations_stay_put AccrualBuild frosty (mkOptions None None None)
           [Call_init; Call_start; Frame 1 16; Frame 2 32]
           (mkCanvas 1024 768 true)).
  - exact frosty_draws.
  - reflexivity.
  - reflexivity.
  - repeat constructor.
  - vm_compute; reflexivity.
Defined.

(** The decorations among the entries, before and after the updates and
    the sweep of the inactive ones. *)
Lemma decor_kept b xs qs :
  Forall2 (same_kind b) xs qs ->
  Forall2 (same_kind b)
    (filter (fun p => Special.static p && Special.active p) xs)
    (filter Special.static (filter Special.active qs)).
Proof.
  intro H; induction H as [| a a' xs qs K _ IH]; [constructor |].
  destruct K as (Ks & Kt & Kp); simpl.
  destruct (Special.static a) eqn:Hst; simpl.
  - destruct (Kp eq_refl) as (Ka & Hrest).
    rewrite Ka; destruct (Special.active a) eqn:Hact; simpl; [| exact IH].
    rewrite Ks; constructor; [| exact IH].
    split; [rewrite Ks, Hst; reflexivity |]; split; [exact Kt |].
    intros _; split; [congruence | exact Hrest].
  - destruct (Special.active a'); simpl; [rewrite Ks |]; exact IH.
Qed.

Lemma entering_not_decor b c l :
  Forall (entering b c) l ->
  filter (fun p => Special.static p && Special.active p) l = [].
Proof.
  induction 1 as [| p l (Hs & _) _ IH]; simpl; [reflexivity |].
  rewrite Hs; exact IH.
Qed.

(** X14: one frame of a running effect on a canvas of non-negative size,
    with draws in [0, 1): the frame returns and keeps the canvas and the
    tier; every drift particle is still there, in the same order, with its
    size, speed, opacity, wind response and rotation rate unchanged, and
    within the margins; every active decoration is still there, in the
    same order, with its type, place and size unchanged and its snow still
    under the cap; every entry left in [specialParticles] is active, and
    at most one entry was added. *)
Theorem frame_keeps_population (b : Build) (currentTime : Q) (w : World)
    (c : Canvas) :
  isPaused (self w) = false ->
  canvas (self w) = Some c ->
  (0 <= width c)%Z -> (0 <= height c)%Z ->
  unit_interval (host w) ->
  exists w',
    _animate b currentTime w = Ok tt w'
    /\ canvas (self w') = Some c
    /\ intensity (self w') = intensity (self w)
    /\ Forall2 (fun p p' => in_margins c p' /\ same_flake p p')
         (particles (self w)) (particles (self w'))
    /\ Forall2 (same_kind b)
         (filter (fun p => Special.static p && Special.active p)
            (specialParticles (self w)))
         (filter Special.static (specialParticles (self w')))
    /\ Forall (fun p => Special.active p = true) (specialParticles (self w'))
    /\ (List.length (specialParticles (self w'))
        <= List.length (specialParticles (self w)) + 1)%nat.
Proof.
  intros Hp Hc HW HH Hu.
  destruct (animate_frame b currentTime w c Hu HW HH Hp Hc)
    as (ps & l & qs & w' & E & Eps & F3 & Hl & He & F4 & Eqs & Hc' & Hi & _).
  exists w'; split; [exact E |]; split; [exact Hc' |]; split; [exact Hi |].
  rewrite Eps, Eqs; split; [exact F3 |]; split; [| split].
  - pose proof (decor_kept b _ _ F4) as D.
    rewrite filter_app, (entering_not_decor b c l He), app_nil_r in D.
    exact D.
  - apply Forall_forall; intros p Hin; apply filter_In in Hin; tauto.
  - pose proof (Forall2_length F4) as L; rewrite length_app in L.
    pose proof (filter_length_le Special.active qs); lia.
Qed.

Lemma started_draws : unit_interval (host started).
Proof.
  assert (E : randoms (host started) = randoms desk)
    by (vm_compute; reflexivity).
  unfold unit_interval; rewrite E; apply desk_draws.
Qed.

Lemma frame_keeps_population_witness :
  exists w',
    _animate CoreBuild 16 started = Ok tt w'
    /\ List.length (particles (self w')) = 150%nat.
Proof.
  destruct (frame_keeps_population CoreBuild 16 started
              (mkCanvas 1024 768 true))
    as (w' & E & _ & _ & F & _).
  - vm_compute; reflexivity.
  - vm_compute; reflexivity.
  - discriminate.
  - discriminate.
  - exact started_draws.
  - exists w'; split; [exact E |].
    rewrite <- (Forall2_length F); vm_compute; reflexivity.
Defined.

(** ** A resize, from the signal to the rebuild *)

Lemma handleResize_spec w :
  exists w',
    _handleResize w = Ok tt w'
    /\ self w' = set_resizeTimeout (Some (nextHandle (host w))) (self w)
    /\ host w'
       = set_timers
           (nextHandle (host w)
            :: match resizeTimeout (self w) with
               | Some i => drop i (timers (host w))
               | None => timers (host w)
               end)
           (set_nextHandle (Pos.succ (nextHandle (host w))) (host w)).
Proof.
  unfold _handleResize, clearTimeout, setTimeout, fresh_handle, this, page,
    tell, assign, ret, bind; simpl.
  destruct (resizeTimeout (self w)); simpl;
    eexists; (split; [reflexivity |]); split; reflexivity.
Qed.

Lemma pending_head id ids : pending id (id :: ids) = true.
Proof. unfold pending; simpl; rewrite Pos.eqb_refl; reflexivity. Qed.

(** X15: a resize on an initialized effect with bound listeners and a tier
    of the table.  The signal alone changes neither the canvas nor the
    particles: it only arms a timeout.  When that timeout fires, the
    canvas takes the new viewport size (and stays attached as it was), and
    the population is rebuilt with the counts of the tier for the new
    width (halved below 768 px); the frame loop is not touched: the
    recorded frame, the pending frames and the paused flag stay as they
    were. *)
Theorem resize_rebuilds (b : Build) (w : World) (c : Canvas)
    (config : IntensityConfig) (width' height' : Z) :
  canvas (self w) = Some c ->
  INTENSITY_CONFIG b (intensity (self w)) = Some config ->
  listening (host w) = true ->
  canvas (self (run b [Resize width' height'] w)) = Some c
  /\ particles (self (run b [Resize width' height'] w)) = particles (self w)
  /\ specialParticles (self (run b [Resize width' height'] w))
     = specialParticles (self w)
  /\ exists w',
       run b [Resize width' height'; Timeout (nextHandle (host w))] w = w'
       /\ canvas (self w') = Some (mkCanvas width' height' (parentNode c))
       /\ List.length (particles (self w'))
          = Z.to_nat (density (lt (num width') 768) (count config))
       /\ List.length (specialParticles (self w'))
          = (Z.to_nat (density (lt (num width') 768) (trees config))
             + Z.to_nat (density (lt (num width') 768) (wreaths config)))%nat
       /\ animationId (self w') = animationId (self w)
       /\ isPaused (self w') = isPaused (self w)
       /\ frames (host w') = frames (host w).
Proof.
  intros Hc Hcfg Hl.
  pose (w1 := mkWorld (set_viewport width' height' (host w)) (self w)).
  destruct (handleResize_spec w1) as (w2 & E2 & S2 & H2).
  assert (R1 : run b [Resize width' height'] w = w2).
  { simpl; unfold dispatch.
    rewrite (bind_Ok (tell (set_viewport width' height')) _ w tt w1 eq_refl).
    rewrite (bind_Ok page _ w1 (host w1) w1 eq_refl).
    simpl; rewrite Hl, E2; reflexivity. }
  rewrite R1, S2.
  split; [exact Hc |]; split; [reflexivity |]; split; [reflexivity |].
  set (id := nextHandle (host w)).
  pose (w3 := mkWorld (set_timers (drop id (timers (host w2))) (host w2))
                (self w2)).
  pose (c' := mkCanvas width' height' (parentNode c)).
  pose (w4 := mkWorld (host w3) (set_canvas (Some c') (self w3))).
  assert (Hcfg4 : INTENSITY_CONFIG b (intensity (self w4)) = Some config).
  { simpl; rewrite S2; exact Hcfg. }
  destruct (createParticles_spec b w4 c' config eq_refl Hcfg4)
    as (ps & ts & ws & w5 & E5 & S5 & H5 & Lp & Lt & Lw & _).
  assert (Hw : innerWidth (host w4) = width') by (simpl; rewrite H2; reflexivity).
  rewrite Hw in Lp, Lt, Lw.
  exists w5; split.
  - change (run b [Resize width' height'; Timeout id] w)
      with (after (dispatch b (Timeout id) (run b [Resize width' height'] w))).
    rewrite R1; unfold dispatch.
    rewrite (bind_Ok page _ w2 (host w2) w2 eq_refl).
    assert (Hpend : pending id (timers (host w2)) = true)
      by (rewrite H2; simpl; apply pending_head).
    rewrite Hpend.
    rewrite (bind_Ok (tell _) _ w2 tt w3 eq_refl).
    unfold resize_callback.
    rewrite (bind_Ok this _ w3 (self w3) w3 eq_refl).
    assert (Hc3 : canvas (self w3) = Some c) by (simpl; rewrite S2; exact Hc).
    rewrite Hc3.
    assert (E4 : _resizeCanvas w3 = Ok tt w4).
    { rewrite (resizeCanvas_spec w3 c Hc3); unfold w4, c'; simpl.
      rewrite H2; reflexivity. }
    rewrite (bind_Ok _ _ _ _ _ E4), E5; reflexivity.
  - rewrite S5, H5; simpl; rewrite S2, H2; simpl.
    rewrite length_app, Lp, Lt, Lw.
    repeat split; reflexivity.
Qed.

Lemma resize_rebuilds_witness :
  exists w',
    run CoreBuild [Resize 390 844; Timeout 1] ready = w'
    /\ canvas (self w') = Some (mkCanvas 390 844 true)
    /\ List.length (particles (self w')) = 75%nat.
Proof.
  destruct (resize_rebuilds CoreBuild ready (mkCanvas 1024 768 true)
              (mkConfig 150 (0.8, 2.5) (1, 4) 10 6) 390 844)
    as (_ & _ & _ & w' & E & Hc & Lp & _).
  - vm_compute; reflexivity.
  - vm_compute; reflexivity.
  - vm_compute; reflexivity.
  - exists w'; split; [exact E |]; split; [exact Hc |].
    rewrite Lp; reflexivity.
Defined.

(** ** The factory function *)

(** The property names that every object inherits from
    [Object.prototype]: looked up in the intensity table they are found,
    although they are not tiers. *)
Definition Object_prototype_keys : list string :=
  ["constructor"; "hasOwnProperty"; "isPrototypeOf"; "propertyIsEnumerable";
   "toLocaleString"; "toString"; "valueOf"; "__proto__"; "__defineGetter__";
   "__defineSetter__"; "__lookupGetter__"; "__lookupSetter__"]%string.

(** [createSnowEffect(options)] of [index.js], after [new SnowEffect(options)]:
    [effect.init()], then [effect.start()] unless [options.autoStart] is
    [false]. *)
Definition createSnowEffect (b : Build) (autoStart : option bool) : M unit :=
  init b ;;
  match autoStart with
  | Some false => ret tt
  | _ => start
  end.

Lemma init_spec b w config :
  canvas (self w) = None ->
  INTENSITY_CONFIG b (intensity (self w)) = Some config ->
  exists ps qs n,
    init b w
    = Ok tt
        (mkWorld (set_listening true (set_drawn n (host w)))
           (set_particles ps
              (set_specialParticles qs
                 (set_canvas
                    (Some (mkCanvas (innerWidth (host w))
                             (innerHeight (host w)) true))
                    (self w))))).
Proof.
  intros Hc Hcfg.
  set (c := mkCanvas (innerWidth (host w)) (innerHeight (host w)) true).
  pose (w1 := mkWorld (host w) (set_canvas (Some c) (self w))).
  destruct (createParticles_spec b w1 c config eq_refl Hcfg)
    as (ps & ts & ws & w2 & E & S2 & H2 & _).
  exists ps, (ts ++ ws), (drawn (host w2)).
  unfold init.
  rewrite (bind_Ok this _ w (self w) w eq_refl), Hc.
  rewrite (bind_Ok _ _ _ _ _ (createCanvas_spec w)).
  fold c; fold w1; rewrite (bind_Ok _ _ _ _ _ E).
  unfold _bindEvents, tell; rewrite S2, H2; reflexivity.
Qed.

Lemma init_raises b w :
  canvas (self w) = None ->
  INTENSITY_CONFIG b (intensity (self w)) = None ->
  init b w
  = Throw
      (mkWorld (host w)
         (set_canvas
            (Some (mkCanvas (innerWidth (host w)) (innerHeight (host w)) true))
            (self w))).
Proof.
  intros Hc Hcfg; unfold init.
  rewrite (bind_Ok this _ w (self w) w eq_refl), Hc.
  rewrite (bind_Ok _ _ _ _ _ (createCanvas_spec w)).
  unfold _createParticles, bind at 1 2; simpl.
  rewrite Hcfg; reflexivity.
Qed.

(** X16: [createSnowEffect] with a tier of the table (or none given) on a
    page returns an initialized effect: a canvas of the viewport's size is
    attached and the listeners are bound.  Unless [autoStart] is [false]
    the animation is running: one frame is requested and recorded, and the
    frame clock starts at the current time.  This holds whatever
    [enabled] and [seasonCheck] are: the factory starts the animation
    without consulting them, and leaves [enabled] as it was given. *)
Theorem createSnowEffect_starts (b : Build) (s : Host) (options : Options)
    (autoStart : option bool) (config : IntensityConfig) :
  INTENSITY_CONFIG b (intensity (constructor options)) = Some config ->
  exists w,
    createSnowEffect b autoStart (boot s options) = Ok tt w
    /\ canvas (self w) = Some (mkCanvas (innerWidth s) (innerHeight s) true)
    /\ listening (host w) = true
    /\ isPaused (self w) = false
    /\ enabled (self w)
       = match opt_enabled options with Some e => e | None => false end
    /\ match autoStart with
       | Some false =>
           animationId (self w) = None /\ frames (host w) = frames s
       | _ =>
           animationId (self w) = Some (nextHandle s)
           /\ frames (host w) = nextHandle s :: frames s
           /\ lastTime (self w) = clock s
           /\ lastGustTime (self w) = clock s
       end.
Proof.
  intro Hcfg.
  destruct (init_spec b (boot s options) config eq_refl Hcfg)
    as (ps & qs & n & E).
  unfold createSnowEffect; rewrite (bind_Ok _ _ _ _ _ E).
  destruct autoStart as [[|] |];
    try match goal with
        | |- exists w, start ?w0 = _ /\ _ =>
            rewrite (start_spec w0
                       (mkCanvas (innerWidth s) (innerHeight s) true)
                       eq_refl eq_refl)
        end;
    (eexists; split; [reflexivity |]); simpl; repeat split; reflexivity.
Qed.

Lemma createSnowEffect_starts_witness :
  exists w,
    createSnowEffect AccrualBuild None
      (boot desk (mkOptions (Some "light"%string) None None)) = Ok tt w
    /\ animationId (self w) = Some 1%positive.
Proof.
  destruct (createSnowEffect_starts AccrualBuild desk
              (mkOptions (Some "light"%string) None None) None
              (mkConfig 50 (0.5, 1.5) (1, 3) 3 2) eq_refl)
    as (w & E & _ & _ & _ & _ & Hid & _).
  exists w; split; [exact E | exact Hid].
Defined.

(** X17: [createSnowEffect] with a name that is not in the table (nor
    inherited from [Object.prototype]) raises out of [init()], before the
    listeners are bound and before anything is started: no frame is
    requested and no timeout armed.  The canvas that [init()] created
    first is left attached to the document, with no particles, and the
    effect that owns it is not returned. *)
Theorem createSnowEffect_unknown_tier (b : Build) (s : Host)
    (options : Options) (autoStart : option bool) :
  INTENSITY_CONFIG b (intensity (constructor options)) = None ->
  ~ In (intensity (constructor options)) Object_prototype_keys ->
  exists w,
    createSnowEffect b autoStart (boot s options) = Throw w
    /\ canvas (self w) = Some (mkCanvas (innerWidth s) (innerHeight s) true)
    /\ particles (self w) = []
    /\ specialParticles (self w) = []
    /\ animationId (self w) = None
    /\ host w = s.
Proof.
  intros Hcfg _.
  eexists; split.
  - unfold createSnowEffect, bind.
    rewrite (init_raises b (boot s options) eq_refl Hcfg); reflexivity.
  - simpl; repeat split; reflexivity.
Qed.

Lemma createSnowEffect_unknown_tier_witness :
  exists w,
    createSnowEffect CoreBuild None
      (boot desk (mkOptions (Some "gentle"%string) None None)) = Throw w
    /\ canvas (self w) = Some (mkCanvas 1024 768 true)
    /\ host w = desk.
Proof.
  destruct (createSnowEffect_unknown_tier CoreBuild desk
              (mkOptions (Some "gentle"%string) None None) None eq_refl)
    as (w & E & Hc & _ & _ & _ & Hh).
  - simpl; intros H.
    repeat (destruct H as [H | H]; [discriminate |]); exact H.
  - exists w; split; [exact E |]; split; [exact Hc | exact Hh].
Defined.

(** ** What the [enabled] flag does *)

(** X27: when the page becomes visible again, an initialized effect
    without a recorded frame is started exactly when it is enabled and
    not paused, also when [start()] was never called on it: a frame is
    requested and recorded and the clocks restart at the current time.
    Otherwise the signal only updates [document.hidden].  (After a hide
    the effect is paused, so this branch then does nothing.) *)
Theorem show_starts_enabled_effect (w : World) (c : Canvas) :
  canvas (self w) = Some c ->
  animationId (self w) = None ->
  (enabled (self w) = true -> isPaused (self w) = false ->
   exists w',
     visibilitychange false w = Ok tt w'
     /\ animationId (self w') = Some (nextHandle (host w))
     /\ frames (host w') = nextHandle (host w) :: frames (host w)
     /\ isPaused (self w') = false
     /\ lastTime (self w') = clock (host w)
     /\ particles (self w') = particles (self w))
  /\ (enabled (self w) = false \/ isPaused (self w) = true ->
      visibilitychange false w
      = Ok tt (mkWorld (set_hidden false (host w)) (self w))).
Proof.
  intros Hc Hid; split.
  - intros Hen Hp.
    pose (w1 := mkWorld (set_hidden false (host w)) (self w)).
    eexists; split.
    + unfold visibilitychange.
      rewrite (bind_Ok (tell (set_hidden false)) _ w tt w1 eq_refl).
      unfold _handleVisibility.
      rewrite (bind_Ok page _ w1 (host w1) w1 eq_refl).
      change (hidden (host w1)) with false; cbv iota.
      rewrite (bind_Ok this _ w1 (self w1) w1 eq_refl).
      change (self w1) with (self w); rewrite Hen, Hp.
      change (true && negb false) with true; cbv iota.
      apply (start_spec w1 c Hc Hid).
    + simpl; repeat split; reflexivity.
  - intros H; unfold visibilitychange, _handleVisibility, start, this, page,
      tell, ret, bind; simpl.
    destruct H as [H | H]; rewrite H; [reflexivity |].
    destruct (enabled (self w)); reflexivity.
Qed.

(** The desk effect, enabled and initialized, never started. *)
Lemma show_starts_enabled_effect_witness :
  exists w',
    visibilitychange false ready = Ok tt w'
    /\ animationId (self w') = Some 1%positive.
Proof.
  destruct (show_starts_enabled_effect ready (mkCanvas 1024 768 true))
    as (Hstart & _).
  - vm_compute; reflexivity.
  - vm_compute; reflexivity.
  - destruct Hstart as (w' & E & Hid & _).
    + vm_compute; reflexivity.
    + vm_compute; reflexivity.
    + exists w'; split; [exact E |].
      rewrite Hid; vm_compute; reflexivity.
Defined.

(** ** The engine never consults the season callback *)

(** The same effect with another season callback, and the same world
    around it. *)
Definition with_seasonCheck (g : option (unit -> bool)) (e : Effect) : Effect :=
  mkEffect (intensity e) (enabled e) g (canvas e) (particles e)
    (specialParticles e) (animationId e) (lastTime e) (isPaused e)
    (resizeTimeout e) (windGust e) (windGustTarget e) (lastGustTime e)
    (twinkleTime e).

Definition reseason (g : option (unit -> bool)) (w : World) : World :=
  mkWorld (host w) (with_seasonCheck g (self w)).

Definition omap {A} (f : World -> World) (o : Outcome A) : Outcome A :=
  match o with
  | Ok a w => Ok a (f w)
  | Throw w => Throw (f w)
  end.

(** A computation is oblivious when swapping the callback beforehand or
    afterwards makes no difference: it returns the same value, or raises
    all the same, and leaves the same world. *)
Definition oblivious {A} (m : M A) : Prop :=
  forall g w, m (reseason g w) = omap (reseason g) (m w).

Lemma oblivious_ret {A} (a : A) : oblivious (ret a).
Proof. intros g w; reflexivity. Qed.

Lemma oblivious_TypeError {A} : oblivious (@TypeError A).
Proof. intros g w; reflexivity. Qed.

Lemma oblivious_page : oblivious page.
Proof. intros g w; reflexivity. Qed.

Lemma oblivious_tell f : oblivious (tell f).
Proof. intros g w; reflexivity. Qed.

Lemma oblivious_assign f :
  (forall g e, f (with_seasonCheck g e) = with_seasonCheck g (f e)) ->
  oblivious (assign f).
Proof. intros Hf g w; unfold assign, reseason; simpl; rewrite Hf; reflexivity. Qed.

Lemma oblivious_bind {A B} (m : M A) (k : A -> M B) :
  oblivious m -> (forall a, oblivious (k a)) -> oblivious (bind m k).
Proof.
  intros Hm Hk g w; unfold bind; rewrite Hm.
  destruct (m w) as [a w1 | w1]; simpl; [apply Hk | reflexivity].
Qed.

(** Reading the effect object is fine as long as what follows does not
    look at the callback. *)
Lemma oblivious_this {B} (k : Effect -> M B) :
  (forall g e w, k (with_seasonCheck g e) w = k e w) ->
  (forall e, oblivious (k e)) ->
  oblivious (bind this k).
Proof.
  intros Hk Ho g w; unfold bind, this; simpl.
  rewrite Hk; apply Ho.
Qed.

Lemma oblivious_repeatM n (body : M unit) :
  oblivious body -> oblivious (repeatM n body).
Proof.
  intro Hb; induction n as [| n IH]; simpl;
    [apply oblivious_ret | apply oblivious_bind; auto].
Qed.

Lemma oblivious_mapM {A B} (f : A -> M B) xs :
  (forall a, oblivious (f a)) -> oblivious (mapM f xs).
Proof.
  intro Hf; induction xs as [| a xs IH]; simpl; [apply oblivious_ret |].
  apply oblivious_bind; [apply Hf | intro b].
  apply oblivious_bind; [exact IH | intro bs; apply oblivious_ret].
Qed.

Lemma oblivious_Math_random : oblivious Math_random.
Proof.
  unfold Math_random.
  apply oblivious_bind; [apply oblivious_page | intro h].
  apply oblivious_bind; [apply oblivious_tell | intros _; apply oblivious_ret].
Qed.

Lemma oblivious_sin a : oblivious (sin a).
Proof.
  unfold sin.
  apply oblivious_bind; [apply oblivious_page | intro h; apply oblivious_ret].
Qed.

Lemma oblivious_the_canvas : oblivious the_canvas.
Proof.
  unfold the_canvas.
  apply oblivious_this; [intros g e w; reflexivity | intro e].
  destruct (canvas e); [apply oblivious_ret | apply oblivious_TypeError].
Qed.

Lemma oblivious_wreathShape n i : oblivious (wreathShape n i).
Proof.
  revert i; induction n as [| n IH]; intro i; simpl; [apply oblivious_ret |].
  apply oblivious_bind; [apply oblivious_Math_random | intros r1].
  apply oblivious_bind; [apply oblivious_Math_random | intros r2].
  apply oblivious_bind; [apply IH | intros rest; apply oblivious_ret].
Qed.

Create HintDb blind discriminated.
#[local] Hint Resolve oblivious_ret oblivious_TypeError oblivious_page
  oblivious_tell oblivious_Math_random oblivious_sin oblivious_the_canvas
  oblivious_wreathShape : blind.

Ltac oblivious_steps :=
  repeat first
    [ solve [auto 1 with blind nocore]
    | match goal with
      | |- oblivious (bind this _) =>
          apply oblivious_this; [intros ? ? ?; reflexivity | intros ?]
      | |- oblivious (bind _ _) => apply oblivious_bind; [| intros ?]
      | |- oblivious (assign _) =>
          apply oblivious_assign; intros ? ?; reflexivity
      | |- oblivious (repeatM _ _) => apply oblivious_repeatM
      | |- oblivious (mapM _ _) => apply oblivious_mapM; intros ?
      | |- oblivious (if ?c then _ else _) => destruct c
      | |- oblivious (match ?x with _ => _ end) => destruct x
      | |- oblivious (let _ := _ in _) => cbv zeta
      | |- oblivious ?m => let h := head_of m in unfold h
      end ].

Lemma oblivious_createParticles b : oblivious (_createParticles b).
Proof. oblivious_steps. Qed.

#[local] Hint Resolve oblivious_createParticles : blind.

Lemma oblivious_init b : oblivious (init b).
Proof. oblivious_steps. Qed.

Lemma oblivious_start : oblivious start.
Proof. oblivious_steps. Qed.

Lemma oblivious_pause : oblivious pause.
Proof. oblivious_steps. Qed.

Lemma oblivious_stop : oblivious stop.
Proof. oblivious_steps. Qed.

Lemma oblivious_setIntensity b level : oblivious (setIntensity b level).
Proof. oblivious_steps. Qed.

Lemma oblivious_handleResize : oblivious _handleResize.
Proof. oblivious_steps. Qed.

Lemma oblivious_resize_callback b : oblivious (resize_callback b).
Proof. oblivious_steps. Qed.

Lemma oblivious_visibilitychange hid : oblivious (visibilitychange hid).
Proof. oblivious_steps. Qed.

Lemma oblivious_animate b currentTime : oblivious (_animate b currentTime).
Proof. oblivious_steps. Qed.

#[local] Hint Resolve oblivious_init oblivious_start oblivious_pause
  oblivious_stop oblivious_setIntensity oblivious_handleResize
  oblivious_resize_callback oblivious_visibilitychange oblivious_animate
  : blind.

Lemma oblivious_dispatch b ev : oblivious (dispatch b ev).
Proof.
  destruct ev; unfold dispatch; try solve [oblivious_steps].
  intros g w; unfold shouldDisplay, this, ret, bind; simpl.
  destruct g, (seasonCheck (self w)); reflexivity.
Qed.

Lemma after_omap {A} f (o : Outcome A) : after (omap f o) = f (after o).
Proof. destruct o; reflexivity. Qed.

Lemma returns_omap {A} f (o : Outcome A) : returns (omap f o) = returns o.
Proof. destruct o; reflexivity. Qed.

Lemma run_reseason b evs g w :
  run b evs (reseason g w) = reseason g (run b evs w).
Proof.
  revert w; induction evs as [| ev evs IH]; intro w; simpl; [reflexivity |].
  rewrite oblivious_dispatch, after_omap; apply IH.
Qed.

(** X18: the engine never consults the season callback.  Whatever the
    build, the page, the other options and the sequence of calls and page
    events, an effect constructed with a [seasonCheck] ends in the same
    world as one constructed without it, up to the stored callback itself
    (same canvas, particles, schedule, paused flag and page); every
    further call or event returns or raises alike in both; and
    [shouldDisplay()], the one place that calls the callback, returns its
    answer without changing anything. *)
Theorem seasonCheck_is_inert (b : Build) (s : Host)
    (level : option string) (on : option bool) (g : option (unit -> bool))
    (evs : list Event) :
  run b evs (boot s (mkOptions level on g))
  = reseason g (run b evs (boot s (mkOptions level on None)))
  /\ (forall ev,
        returns (dispatch b ev (run b evs (boot s (mkOptions level on g))))
        = returns (dispatch b ev
                     (run b evs (boot s (mkOptions level on None)))))
  /\ shouldDisplay (run b evs (boot s (mkOptions level on g)))
     = Ok (match g with Some f => f tt | None => true end)
         (run b evs (boot s (mkOptions level on g))).
Proof.
  assert (E : run b evs (boot s (mkOptions level on g))
              = reseason g (run b evs (boot s (mkOptions level on None)))).
  { rewrite <- run_reseason; reflexivity. }
  split; [exact E |]; split.
  - intro ev; rewrite E, oblivious_dispatch; apply returns_omap.
  - rewrite E; unfold shouldDisplay, this, ret, bind; simpl.
    destruct g; reflexivity.
Qed.

(** * The storage wrapper and the toggle *)

(** [SimpleStorage] wraps [localStorage]; [SnowToggle] is the button and
    slider that create, replace and stop effects and save their state.

    Conventions of this part:
    - a stored or passed value is a JSON value; [JSON.stringify],
      [JSON.parse] and the conversion of a non-string to a property key
      belong to the host ([Json]);
    - [localStorage] is a map from names to text that may be denied
      altogether or refuse an item;
    - of the markup only what the methods read back is kept: the class
      [active] of the toggle button and, per slider button, its
      [data-intensity] and its class [active];
    - a method of the toggle is a computation in [T] over the [Site]: the
      page, the storage and the toggle with the effect it holds; the
      methods of the effect run on the page of the site;
    - the requests served in this part are those made to the toggle; the
      signals of the page to an effect are those of the first part. *)

From Stdlib Require Import Ascii.

(** ** The host: JSON and [localStorage] *)

(** A JSON value. *)
#[local] Unset Elimination Schemes.
Inductive JSON :=
| JNull
| JBool (b : bool)
| JNumber (q : Q)
| JString (s : string)
| JArray (l : list JSON)
| JObject (l : list (string * JSON)).
#[local] Set Elimination Schemes.

(** The host's [JSON.stringify], [JSON.parse] ([None]: it raises a
    [SyntaxError]) and the conversion of a value that is not a string to a
    property key. *)
Record Json := mkJson {
  JSON_stringify : JSON -> string;
  JSON_parse     : string -> option JSON;
  ToString       : JSON -> string
}.

(** [if (v)], [v || d]. *)
Definition truthy (v : JSON) : bool :=
  match v with
  | JNull => false
  | JBool b => b
  | JNumber q => negb (Qeq_bool q 0)
  | JString s => negb (String.eqb s "")
  | JArray _ | JObject _ => true
  end.

(** [s === v] for a string [s]. *)
Definition strict_equal (s : string) (v : JSON) : bool :=
  match v with
  | JString s' => String.eqb s s'
  | _ => false
  end.

(** [localStorage]: the items by name; a browser that denies storage
    raises on every access, and [setItem] raises when the quota refuses
    the item. *)
Record LocalStorage := mkLocalStorage {
  denied : bool;
  quota  : string -> string -> bool;
  items  : string -> option string
}.

Definition setItem (name text : string) (ls : LocalStorage) : LocalStorage :=
  mkLocalStorage (denied ls) (quota ls)
    (fun n => if String.eqb n name then Some text else items ls n).

Definition removeItem (name : string) (ls : LocalStorage) : LocalStorage :=
  mkLocalStorage (denied ls) (quota ls)
    (fun n => if String.eqb n name then None else items ls n).

(** ** [SimpleStorage] *)

Module SimpleStorage.

(** [`${this.prefix}:${key}`]. *)
Definition item_name (prefix key : string) : string :=
  (prefix ++ ":" ++ key)%string.

(** [get(key, defaultValue)]: every failure is caught and gives the
    default; so does an empty text, which is falsy. *)
Definition get (j : Json) (prefix key : string) (defaultValue : JSON)
    (ls : LocalStorage) : JSON :=
  if denied ls then defaultValue
  else
    match items ls (item_name prefix key) with
    | Some value =>
        if String.eqb value "" then defaultValue
        else
          match JSON_parse j value with
          | Some v => v
          | None => defaultValue
          end
    | None => defaultValue
    end.

(** [set(key, value)]: the success flag and the storage afterwards. *)
Definition set (j : Json) (prefix key : string) (value : JSON)
    (ls : LocalStorage) : bool * LocalStorage :=
  if denied ls then (false, ls)
  else if quota ls (item_name prefix key) (JSON_stringify j value) then
    (true, setItem (item_name prefix key) (JSON_stringify j value) ls)
  else (false, ls).

Definition remove (prefix key : string) (ls : LocalStorage)
    : bool * LocalStorage :=
  if denied ls then (false, ls)
  else (true, removeItem (item_name prefix key) ls).

(** [isAvailable()] writes and removes the item ["__test__"], without the
    prefix. *)
Definition isAvailable (ls : LocalStorage) : bool * LocalStorage :=
  if denied ls then (false, ls)
  else if quota ls "__test__" "__test__" then
    (true, removeItem "__test__" (setItem "__test__" "__test__" ls))
  else (false, ls).

End SimpleStorage.

(** ** [SnowToggle] *)

(** The options after the constructor has filled in the defaults; the
    container, the position and the icon only shape the markup. *)
Record ToggleOptions := mkToggleOptions {
  storageKey         : string;
  intensities        : list string;
  defaultIntensity   : string;
  toggle_seasonCheck : option (unit -> bool)
}.

(** The elements the toggle keeps: whether the toggle button carries the
    class [active], and for every intensity button its [data-intensity]
    and whether it carries the class. *)
Record Elements := mkElements {
  toggleBtn        : bool;
  intensityButtons : list (string * bool)
}.

Record Toggle := mkToggle {
  options    : ToggleOptions;
  snowEffect : option Effect;
  elements   : option Elements
}.

(** The page with its storage and the toggle on it. *)
Record Site := mkSite {
  window       : Host;
  localStorage : LocalStorage;
  toggle       : Toggle
}.

Definition set_window (v : Host) (s : Site) : Site :=
  mkSite v (localStorage s) (toggle s).
Definition set_localStorage (v : LocalStorage) (s : Site) : Site :=
  mkSite (window s) v (toggle s).
Definition set_snowEffect (v : option Effect) (s : Site) : Site :=
  mkSite (window s) (localStorage s)
    (mkToggle (options (toggle s)) v (elements (toggle s))).
Definition set_elements (v : option Elements) (s : Site) : Site :=
  mkSite (window s) (localStorage s)
    (mkToggle (options (toggle s)) (snowEffect (toggle s)) v).

(** A method of the toggle returns or raises, and leaves a site behind. *)
Inductive Result (A : Type) :=
| Done (a : A) (s : Site)
| Raised (s : Site).
Arguments Done {A} a s.
Arguments Raised {A} s.

Definition T (A : Type) : Type := Site -> Result A.

Definition unit_T {A} (a : A) : T A := fun s => Done a s.

Definition bind_T {A B} (m : T A) (k : A -> T B) : T B :=
  fun s => match m s with
           | Done a s' => k a s'
           | Raised s' => Raised s'
           end.

Declare Scope toggle_scope.
Delimit Scope toggle_scope with toggle.
Notation "x <- m ;; k" := (bind_T m (fun x => k))
  (at level 61, m at next level, right associativity) : toggle_scope.
Notation "m ;; k" := (bind_T m (fun _ => k))
  (at level 61, right associativity) : toggle_scope.

Definition site : T Site := fun s => Done s s.
Definition update (f : Site -> Site) : T unit := fun s => Done tt (f s).
Definition raise {A} : T A := fun s => Raised s.

Definition left_by {A} (r : Result A) : Site :=
  match r with Done _ s => s | Raised s => s end.


(** A call of a method of [this.snowEffect]: the effect object is shared,
    so what the method did to it stays done when it raises. *)
Definition on_effect {A} (m : M A) : T A :=
  fun s =>
    match snowEffect (toggle s) with
    | Some e =>
        match m (mkWorld (window s) e) with
        | Ok a w => Done a (set_snowEffect (Some (self w)) (set_window (host w) s))
        | Throw w => Raised (set_snowEffect (Some (self w)) (set_window (host w) s))
        end
    | None => Raised s
    end.

Module SnowToggle.
Section Methods.
Variable j : Json.
Variable SnowEffectClass : Build.

Local Open Scope toggle_scope.

(** [this.storage.get(key, defaultValue)] and [this.storage.set(key, value)]. *)
Definition storage_get (key : string) (defaultValue : JSON) : T JSON :=
  s <- site ;;
  unit_T (SimpleStorage.get j (storageKey (options (toggle s))) key
            defaultValue (localStorage s)).

Definition storage_set (key : string) (value : JSON) : T bool :=
  s <- site ;;
  let r := SimpleStorage.set j (storageKey (options (toggle s))) key value
             (localStorage s) in
  update (set_localStorage (snd r)) ;;
  unit_T (fst r).

(** [this.elements.toggleBtn] and [this.elements.intensityButtons]: after
    [destroy()] they are [undefined] and any use of them raises. *)
Definition the_elements : T Elements :=
  s <- site ;;
  match elements (toggle s) with
  | Some els => unit_T els
  | None => raise
  end.

Definition classList_set (v : bool) : T unit :=
  els <- the_elements ;;
  update (set_elements (Some (mkElements v (intensityButtons els)))).

Definition updateSliderState : T unit :=
  s <- site ;;
  current <- storage_get "intensity"
               (JString (defaultIntensity (options (toggle s)))) ;;
  els <- the_elements ;;
  update (set_elements
            (Some (mkElements (toggleBtn els)
                     (map (fun btn => (fst btn, strict_equal (fst btn) current))
                        (intensityButtons els))))).

(** [new this.SnowEffect({intensity, enabled: true, seasonCheck})]: the
    constructor keeps [intensity || 'medium'], and the effect uses what it
    kept as a key of its table. *)
Definition property_key (v : JSON) : string :=
  match v with
  | JString s => s
  | _ => ToString j v
  end.

Definition new_SnowEffect (intensity : JSON)
    (seasonCheck : option (unit -> bool)) : Effect :=
  set_intensity
    (if truthy intensity then property_key intensity else "medium"%string)
    (constructor (mkOptions None (Some true) seasonCheck)).

Definition enable (intensity : JSON) : T unit :=
  s <- site ;;
  if match toggle_seasonCheck (options (toggle s)) with
     | Some seasonCheck => negb (seasonCheck tt)
     | None => false
     end
  then unit_T tt
  else
    (match snowEffect (toggle s) with
     | Some _ => on_effect stop
     | None => unit_T tt
     end) ;;
    update (set_snowEffect
              (Some (new_SnowEffect intensity
                       (toggle_seasonCheck (options (toggle s)))))) ;;
    on_effect (init SnowEffectClass) ;;
    on_effect start ;;
    classList_set true ;;
    storage_set "enabled" (JBool true) ;;
    storage_set "intensity" intensity ;;
    updateSliderState.

Definition disable : T unit :=
  s <- site ;;
  (match snowEffect (toggle s) with
   | Some _ => on_effect stop ;; update (set_snowEffect None)
   | None => unit_T tt
   end) ;;
  classList_set false ;;
  storage_set "enabled" (JBool false) ;;
  unit_T tt.

Definition setIntensity (level : string) : T unit :=
  s <- site ;;
  if negb (existsb (String.eqb level) (intensities (options (toggle s))))
  then unit_T tt
  else
    storage_set "intensity" (JString level) ;;
    s <- site ;;
    (match snowEffect (toggle s) with
     | Some _ => on_effect (setIntensity SnowEffectClass level)
     | None => unit_T tt
     end) ;;
    updateSliderState.

Definition restoreState : T unit :=
  s <- site ;;
  enabled <- storage_get "enabled" (JBool false) ;;
  intensity <- storage_get "intensity"
                 (JString (defaultIntensity (options (toggle s)))) ;;
  (if truthy enabled then enable intensity else unit_T tt) ;;
  updateSliderState.

(** The click handler of the toggle button. *)
Definition click_toggle : T unit :=
  els <- the_elements ;;
  if toggleBtn els then disable
  else
    s <- site ;;
    intensity <- storage_get "intensity"
                   (JString (defaultIntensity (options (toggle s)))) ;;
    enable intensity.

(** The click handler of an intensity button. *)
Definition click_intensity (intensity : string) : T unit :=
  setIntensity intensity.

(** [createUI()] writes one button per entry of [options.intensities]
    into the markup and keeps the buttons the page finds in it.  A name
    without markup characters is the [data-intensity] of its button; the
    page decodes any other, so the statements about the slider speak of
    the buttons found and of their own [data-intensity], not of the names
    in the options. *)
Definition createUI : T unit :=
  s <- site ;;
  update (set_elements
            (Some (mkElements false
                     (map (fun intensity => (intensity, false))
                        (intensities (options (toggle s))))))).

Definition init : T unit := createUI ;; restoreState.

Definition destroy : T unit :=
  s <- site ;;
  (match snowEffect (toggle s) with
   | Some _ => on_effect stop ;; update (set_snowEffect None)
   | None => unit_T tt
   end) ;;
  update (set_elements None).

End Methods.

(** [new SnowToggle(SnowEffectClass, options)] on a page: the fields, then
    [init()]. *)
Definition new (j : Json) (SnowEffectClass : Build) (opts : ToggleOptions)
    (page : Host) (ls : LocalStorage) : Result unit :=
  init j SnowEffectClass (mkSite page ls (mkToggle opts None None)).

End SnowToggle.

(** ** The storage wrapper: round trips and name spaces *)

Lemma append_inv_head (p a b : string) :
  (p ++ a)%string = (p ++ b)%string -> a = b.
Proof.
  induction p as [| ch p IH]; simpl; intro E; [exact E |].
  inversion E; auto.
Qed.

Lemma append_assoc (a b c : string) :
  ((a ++ b) ++ c)%string = (a ++ (b ++ c))%string.
Proof. induction a as [| ch a IH]; simpl; [reflexivity | rewrite IH; reflexivity]. Qed.

Lemma item_name_inj prefix key key' :
  SimpleStorage.item_name prefix key = SimpleStorage.item_name prefix key' ->
  key = key'.
Proof.
  unfold SimpleStorage.item_name; intro E.
  apply append_inv_head in E; inversion E; reflexivity.
Qed.

Lemma get_after_set j prefix key v d ls :
  denied ls = false ->
  quota ls (SimpleStorage.item_name prefix key) (JSON_stringify j v) = true ->
  JSON_parse j (JSON_stringify j v) = Some v ->
  JSON_stringify j v <> ""%string ->
  fst (SimpleStorage.set j prefix key v ls) = true
  /\ denied (snd (SimpleStorage.set j prefix key v ls)) = false
  /\ quota (snd (SimpleStorage.set j prefix key v ls)) = quota ls
  /\ SimpleStorage.get j prefix key d (snd (SimpleStorage.set j prefix key v ls))
     = v.
Proof.
  intros Hd Hq Hp Hne; unfold SimpleStorage.set, SimpleStorage.get.
  rewrite Hd, Hq; simpl; rewrite Hd, String.eqb_refl, Hp.
  destruct (String.eqb (JSON_stringify j v) "") eqn:E;
    [apply String.eqb_eq in E; contradiction |].
  repeat split.
Qed.

Lemma get_other_name j prefix key d name text ls :
  name <> SimpleStorage.item_name prefix key ->
  SimpleStorage.get j prefix key d (setItem name text ls)
  = SimpleStorage.get j prefix key d ls.
Proof.
  intro Hn; unfold SimpleStorage.get; simpl.
  destruct (String.eqb (SimpleStorage.item_name prefix key) name) eqn:E;
    [apply String.eqb_eq in E; congruence | reflexivity].
Qed.

Lemma get_after_other_set j prefix key d prefix' key' v ls :
  SimpleStorage.item_name prefix' key' <> SimpleStorage.item_name prefix key ->
  SimpleStorage.get j prefix key d
    (snd (SimpleStorage.set j prefix' key' v ls))
  = SimpleStorage.get j prefix key d ls.
Proof.
  intro Hn; unfold SimpleStorage.set.
  destruct (denied ls); [reflexivity |].
  destruct (quota ls _ _); [| reflexivity].
  apply get_other_name, Hn.
Qed.

(** X19: on a storage that is not denied and accepts the item, for a
    value that [JSON] writes as a non-empty text and reads back: [set]
    reports success and a [get] of the same key then returns the value,
    whatever the default; keys other than the one written read as before;
    and after [remove] the key reads as the default again. *)
Theorem storage_round_trip (j : Json) (prefix key : string) (v d : JSON)
    (ls : LocalStorage) :
  denied ls = false ->
  quota ls (SimpleStorage.item_name prefix key) (JSON_stringify j v) = true ->
  JSON_parse j (JSON_stringify j v) = Some v ->
  JSON_stringify j v <> ""%string ->
  fst (SimpleStorage.set j prefix key v ls) = true
  /\ SimpleStorage.get j prefix key d (snd (SimpleStorage.set j prefix key v ls))
     = v
  /\ (forall key' d',
        key' <> key ->
        SimpleStorage.get j prefix key' d'
          (snd (SimpleStorage.set j prefix key v ls))
        = SimpleStorage.get j prefix key' d' ls)
  /\ fst (SimpleStorage.remove prefix key
            (snd (SimpleStorage.set j prefix key v ls))) = true
  /\ SimpleStorage.get j prefix key d
       (snd (SimpleStorage.remove prefix key
               (snd (SimpleStorage.set j prefix key v ls))))
     = d.
Proof.
  intros Hd Hq Hp Hne.
  destruct (get_after_set j prefix key v d ls Hd Hq Hp Hne)
    as (Hok & Hd' & _ & Hget).
  split; [exact Hok |]; split; [exact Hget |]; split; [| split].
  - intros key' d' Hk; apply get_after_other_set.
    intro E; apply item_name_inj in E; congruence.
  - unfold SimpleStorage.remove; rewrite Hd'; reflexivity.
  - unfold SimpleStorage.remove; rewrite Hd'; simpl.
    unfold SimpleStorage.get; simpl.
    rewrite String.eqb_refl.
    destruct (denied (snd (SimpleStorage.set j prefix key v ls)));
      reflexivity.
Qed.

(** A stand-in for the host's [JSON] in examples: it writes booleans and
    [null] as JSON does, and a string behind a marker instead of between
    escaped quotes. *)
Definition plain_json : Json :=
  mkJson
    (fun v =>
       match v with
       | JBool true => "true"
       | JBool false => "false"
       | JString s => String "$"%char s
       | _ => "null"
       end)%string
    (fun text =>
       if String.eqb text "true" then Some (JBool true)
       else if String.eqb text "false" then Some (JBool false)
       else if String.eqb text "null" then Some JNull
       else
         match text with
         | String "$"%char rest => Some (JString rest)
         | _ => None
         end)%string
    (fun _ => "null"%string).

(** A storage that accepts everything and holds nothing. *)
Definition empty_storage : LocalStorage :=
  mkLocalStorage false (fun _ _ => true) (fun _ => None).

Lemma storage_round_trip_witness :
  SimpleStorage.get plain_json "festive-snow" "intensity" (JString "medium")
    (snd (SimpleStorage.set plain_json "festive-snow" "intensity"
            (JString "heavy") empty_storage))
  = JString "heavy".
Proof.
  destruct (storage_round_trip plain_json "festive-snow" "intensity"
              (JString "heavy") (JString "medium") empty_storage)
    as (_ & Hget & _).
  - reflexivity.
  - reflexivity.
  - reflexivity.
  - discriminate.
  - exact Hget.
Defined.

(** Whether a name contains a colon. *)
Fixpoint has_colon (s : string) : bool :=
  match s with
  | EmptyString => false
  | String ch rest => Ascii.eqb ch ":"%char || has_colon rest
  end.

Lemma item_name_prefix p1 k1 p2 k2 :
  has_colon p1 = false -> has_colon p2 = false ->
  SimpleStorage.item_name p1 k1 = SimpleStorage.item_name p2 k2 ->
  p1 = p2 /\ k1 = k2.
Proof.
  unfold SimpleStorage.item_name.
  revert p2; induction p1 as [| c1 p1 IH]; intros [| c2 p2] H1 H2 E;
    simpl in *.
  - inversion E; auto.
  - inversion E; subst c2; simpl in H2; discriminate.
  - inversion E; subst c1; simpl in H1; discriminate.
  - inversion E; subst c2.
    apply orb_false_iff in H1; apply orb_false_iff in H2.
    destruct (IH p2 (proj2 H1) (proj2 H2) H3) as [-> ->]; auto.
Qed.

(** X20: two wrappers whose prefixes differ and contain no colon do not
    see each other's items: a [set] or a [remove] through one leaves every
    [get] through the other as it was.  A prefix with a colon gives no
    such separation: the wrapper for [p:a] stores key [k] under the very
    name that the wrapper for [p] uses for key [a:k]. *)
Theorem storage_prefixes_are_separate (j : Json) (p1 p2 k1 k2 : string)
    (v d : JSON) (ls : LocalStorage) :
  p1 <> p2 ->
  has_colon p1 = false -> has_colon p2 = false ->
  SimpleStorage.get j p2 k2 d (snd (SimpleStorage.set j p1 k1 v ls))
  = SimpleStorage.get j p2 k2 d ls
  /\ SimpleStorage.get j p2 k2 d (snd (SimpleStorage.remove p1 k1 ls))
     = SimpleStorage.get j p2 k2 d ls
  /\ forall p a k,
       SimpleStorage.item_name (p ++ ":" ++ a) k
       = SimpleStorage.item_name p (a ++ ":" ++ k).
Proof.
  intros Hp H1 H2.
  assert (Hn : SimpleStorage.item_name p1 k1 <> SimpleStorage.item_name p2 k2).
  { intro E; destruct (item_name_prefix p1 k1 p2 k2 H1 H2 E); contradiction. }
  split; [apply get_after_other_set, Hn |]; split.
  - unfold SimpleStorage.remove; destruct (denied ls); [reflexivity |].
    unfold SimpleStorage.get; simpl.
    destruct (String.eqb (SimpleStorage.item_name p2 k2)
                (SimpleStorage.item_name p1 k1)) eqn:E;
      [apply String.eqb_eq in E; congruence | reflexivity].
  - intros p a k; unfold SimpleStorage.item_name.
    rewrite append_assoc; reflexivity.
Qed.

Lemma storage_prefixes_are_separate_witness :
  SimpleStorage.get plain_json "other-app" "enabled" (JBool false)
    (snd (SimpleStorage.set plain_json "festive-snow" "enabled" (JBool true)
            empty_storage))
  = SimpleStorage.get plain_json "other-app" "enabled" (JBool false)
      empty_storage.
Proof.
  destruct (storage_prefixes_are_separate plain_json "festive-snow" "other-app"
              "enabled" "enabled" (JBool true) (JBool false) empty_storage)
    as (Hset & _).
  - discriminate.
  - reflexivity.
  - reflexivity.
  - exact Hset.
Defined.

(** X21: [isAvailable()] never raises and reports [true] exactly when the
    storage is not denied and accepts the probe.  It is not read-only: on
    success every other item is as before, but an item that was stored
    under the name ["__test__"] is gone. *)
Theorem isAvailable_probes (ls : LocalStorage) :
  (fst (SimpleStorage.isAvailable ls) = true
   <-> denied ls = false /\ quota ls "__test__" "__test__" = true)
  /\ (fst (SimpleStorage.isAvailable ls) = true ->
      items (snd (SimpleStorage.isAvailable ls)) "__test__" = None
      /\ forall name,
           name <> "__test__"%string ->
           items (snd (SimpleStorage.isAvailable ls)) name = items ls name)
  /\ (fst (SimpleStorage.isAvailable ls) = false ->
      snd (SimpleStorage.isAvailable ls) = ls).
Proof.
  unfold SimpleStorage.isAvailable.
  destruct (denied ls); simpl.
  - split; [split; [discriminate | intros [? _]; discriminate] |].
    split; [discriminate | reflexivity].
  - destruct (quota ls "__test__" "__test__"); simpl.
    + split; [split; auto |]; split; [| discriminate].
      intros _; split; [reflexivity |].
      intros name Hn.
      destruct (String.eqb name "__test__") eqn:E;
        [apply String.eqb_eq in E; contradiction | reflexivity].
    + split; [split; [discriminate | intros [_ ?]; discriminate] |].
      split; [discriminate | reflexivity].
Qed.

(** ** The toggle: running a method *)

Lemma bind_T_Done {A B} (m : T A) (k : A -> T B) s a s1 :
  m s = Done a s1 -> bind_T m k s = k a s1.
Proof. unfold bind_T; intros ->; reflexivity. Qed.

Lemma bind_T_Raised {A B} (m : T A) (k : A -> T B) s s1 :
  m s = Raised s1 -> bind_T m k s = Raised s1.
Proof. unfold bind_T; intros ->; reflexivity. Qed.

Lemma bind_update {B} f (k : unit -> T B) s :
  bind_T (update f) k s = k tt (f s).
Proof. reflexivity. Qed.

Lemma bind_site {B} (k : Site -> T B) s : bind_T site k s = k s s.
Proof. reflexivity. Qed.

Lemma on_effect_Ok {A} (m : M A) s e a w :
  snowEffect (toggle s) = Some e ->
  m (mkWorld (window s) e) = Ok a w ->
  on_effect m s
  = Done a (set_snowEffect (Some (self w)) (set_window (host w) s)).
Proof. unfold on_effect; intros -> ->; reflexivity. Qed.

Lemma on_effect_Throw {A} (m : M A) s e w :
  snowEffect (toggle s) = Some e ->
  m (mkWorld (window s) e) = Throw w ->
  on_effect m s
  = Raised (set_snowEffect (Some (self w)) (set_window (host w) s)).
Proof. unfold on_effect; intros -> ->; reflexivity. Qed.

(** What [stop()] leaves of the page. *)
Lemma stop_page w :
  exists w',
    stop w = Ok tt w'
    /\ animationId (self w') = None
    /\ canvas (self w') = None
    /\ listening (host w') = false
    /\ innerWidth (host w') = innerWidth (host w)
    /\ innerHeight (host w') = innerHeight (host w)
    /\ nextHandle (host w') = nextHandle (host w)
    /\ clock (host w') = clock (host w)
    /\ timers (host w') = timers (host w)
    /\ frames (host w')
       = match animationId (self w) with
         | Some id => drop id (frames (host w))
         | None => frames (host w)
         end.
Proof.
  unfold stop, pause, _cleanup, cancelAnimationFrame, this, page, assign,
    tell, ret, bind; simpl.
  destruct (animationId (self w)); simpl;
    (eexists; split; [reflexivity |]); simpl; repeat split.
Qed.

(** The season test at the head of [enable]. *)
Definition in_season (opts : ToggleOptions) : Prop :=
  match toggle_seasonCheck opts with
  | Some seasonCheck => seasonCheck tt = true
  | None => True
  end.

(** A value that the host's [JSON] writes as a non-empty text and reads
    back. *)
Definition storable (j : Json) (v : JSON) : Prop :=
  JSON_parse j (JSON_stringify j v) = Some v
  /\ JSON_stringify j v <> ""%string.

(** A storage that is not denied and refuses nothing. *)
Definition roomy (ls : LocalStorage) : Prop :=
  denied ls = false /\ forall name text, quota ls name text = true.

Lemma roomy_set j prefix key v ls :
  roomy ls -> roomy (snd (SimpleStorage.set j prefix key v ls)).
Proof.
  intros [Hd Hq]; unfold SimpleStorage.set; rewrite Hd, Hq; split; assumption.
Qed.

Lemma tier_not_empty b tier config :
  INTENSITY_CONFIG b tier = Some config -> String.eqb tier "" = false.
Proof.
  destruct (String.eqb tier "") eqn:E; [| reflexivity].
  apply String.eqb_eq in E; subst tier; destruct b; discriminate.
Qed.

(** The slider after [updateSliderState] when the stored intensity reads
    as the string [tier]. *)
Definition highlighted (tier : string) (buttons : list (string * bool))
    : list (string * bool) :=
  map (fun btn => (fst btn, String.eqb (fst btn) tier)) buttons.

Lemma new_SnowEffect_tier j tier seasonCheck :
  String.eqb tier "" = false ->
  SnowToggle.new_SnowEffect j (JString tier) seasonCheck
  = set_intensity tier (constructor (mkOptions None (Some true) seasonCheck)).
Proof.
  intro Hne; unfold SnowToggle.new_SnowEffect; simpl; rewrite Hne; reflexivity.
Qed.

(** The second half of [enable], once the previous effect is out of the
    way: a new effect is constructed, initialized and started, the button
    is marked and the state saved. *)
Lemma enable_builds j b tier config s els :
  INTENSITY_CONFIG b tier = Some config ->
  elements (toggle s) = Some els ->
  roomy (localStorage s) ->
  storable j (JBool true) -> storable j (JString tier) ->
  exists s' e,
    (update (set_snowEffect
               (Some (SnowToggle.new_SnowEffect j (JString tier)
                        (toggle_seasonCheck (options (toggle s))))));;
     on_effect (init b);;
     on_effect start;;
     SnowToggle.classList_set true;;
     SnowToggle.storage_set j "enabled" (JBool true);;
     SnowToggle.storage_set j "intensity" (JString tier);;
     SnowToggle.updateSliderState j)%toggle s
    = Done tt s'
    /\ snowEffect (toggle s') = Some e
    /\ options (toggle s') = options (toggle s)
    /\ intensity e = tier
    /\ enabled e = true
    /\ canvas e
       = Some (mkCanvas (innerWidth (window s)) (innerHeight (window s)) true)
    /\ isPaused e = false
    /\ animationId e = Some (nextHandle (window s))
    /\ frames (window s') = nextHandle (window s) :: frames (window s)
    /\ timers (window s') = timers (window s)
    /\ listening (window s') = true
    /\ elements (toggle s')
       = Some (mkElements true (highlighted tier (intensityButtons els)))
    /\ roomy (localStorage s')
    /\ (forall d,
          SimpleStorage.get j (storageKey (options (toggle s'))) "enabled" d
            (localStorage s')
          = JBool true)
    /\ (forall d,
          SimpleStorage.get j (storageKey (options (toggle s'))) "intensity" d
            (localStorage s')
          = JString tier).
Proof.
  intros Hcfg Hels Hroom [Hpb Hnb] [Hpt Hnt].
  pose proof (tier_not_empty b tier config Hcfg) as Hne.
  set (opts := options (toggle s)).
  set (prefix := storageKey opts).
  rewrite (new_SnowEffect_tier j tier _ Hne).
  pose (e0 := set_intensity tier
                (constructor
                   (mkOptions None (Some true) (toggle_seasonCheck opts)))).
  assert (Hi0 : intensity e0 = tier) by reflexivity.
  pose (s1 := set_snowEffect (Some e0) s).
  assert (Hcfg0 : INTENSITY_CONFIG b (intensity (self (mkWorld (window s1) e0)))
                  = Some config)
    by exact Hcfg.
  destruct (init_spec b (mkWorld (window s1) e0) config eq_refl Hcfg0)
    as (ps & qs & n & Einit).
  match type of Einit with _ = Ok tt ?w => set (w2 := w) in * end.
  pose (s2 := set_snowEffect (Some (self w2)) (set_window (host w2) s1)).
  pose proof (start_spec (mkWorld (window s2) (self w2))
                (mkCanvas (innerWidth (window s)) (innerHeight (window s)) true)
                eq_refl eq_refl) as Estart.
  match type of Estart with _ = Ok tt ?w => set (w3 := w) in * end.
  pose (s3 := set_snowEffect (Some (self w3)) (set_window (host w3) s2)).
  pose (s4 := set_elements
                (Some (mkElements true (intensityButtons els))) s3).
  pose (ls5 := snd (SimpleStorage.set j prefix "enabled" (JBool true)
                      (localStorage s))).
  pose (ls6 := snd (SimpleStorage.set j prefix "intensity" (JString tier)
                      ls5)).
  pose (s6 := set_localStorage ls6 (set_localStorage ls5 s4)).
  assert (Hr5 : roomy ls5) by (apply roomy_set; exact Hroom).
  assert (Hr6 : roomy ls6) by (apply roomy_set; exact Hr5).
  assert (Hget_t : forall d,
             SimpleStorage.get j prefix "intensity" d ls6 = JString tier).
  { intro d; destruct Hr5 as [Hd5 Hq5].
    apply (get_after_set j prefix "intensity" (JString tier) d ls5 Hd5
             (Hq5 _ _) Hpt Hnt). }
  assert (Hget_e : forall d,
             SimpleStorage.get j prefix "enabled" d ls6 = JBool true).
  { intro d; unfold ls6; rewrite get_after_other_set.
    - destruct Hroom as [Hd Hq].
      apply (get_after_set j prefix "enabled" (JBool true) d (localStorage s)
               Hd (Hq _ _) Hpb Hnb).
    - intro E; apply item_name_inj in E; discriminate. }
  exists (set_elements
            (Some (mkElements true (highlighted tier (intensityButtons els))))
            s6),
    (self w3).
  split.
  - rewrite bind_update; fold e0; fold s1.
    rewrite (bind_T_Done _ _ s1 tt s2
               (on_effect_Ok (init b) s1 e0 tt w2 eq_refl Einit)).
    rewrite (bind_T_Done _ _ s2 tt s3
               (on_effect_Ok start s2 (self w2) tt w3 eq_refl Estart)).
    assert (E4 : SnowToggle.classList_set true s3 = Done tt s4).
    { unfold SnowToggle.classList_set, SnowToggle.the_elements, site, update,
        unit_T, bind_T; simpl; rewrite Hels; reflexivity. }
    rewrite (bind_T_Done _ _ s3 tt s4 E4).
    assert (E5 : SnowToggle.storage_set j "enabled" (JBool true) s4
                 = Done (fst (SimpleStorage.set j prefix "enabled" (JBool true)
                                (localStorage s)))
                     (set_localStorage ls5 s4)) by reflexivity.
    rewrite (bind_T_Done _ _ s4 _ _ E5).
    assert (E6 : SnowToggle.storage_set j "intensity" (JString tier)
                   (set_localStorage ls5 s4)
                 = Done (fst (SimpleStorage.set j prefix "intensity"
                                (JString tier) ls5)) s6) by reflexivity.
    rewrite (bind_T_Done _ _ _ _ _ E6).
    unfold SnowToggle.updateSliderState, SnowToggle.storage_get,
      SnowToggle.the_elements, site, update, unit_T, bind_T; simpl.
    fold opts; fold prefix; fold ls5; fold ls6.
    rewrite Hget_t; reflexivity.
  - split; [reflexivity |]; split; [reflexivity |]; split; [exact Hi0 |].
    split; [reflexivity |]; split; [reflexivity |]; split; [reflexivity |].
    split; [reflexivity |]; split; [reflexivity |]; split; [reflexivity |].
    split; [reflexivity |]; split; [reflexivity |]; split; [exact Hr6 |].
    split; [exact Hget_e | exact Hget_t].
Qed.

Lemma in_season_test opts :
  in_season opts ->
  match toggle_seasonCheck opts with
  | Some seasonCheck => negb (seasonCheck tt)
  | None => false
  end = false.
Proof.
  unfold in_season; destruct (toggle_seasonCheck opts) as [f |];
    [intros ->; reflexivity | reflexivity].
Qed.

(** The frames left pending once the previous effect, if any, was
    stopped. *)
Definition frames_without (previous : option Effect) (s : Site)
    : list positive :=
  match previous with
  | Some e =>
      match animationId e with
      | Some id => drop id (frames (window s))
      | None => frames (window s)
      end
  | None => frames (window s)
  end.

(** The first half of [enable]: the previous effect, if any, is stopped. *)
Lemma enable_clears s :
  exists s0,
    match snowEffect (toggle s) with
    | Some _ => on_effect stop
    | None => unit_T tt
    end s = Done tt s0
    /\ options (toggle s0) = options (toggle s)
    /\ elements (toggle s0) = elements (toggle s)
    /\ localStorage s0 = localStorage s
    /\ innerWidth (window s0) = innerWidth (window s)
    /\ innerHeight (window s0) = innerHeight (window s)
    /\ nextHandle (window s0) = nextHandle (window s)
    /\ timers (window s0) = timers (window s)
    /\ frames (window s0) = frames_without (snowEffect (toggle s)) s.
Proof.
  destruct (snowEffect (toggle s)) as [e |] eqn:He.
  - destruct (stop_page (mkWorld (window s) e))
      as (w' & E & _ & _ & _ & HW & HH & Hn & _ & Ht & Hf).
    eexists; split; [apply (on_effect_Ok stop s e tt w' He E) |].
    simpl; repeat split; assumption.
  - exists s; split; [reflexivity |]; repeat split.
Qed.

Lemma enable_spec j b tier config s els :
  INTENSITY_CONFIG b tier = Some config ->
  in_season (options (toggle s)) ->
  elements (toggle s) = Some els ->
  roomy (localStorage s) ->
  storable j (JBool true) -> storable j (JString tier) ->
  exists s' e,
    SnowToggle.enable j b (JString tier) s = Done tt s'
    /\ snowEffect (toggle s') = Some e
    /\ options (toggle s') = options (toggle s)
    /\ intensity e = tier
    /\ enabled e = true
    /\ canvas e
       = Some (mkCanvas (innerWidth (window s)) (innerHeight (window s)) true)
    /\ isPaused e = false
    /\ animationId e = Some (nextHandle (window s))
    /\ frames (window s')
       = nextHandle (window s) :: frames_without (snowEffect (toggle s)) s
    /\ elements (toggle s')
       = Some (mkElements true (highlighted tier (intensityButtons els)))
    /\ roomy (localStorage s')
    /\ (forall d,
          SimpleStorage.get j (storageKey (options (toggle s))) "enabled" d
            (localStorage s')
          = JBool true)
    /\ (forall d,
          SimpleStorage.get j (storageKey (options (toggle s))) "intensity" d
            (localStorage s')
          = JString tier).
Proof.
  intros Hcfg Hseason Hels Hroom Hb Ht.
  destruct (enable_clears s)
    as (s0 & E0 & Ho & He & Hl & HW & HH & Hn & _ & Hf).
  rewrite <- He in Hels; rewrite <- Hl in Hroom.
  destruct (enable_builds j b tier config s0 els Hcfg Hels Hroom Hb Ht)
    as (s' & e & E & Hs & Ho' & Hi & Hen & Hc & Hp & Hid & Hfr & _ & _ & Hel
        & Hr & Hge & Hgt).
  exists s', e; split.
  - unfold SnowToggle.enable; rewrite bind_site.
    rewrite (in_season_test _ Hseason).
    rewrite (bind_T_Done _ _ s tt s0 E0).
    rewrite <- Ho; exact E.
  - rewrite Ho', Ho in Hge, Hgt; rewrite HW, HH in Hc; rewrite Hn in Hid, Hfr.
    rewrite Hf in Hfr; rewrite Ho in Ho'.
    repeat (split; [assumption |]); assumption.
Qed.

(** X22: [enable] with one of the engine's tiers, in season, on a toggle
    whose elements exist, with a storage that refuses nothing and a
    [JSON] that reads back what it writes: it returns; the previous effect
    (if any) was stopped and its frame cancelled; a new effect with that
    tier and [enabled] set is initialized on a canvas of the viewport's
    size and running, with its one frame requested; the toggle button is
    marked active, exactly the slider buttons of that tier are
    highlighted, and the storage reads back [enabled = true] and the
    tier. *)
Theorem enable_starts_and_saves (j : Json) (b : Build) (tier : string)
    (config : IntensityConfig) (s : Site) (els : Elements) :
  INTENSITY_CONFIG b tier = Some config ->
  in_season (options (toggle s)) ->
  elements (toggle s) = Some els ->
  roomy (localStorage s) ->
  storable j (JBool true) -> storable j (JString tier) ->
  exists s' e,
    SnowToggle.enable j b (JString tier) s = Done tt s'
    /\ snowEffect (toggle s') = Some e
    /\ intensity e = tier
    /\ enabled e = true
    /\ canvas e
       = Some (mkCanvas (innerWidth (window s)) (innerHeight (window s)) true)
    /\ isPaused e = false
    /\ animationId e = Some (nextHandle (window s))
    /\ frames (window s')
       = nextHandle (window s) :: frames_without (snowEffect (toggle s)) s
    /\ elements (toggle s')
       = Some (mkElements true (highlighted tier (intensityButtons els)))
    /\ (forall d,
          SimpleStorage.get j (storageKey (options (toggle s))) "enabled" d
            (localStorage s')
          = JBool true)
    /\ (forall d,
          SimpleStorage.get j (storageKey (options (toggle s))) "intensity" d
            (localStorage s')
          = JString tier).
Proof.
  intros Hcfg Hseason Hels Hroom Hb Ht.
  destruct (enable_spec j b tier config s els Hcfg Hseason Hels Hroom Hb Ht)
    as (s' & e & E & Hs & _ & Hi & Hen & Hc & Hp & Hid & Hfr & Hel & _ & Hge
        & Hgt).
  exists s', e.
  repeat (split; [assumption |]); assumption.
Qed.

(** A toggle with the default options, built on a page, before anything
    was saved. *)
Definition default_options : ToggleOptions :=
  mkToggleOptions "festive-snow" ["light"; "medium"; "heavy"]%string "medium"
    None.

Definition fresh_site : Site :=
  left_by (SnowToggle.new plain_json CoreBuild default_options desk
             empty_storage).

Lemma plain_json_bool b : storable plain_json (JBool b).
Proof. destruct b; split; (reflexivity || discriminate). Qed.

Lemma plain_json_tier tier :
  includes tier = true -> storable plain_json (JString tier).
Proof.
  unfold includes; simpl; intro H.
  repeat (apply orb_true_iff in H; destruct H as [H | H];
          [apply String.eqb_eq in H; subst tier;
           split; [reflexivity | discriminate] |]).
  discriminate.
Qed.

Lemma empty_storage_roomy : roomy empty_storage.
Proof. split; reflexivity. Qed.

Lemma enable_starts_and_saves_witness :
  exists s' e,
    SnowToggle.enable plain_json CoreBuild (JString "heavy") fresh_site
    = Done tt s'
    /\ snowEffect (toggle s') = Some e
    /\ animationId e = Some 1%positive
    /\ SimpleStorage.get plain_json "festive-snow" "intensity" JNull
         (localStorage s')
       = JString "heavy".
Proof.
  destruct (enable_starts_and_saves plain_json CoreBuild "heavy"
              (mkConfig 300 (1.0, 3.5) (1, 5) 20 10) fresh_site
              (mkElements false
                 [("light", false); ("medium", true); ("heavy", false)]%string))
    as (s' & e & E & He & _ & _ & _ & _ & Hid & _ & _ & _ & Hg).
  - reflexivity.
  - exact I.
  - reflexivity.
  - exact empty_storage_roomy.
  - apply plain_json_bool.
  - apply plain_json_tier; reflexivity.
  - exists s', e; split; [exact E |]; split; [exact He |].
    split; [exact Hid | apply Hg].
Defined.

(** X23: [enable] with a name that is no tier of the engine (as the
    custom [intensities] of the toggle allow), in season: it raises out of
    [init()].  The previous effect (if any) was stopped; the new effect is
    left in [snowEffect] with its canvas attached, but it has no particles
    and no frame was requested; the toggle button and the slider are as
    they were, and nothing was saved. *)
Theorem enable_unknown_tier_raises (j : Json) (b : Build) (name : string)
    (s : Site) :
  INTENSITY_CONFIG b name = None ->
  name <> ""%string ->
  ~ In name Object_prototype_keys ->
  in_season (options (toggle s)) ->
  exists s' e,
    SnowToggle.enable j b (JString name) s = Raised s'
    /\ snowEffect (toggle s') = Some e
    /\ canvas e
       = Some (mkCanvas (innerWidth (window s)) (innerHeight (window s)) true)
    /\ particles e = []
    /\ specialParticles e = []
    /\ animationId e = None
    /\ frames (window s') = frames_without (snowEffect (toggle s)) s
    /\ elements (toggle s') = elements (toggle s)
    /\ localStorage s' = localStorage s.
Proof.
  intros Hcfg Hne _ Hseason.
  destruct (enable_clears s)
    as (s0 & E0 & Ho & He & Hl & HW & HH & _ & _ & Hf).
  assert (Hne' : String.eqb name "" = false).
  { destruct (String.eqb name "") eqn:E; [| reflexivity].
    apply String.eqb_eq in E; contradiction. }
  pose (e0 := set_intensity name
                (constructor
                   (mkOptions None (Some true)
                      (toggle_seasonCheck (options (toggle s)))))).
  pose (s1 := set_snowEffect (Some e0) s0).
  assert (Hcfg0 : INTENSITY_CONFIG b (intensity (self (mkWorld (window s1) e0)))
                  = None)
    by exact Hcfg.
  pose proof (init_raises b (mkWorld (window s1) e0) eq_refl Hcfg0) as Einit.
  match type of Einit with _ = Throw ?w => set (w2 := w) in * end.
  exists (set_snowEffect (Some (self w2)) (set_window (host w2) s1)), (self w2).
  split.
  - unfold SnowToggle.enable; rewrite bind_site.
    rewrite (in_season_test _ Hseason).
    rewrite (bind_T_Done _ _ s tt s0 E0).
    rewrite bind_update, (new_SnowEffect_tier j name _ Hne').
    fold e0; fold s1.
    apply bind_T_Raised.
    apply (on_effect_Throw (init b) s1 e0 w2 eq_refl Einit).
  - simpl; rewrite HW, HH, Hf, He, Hl; repeat split; reflexivity.
Qed.

Lemma enable_unknown_tier_raises_witness :
  exists s' e,
    SnowToggle.enable plain_json CoreBuild (JString "gentle") fresh_site
    = Raised s'
    /\ snowEffect (toggle s') = Some e
    /\ animationId e = None
    /\ localStorage s' = localStorage fresh_site.
Proof.
  destruct (enable_unknown_tier_raises plain_json CoreBuild "gentle" fresh_site)
    as (s' & e & E & He & _ & _ & _ & Hid & _ & _ & Hl).
  - reflexivity.
  - discriminate.
  - simpl; intros H.
    repeat (destruct H as [H | H]; [discriminate |]); exact H.
  - exact I.
  - exists s', e; split; [exact E |]; split; [exact He |].
    split; [exact Hid | exact Hl].
Defined.

(** ** The toggle keeps one effect at a time *)

(** What the toggle can be asked to do. *)
Inductive Request :=
| Click_toggle
| Click_intensity (intensity : string)
| Ask_enable (intensity : JSON)
| Ask_disable
| Ask_setIntensity (level : string)
| Ask_destroy.

Definition serve (j : Json) (b : Build) (r : Request) : T unit :=
  match r with
  | Click_toggle => SnowToggle.click_toggle j b
  | Click_intensity intensity => SnowToggle.click_intensity j b intensity
  | Ask_enable intensity => SnowToggle.enable j b intensity
  | Ask_disable => SnowToggle.disable j
  | Ask_setIntensity level => SnowToggle.setIntensity j b level
  | Ask_destroy => SnowToggle.destroy
  end.

(** The site after a sequence of requests; a request that raises ends
    there and the page goes on. *)
Fixpoint visit (j : Json) (b : Build) (rs : list Request) (s : Site) : Site :=
  match rs with
  | [] => s
  | r :: rest => visit j b rest (left_by (serve j b r s))
  end.

(** An effect whose frame loop is consistent on a page without timers. *)
Definition orderly (w : World) : Prop :=
  loop_consistent w /\ timers (host w) = [].

Lemma orderly_scheduled w : orderly w -> scheduled w.
Proof. intros [L Ht]; split; [exact L | left; exact Ht]. Qed.

Lemma idle_orderly w w' : idle w w' -> orderly w -> orderly w'.
Proof.
  intros Hi Ho.
  destruct (idle_scheduled w w' Hi (orderly_scheduled w Ho)) as [L _].
  destruct Hi as (_ & _ & _ & _ & Ht & _); destruct Ho as [_ Ht0].
  split; [exact L | rewrite Ht; exact Ht0].
Qed.

Lemma start_timers w : timers (host (after (start w))) = timers (host w).
Proof.
  unfold start, requestAnimationFrame, fresh_handle, performance_now, this,
    page, assign, tell, ret, bind; simpl.
  destruct (canvas (self w)); [| reflexivity].
  destruct (animationId (self w)); reflexivity.
Qed.

Lemma start_orderly w : orderly w -> orderly (after (start w)).
Proof.
  intro Ho; destruct (start_scheduled w (orderly_scheduled w Ho)) as [L _].
  split; [exact L | rewrite start_timers; exact (proj2 Ho)].
Qed.

Lemma stop_orderly w :
  orderly w ->
  exists w',
    stop w = Ok tt w'
    /\ animationId (self w') = None
    /\ frames (host w') = []
    /\ timers (host w') = []
    /\ listening (host w') = false.
Proof.
  intros [L Ht].
  destruct (stop_page w)
    as (w' & E & Hid & _ & Hl & _ & _ & _ & _ & Ht' & Hf).
  exists w'; split; [exact E |]; split; [exact Hid |].
  split; [| split; [rewrite Ht'; exact Ht | exact Hl]].
  rewrite Hf; destruct L as [[L1 L2] | (id & L1 & L2 & _)].
  - rewrite L1; exact L2.
  - rewrite L1, L2; apply drop_only.
Qed.

(** The invariant of the site: no timers; the toggle's effect, if any,
    has a consistent frame loop; without an effect no frame is pending
    and no listener is bound. *)
Definition site_ok (s : Site) : Prop :=
  match snowEffect (toggle s) with
  | Some e => orderly (mkWorld (window s) e)
  | None =>
      frames (window s) = [] /\ timers (window s) = []
      /\ listening (window s) = false
  end.

Definition keeps {A} (m : T A) : Prop :=
  forall s, site_ok s -> site_ok (left_by (m s)).

Lemma keeps_unit {A} (a : A) : keeps (unit_T a).
Proof. intros s H; exact H. Qed.

Lemma keeps_raise {A} : keeps (@raise A).
Proof. intros s H; exact H. Qed.

Lemma keeps_site : keeps site.
Proof. intros s H; exact H. Qed.

Lemma keeps_bind {A B} (m : T A) (k : A -> T B) :
  keeps m -> (forall a, keeps (k a)) -> keeps (bind_T m k).
Proof.
  intros Hm Hk s H; specialize (Hm s H); unfold bind_T.
  destruct (m s) as [a s1 | s1]; simpl in *; [apply Hk; exact Hm | exact Hm].
Qed.

Lemma keeps_elements f : keeps (update (fun s => set_elements (f s) s)).
Proof. intros s H; exact H. Qed.

Lemma keeps_storage f : keeps (update (fun s => set_localStorage (f s) s)).
Proof. intros s H; exact H. Qed.

Lemma keeps_on_effect {A} (m : M A) :
  (forall w, orderly w -> orderly (after (m w))) -> keeps (on_effect m).
Proof.
  intros Hm s H; unfold on_effect.
  destruct (snowEffect (toggle s)) as [e |] eqn:He; [| simpl; exact H].
  unfold site_ok in H; rewrite He in H; specialize (Hm _ H).
  destruct (m (mkWorld (window s) e)) as [a w | w]; simpl in *;
    unfold site_ok; simpl; destruct w; exact Hm.
Qed.

Lemma keeps_the_elements : keeps SnowToggle.the_elements.
Proof.
  unfold SnowToggle.the_elements.
  apply keeps_bind; [apply keeps_site | intro s].
  destruct (elements (toggle s)); [apply keeps_unit | apply keeps_raise].
Qed.

Lemma keeps_classList_set v : keeps (SnowToggle.classList_set v).
Proof.
  unfold SnowToggle.classList_set.
  apply keeps_bind; [apply keeps_the_elements | intro els].
  apply (keeps_elements (fun _ => Some (mkElements v (intensityButtons els)))).
Qed.

Lemma keeps_storage_get j key d : keeps (SnowToggle.storage_get j key d).
Proof.
  unfold SnowToggle.storage_get.
  apply keeps_bind; [apply keeps_site | intro s; apply keeps_unit].
Qed.

Lemma keeps_storage_set j key v : keeps (SnowToggle.storage_set j key v).
Proof.
  unfold SnowToggle.storage_set.
  apply keeps_bind; [apply keeps_site | intro s; cbv zeta].
  apply keeps_bind; [| intros _; apply keeps_unit].
  apply (keeps_storage (fun _ => snd (SimpleStorage.set j _ key v _))).
Qed.

Lemma keeps_updateSliderState j : keeps (SnowToggle.updateSliderState j).
Proof.
  unfold SnowToggle.updateSliderState.
  apply keeps_bind; [apply keeps_site | intro s].
  apply keeps_bind; [apply keeps_storage_get | intro current].
  apply keeps_bind; [apply keeps_the_elements | intro els].
  apply (keeps_elements (fun _ => Some _)).
Qed.

Lemma keeps_setIntensity j b level : keeps (SnowToggle.setIntensity j b level).
Proof.
  unfold SnowToggle.setIntensity.
  apply keeps_bind; [apply keeps_site | intro s].
  destruct (negb _); [apply keeps_unit |].
  apply keeps_bind; [apply keeps_storage_set | intros _].
  apply keeps_bind; [apply keeps_site | intro s'].
  apply keeps_bind; [| intros _; apply keeps_updateSliderState].
  destruct (snowEffect (toggle s')); [| apply keeps_unit].
  apply keeps_on_effect; intros w; apply idle_orderly, idle_setIntensity.
Qed.

(** Stopping the effect, if there is one, leaves nothing pending. *)
Lemma stopped_site s :
  site_ok s ->
  exists s0,
    match snowEffect (toggle s) with
    | Some _ => on_effect stop
    | None => unit_T tt
    end s = Done tt s0
    /\ frames (window s0) = []
    /\ timers (window s0) = []
    /\ listening (window s0) = false
    /\ toggle s0
       = mkToggle (options (toggle s)) (snowEffect (toggle s0))
           (elements (toggle s)).
Proof.
  unfold site_ok; intro H.
  destruct (snowEffect (toggle s)) as [e |] eqn:He.
  - destruct (stop_orderly _ H) as (w' & E & _ & Hf & Ht & Hl).
    eexists; split; [apply (on_effect_Ok stop s e tt w' He E) |].
    simpl; repeat split; assumption.
  - destruct H as (Hf & Ht & Hl).
    exists s; split; [reflexivity |]; repeat split; try assumption.
    destruct s as [? ? []]; simpl in *; rewrite He; reflexivity.
Qed.

Lemma keeps_enable j b intensity : keeps (SnowToggle.enable j b intensity).
Proof.
  intros s H; unfold SnowToggle.enable; rewrite bind_site.
  destruct (match toggle_seasonCheck (options (toggle s)) with
            | Some seasonCheck => negb (seasonCheck tt)
            | None => false
            end); [exact H |].
  destruct (stopped_site s H) as (s0 & E0 & Hf & Ht & Hl & _).
  rewrite (bind_T_Done _ _ s tt s0 E0), bind_update.
  match goal with
  | |- site_ok (left_by (?m ?s1)) =>
      assert (Hm : keeps m); [| apply Hm]
  end.
  - apply keeps_bind;
      [apply keeps_on_effect; intro w; apply idle_orderly, idle_init |].
    intros _; apply keeps_bind;
      [apply keeps_on_effect; intro w; apply start_orderly |].
    intros _; apply keeps_bind; [apply keeps_classList_set |].
    intros _; apply keeps_bind; [apply keeps_storage_set |].
    intros _; apply keeps_bind; [apply keeps_storage_set |].
    intros _; apply keeps_updateSliderState.
  - unfold site_ok; simpl; split; [left; simpl; auto | exact Ht].
Qed.

Lemma keeps_release :
  keeps (s <- site ;;
         (match snowEffect (toggle s) with
          | Some _ => on_effect stop ;; update (set_snowEffect None)
          | None => unit_T tt
          end))%toggle.
Proof.
  intros s H; rewrite bind_site.
  destruct (stopped_site s H) as (s0 & E0 & Hf & Ht & Hl & _).
  destruct (snowEffect (toggle s)) as [e |] eqn:He.
  - rewrite (bind_T_Done _ _ s tt s0 E0); simpl.
    unfold site_ok; simpl; auto.
  - exact H.
Qed.

Lemma keeps_disable j : keeps (SnowToggle.disable j).
Proof.
  intros s H; unfold SnowToggle.disable; rewrite bind_site.
  pose proof (keeps_release s H) as H1; rewrite bind_site in H1.
  match goal with
  | |- site_ok (left_by (bind_T ?m ?k s)) =>
      destruct (m s) as [[] s1 | s1] eqn:E; simpl in H1;
        [rewrite (bind_T_Done m k s tt s1 E)
        | rewrite (bind_T_Raised m k s s1 E); exact H1]
  end.
  match goal with
  | |- site_ok (left_by (?m s1)) => assert (Hm : keeps m); [| apply Hm, H1]
  end.
  apply keeps_bind; [apply keeps_classList_set | intros _].
  apply keeps_bind; [apply keeps_storage_set | intros _; apply keeps_unit].
Qed.

Lemma keeps_destroy : keeps SnowToggle.destroy.
Proof.
  intros s H; unfold SnowToggle.destroy; rewrite bind_site.
  pose proof (keeps_release s H) as H1; rewrite bind_site in H1.
  match goal with
  | |- site_ok (left_by (bind_T ?m ?k s)) =>
      destruct (m s) as [[] s1 | s1] eqn:E; simpl in H1;
        [rewrite (bind_T_Done m k s tt s1 E)
        | rewrite (bind_T_Raised m k s s1 E); exact H1]
  end.
  exact H1.
Qed.

Lemma keeps_click_toggle j b : keeps (SnowToggle.click_toggle j b).
Proof.
  unfold SnowToggle.click_toggle.
  apply keeps_bind; [apply keeps_the_elements | intro els].
  destruct (toggleBtn els); [apply keeps_disable |].
  apply keeps_bind; [apply keeps_site | intro s].
  apply keeps_bind; [apply keeps_storage_get | intro v; apply keeps_enable].
Qed.

Lemma keeps_restoreState j b : keeps (SnowToggle.restoreState j b).
Proof.
  unfold SnowToggle.restoreState.
  apply keeps_bind; [apply keeps_site | intro s].
  apply keeps_bind; [apply keeps_storage_get | intro enabled].
  apply keeps_bind; [apply keeps_storage_get | intro v].
  apply keeps_bind; [| intros _; apply keeps_updateSliderState].
  destruct (truthy enabled); [apply keeps_enable | apply keeps_unit].
Qed.

Lemma keeps_init j b : keeps (SnowToggle.init j b).
Proof.
  unfold SnowToggle.init, SnowToggle.createUI.
  apply keeps_bind; [| intros _; apply keeps_restoreState].
  apply keeps_bind; [apply keeps_site | intro s].
  apply (keeps_elements (fun _ => Some _)).
Qed.

Lemma keeps_serve j b r : keeps (serve j b r).
Proof.
  destruct r; simpl.
  - apply keeps_click_toggle.
  - apply keeps_setIntensity.
  - apply keeps_enable.
  - apply keeps_disable.
  - apply keeps_setIntensity.
  - apply keeps_destroy.
Qed.

Lemma visit_ok j b rs s : site_ok s -> site_ok (visit j b rs s).
Proof.
  revert s; induction rs as [| r rs IH]; intros s H; simpl; [exact H |].
  apply IH, keeps_serve, H.
Qed.

(** X24: a toggle constructed on a page with nothing scheduled and no
    listener bound, then asked anything any number of times (clicks on the
    button or the slider, [enable], [disable], [setIntensity],
    [destroy]), whether the requests return or raise: when it holds an
    effect, at most one animation frame is pending and it is the one that
    effect recorded; when it holds none, no frame is pending and no
    listener is bound.  An effect that was replaced or disabled leaves
    nothing running behind. *)
Theorem toggle_keeps_one_effect (j : Json) (b : Build) (opts : ToggleOptions)
    (page : Host) (ls : LocalStorage) (rs : list Request) :
  frames page = [] -> timers page = [] -> listening page = false ->
  (forall e,
     snowEffect (toggle (visit j b rs (left_by (SnowToggle.new j b opts page ls))))
     = Some e ->
     loop_consistent
       (mkWorld
          (window (visit j b rs (left_by (SnowToggle.new j b opts page ls))))
          e))
  /\ (snowEffect
        (toggle (visit j b rs (left_by (SnowToggle.new j b opts page ls))))
      = None ->
      frames (window (visit j b rs (left_by (SnowToggle.new j b opts page ls))))
      = []
      /\ listening
           (window (visit j b rs (left_by (SnowToggle.new j b opts page ls))))
         = false).
Proof.
  intros Hf Ht Hl.
  assert (H0 : site_ok (mkSite page ls (mkToggle opts None None)))
    by (unfold site_ok; simpl; auto).
  pose proof (visit_ok j b rs _ (keeps_init j b _ H0)) as H.
  unfold SnowToggle.new.
  set (s := visit j b rs _) in *.
  unfold site_ok in H; split.
  - intros e He; rewrite He in H; exact (proj1 H).
  - intros He; rewrite He in H; destruct H as (H1 & _ & H3); auto.
Qed.

Lemma toggle_keeps_one_effect_witness :
  frames
    (window
       (visit plain_json CoreBuild
          [Click_toggle; Click_intensity "heavy"; Ask_enable (JString "light");
           Click_toggle]
          (left_by (SnowToggle.new plain_json CoreBuild default_options desk
                      empty_storage))))
  = [].
Proof.
  destruct (toggle_keeps_one_effect plain_json CoreBuild default_options desk
              empty_storage
              [Click_toggle; Click_intensity "heavy";
               Ask_enable (JString "light"); Click_toggle])
    as (_ & Hnone).
  - reflexivity.
  - reflexivity.
  - reflexivity.
  - apply Hnone; vm_compute; reflexivity.
Defined.

(** ** What a reload restores *)

Lemma highlighted_rule tier buttons :
  Forall (fun btn => snd btn = String.eqb (fst btn) tier)
    (highlighted tier buttons).
Proof.
  unfold highlighted; apply Forall_forall; intros btn Hin.
  apply in_map_iff in Hin; destruct Hin as (b0 & <- & _); reflexivity.
Qed.

Lemma updateSliderState_spec j s els tier :
  elements (toggle s) = Some els ->
  SimpleStorage.get j (storageKey (options (toggle s))) "intensity"
    (JString (defaultIntensity (options (toggle s)))) (localStorage s)
  = JString tier ->
  SnowToggle.updateSliderState j s
  = Done tt
      (set_elements
         (Some (mkElements (toggleBtn els)
                  (highlighted tier (intensityButtons els)))) s).
Proof.
  intros Hels Hget.
  unfold SnowToggle.updateSliderState, SnowToggle.storage_get,
    SnowToggle.the_elements, site, update, unit_T, bind_T; simpl.
  rewrite Hget, Hels; reflexivity.
Qed.

(** X25: a new toggle on a storage that reads [enabled] as [true] and the
    intensity as one of the engine's tiers (what a successful [enable]
    leaves, see X22), in season: the constructor returns with an effect of
    that tier initialized on a canvas of the viewport's size and running,
    the toggle button marked active, and every slider button it found
    highlighted exactly when its [data-intensity] is that tier.  On a
    storage where [enabled] reads as a falsy value (or is missing), it
    returns with no effect, an inactive button, the page and the storage
    untouched, and the slider buttons highlighted by the same rule.
    Nothing is said about which buttons the markup yields: only about
    the ones found. *)
Theorem reload_restores (j : Json) (b : Build) (opts : ToggleOptions)
    (page : Host) (ls : LocalStorage) (tier : string)
    (config : IntensityConfig) :
  INTENSITY_CONFIG b tier = Some config ->
  in_season opts ->
  roomy ls ->
  storable j (JBool true) -> storable j (JString tier) ->
  SimpleStorage.get j (storageKey opts) "intensity"
    (JString (defaultIntensity opts)) ls
  = JString tier ->
  (SimpleStorage.get j (storageKey opts) "enabled" (JBool false) ls
   = JBool true ->
   exists s e,
     SnowToggle.new j b opts page ls = Done tt s
     /\ snowEffect (toggle s) = Some e
     /\ intensity e = tier
     /\ canvas e = Some (mkCanvas (innerWidth page) (innerHeight page) true)
     /\ animationId e = Some (nextHandle page)
     /\ frames (window s) = nextHandle page :: frames page
     /\ exists buttons,
          elements (toggle s) = Some (mkElements true buttons)
          /\ Forall (fun btn => snd btn = String.eqb (fst btn) tier) buttons)
  /\ (truthy (SimpleStorage.get j (storageKey opts) "enabled" (JBool false) ls)
      = false ->
      exists s,
        SnowToggle.new j b opts page ls = Done tt s
        /\ snowEffect (toggle s) = None
        /\ window s = page
        /\ localStorage s = ls
        /\ exists buttons,
             elements (toggle s) = Some (mkElements false buttons)
             /\ Forall (fun btn => snd btn = String.eqb (fst btn) tier)
                  buttons).
Proof.
  intros Hcfg Hseason Hroom Hb Ht Hgi.
  pose (els := mkElements false
                 (map (fun intensity => (intensity, false)) (intensities opts))).
  pose (s1 := mkSite page ls (mkToggle opts None (Some els))).
  assert (Enew : SnowToggle.new j b opts page ls
                 = bind_T (if truthy (SimpleStorage.get j (storageKey opts)
                                        "enabled" (JBool false) ls)
                           then SnowToggle.enable j b (JString tier)
                           else unit_T tt)
                     (fun _ => SnowToggle.updateSliderState j) s1).
  { unfold SnowToggle.new, SnowToggle.init.
    rewrite (bind_T_Done SnowToggle.createUI _
               (mkSite page ls (mkToggle opts None None)) tt s1 eq_refl).
    unfold SnowToggle.restoreState; rewrite bind_site.
    rewrite (bind_T_Done (SnowToggle.storage_get j "enabled" (JBool false)) _
               s1 _ s1 eq_refl).
    rewrite (bind_T_Done (SnowToggle.storage_get j "intensity" _) _
               s1 _ s1 eq_refl).
    simpl; rewrite Hgi; reflexivity. }
  split.
  - intro Hge; rewrite Enew, Hge; simpl truthy; cbv iota.
    destruct (enable_spec j b tier config s1 els Hcfg Hseason eq_refl Hroom
                Hb Ht)
      as (s' & e & E & Hs & Ho & Hi & _ & Hc & _ & Hid & Hfr & Hel & _ & _
          & Hgt).
    rewrite (bind_T_Done _ _ s1 tt s' E).
    assert (Hgt' : SimpleStorage.get j (storageKey (options (toggle s')))
                     "intensity"
                     (JString (defaultIntensity (options (toggle s'))))
                     (localStorage s')
                   = JString tier) by (rewrite Ho; apply Hgt).
    rewrite (updateSliderState_spec j s' _ tier Hel Hgt').
    eexists; exists e; split; [reflexivity |]; simpl.
    repeat (split; [assumption |]).
    eexists; split; [reflexivity | apply highlighted_rule].
  - intro Hfalse; rewrite Enew, Hfalse.
    rewrite (bind_T_Done _ _ s1 tt s1 eq_refl).
    rewrite (updateSliderState_spec j s1 els tier eq_refl Hgi).
    eexists; split; [reflexivity |]; simpl.
    split; [reflexivity |]; split; [reflexivity |]; split; [reflexivity |].
    eexists; split; [reflexivity | apply highlighted_rule].
Qed.

Lemma reload_restores_witness :
  exists s e,
    SnowToggle.new plain_json CoreBuild default_options desk
      (snd (SimpleStorage.set plain_json "festive-snow" "enabled" (JBool true)
              (snd (SimpleStorage.set plain_json "festive-snow" "intensity"
                      (JString "light") empty_storage))))
    = Done tt s
    /\ snowEffect (toggle s) = Some e
    /\ intensity e = "light"%string.
Proof.
  destruct (reload_restores plain_json CoreBuild default_options desk
              (snd (SimpleStorage.set plain_json "festive-snow" "enabled"
                      (JBool true)
                      (snd (SimpleStorage.set plain_json "festive-snow"
                              "intensity" (JString "light") empty_storage))))
              "light" (mkConfig 50 (0.5, 1.5) (1, 3) 5 3))
    as (Hon & _).
  - reflexivity.
  - exact I.
  - split; reflexivity.
  - apply plain_json_bool.
  - apply plain_json_tier; reflexivity.
  - reflexivity.
  - destruct (Hon eq_refl) as (s & e & E & He & Hi & _).
    exists s, e; split; [exact E |]; split; [exact He | exact Hi].
Defined.

(** ** The slider *)

Lemma storage_set_spec j key v s :
  roomy (localStorage s) ->
  exists ls',
    SnowToggle.storage_set j key v s = Done true (set_localStorage ls' s)
    /\ ls' = snd (SimpleStorage.set j (storageKey (options (toggle s))) key v
                    (localStorage s))
    /\ roomy ls'.
Proof.
  intros Hroom; eexists; split; [| split; [reflexivity |]].
  - unfold SnowToggle.storage_set, site, update, unit_T, bind_T; simpl.
    destruct Hroom as [Hd Hq].
    unfold SimpleStorage.set; rewrite Hd, Hq; reflexivity.
  - apply roomy_set, Hroom.
Qed.

(** X26: [setIntensity] of the toggle, with elements in place, a storage
    that refuses nothing and a level that [JSON] reads back.  A level that
    is not among the toggle's [intensities] changes nothing.  A level that
    is among them is saved and highlighted on the slider; the running
    effect takes it over (same canvas, same frame, population rebuilt for
    the tier) when it is one of the engine's three tiers, and is left
    exactly as it was when it is not: with custom [intensities] the slider
    and the storage show a level that the snow does not have. *)
Theorem slider_sets_level (j : Json) (b : Build) (level : string) (s : Site)
    (els : Elements) (e : Effect) (c : Canvas) :
  elements (toggle s) = Some els ->
  snowEffect (toggle s) = Some e ->
  canvas e = Some c ->
  roomy (localStorage s) ->
  storable j (JString level) ->
  (existsb (String.eqb level) (intensities (options (toggle s))) = false ->
   SnowToggle.setIntensity j b level s = Done tt s)
  /\ (existsb (String.eqb level) (intensities (options (toggle s))) = true ->
      exists s',
        SnowToggle.setIntensity j b level s = Done tt s'
        /\ elements (toggle s')
           = Some (mkElements (toggleBtn els)
                     (highlighted level (intensityButtons els)))
        /\ (forall d,
              SimpleStorage.get j (storageKey (options (toggle s)))
                "intensity" d (localStorage s')
              = JString level)
        /\ (includes level = false ->
            snowEffect (toggle s') = Some e /\ window s' = window s)
        /\ (includes level = true ->
            exists e' config,
              snowEffect (toggle s') = Some e'
              /\ INTENSITY_CONFIG b level = Some config
              /\ intensity e' = level
              /\ canvas e' = Some c
              /\ animationId e' = animationId e
              /\ isPaused e' = isPaused e
              /\ frames (window s') = frames (window s)
              /\ List.length (particles e')
                 = Z.to_nat
                     (density (lt (num (innerWidth (window s))) 768)
                        (count config)))).
Proof.
  intros Hels He Hc Hroom [Hp Hn]; split.
  - intro Hin; unfold SnowToggle.setIntensity; rewrite bind_site, Hin.
    reflexivity.
  - intro Hin.
    destruct (storage_set_spec j "intensity" (JString level) s Hroom)
      as (ls' & Eset & Hls & Hroom').
    set (s1 := set_localStorage ls' s) in *.
    assert (Hget : forall d,
               SimpleStorage.get j (storageKey (options (toggle s)))
                 "intensity" d ls'
               = JString level).
    { intro d; rewrite Hls; destruct Hroom as [Hd Hq].
      apply (get_after_set j _ "intensity" (JString level) d (localStorage s)
               Hd (Hq _ _) Hp Hn). }
    assert (Estep : forall s2,
               on_effect (setIntensity b level) s1 = Done tt s2 ->
               elements (toggle s2) = Some els ->
               localStorage s2 = ls' ->
               options (toggle s2) = options (toggle s) ->
               SnowToggle.setIntensity j b level s
               = Done tt
                   (set_elements
                      (Some (mkElements (toggleBtn els)
                               (highlighted level (intensityButtons els))))
                      s2)).
    { intros s2 E2 Hels2 Hls2 Ho2.
      unfold SnowToggle.setIntensity; rewrite bind_site, Hin.
      change (negb true) with false; cbv iota.
      rewrite (bind_T_Done _ _ s true s1 Eset), bind_site.
      change (snowEffect (toggle s1)) with (snowEffect (toggle s)).
      rewrite He, (bind_T_Done _ _ s1 tt s2 E2).
      apply updateSliderState_spec; [exact Hels2 |].
      rewrite Hls2, Ho2; apply Hget. }
    destruct (includes level) eqn:Hinc.
    + destruct (table_valid b level Hinc) as (config & Hcfg & _).
      pose (w1 := mkWorld (window s) (set_intensity level e)).
      destruct (createParticles_spec b w1 c config Hc Hcfg)
        as (ps & ts & ws & w2 & E & S2 & H2 & Lp & _).
      assert (Eeng : setIntensity b level (mkWorld (window s1) e) = Ok tt w2).
      { unfold setIntensity; rewrite Hinc.
        change (negb true) with false; cbv iota.
        rewrite (bind_Ok (assign (set_intensity level)) _
                   (mkWorld (window s1) e) tt w1 eq_refl).
        exact E. }
      pose proof (on_effect_Ok (setIntensity b level) s1 e tt w2 He Eeng)
        as E2.
      eexists; split; [apply (Estep _ E2 Hels eq_refl eq_refl) |].
      simpl; split; [reflexivity |]; split; [exact Hget |].
      split; [discriminate |]; intros _.
      exists (self w2), config; rewrite S2, H2; simpl.
      repeat split; try assumption; try reflexivity.
    + assert (Eeng : setIntensity b level (mkWorld (window s1) e)
                     = Ok tt (mkWorld (window s1) e)).
      { unfold setIntensity; rewrite Hinc; reflexivity. }
      pose proof (on_effect_Ok (setIntensity b level) s1 e tt _ He Eeng)
        as E2.
      eexists; split; [apply (Estep _ E2 Hels eq_refl eq_refl) |].
      simpl; split; [reflexivity |]; split; [exact Hget |].
      split; [intros _; split; reflexivity | discriminate].
Qed.

(** The toggle of the documentation's example with custom intensities,
    holding an initialized effect without particles. *)
Definition custom_options : ToggleOptions :=
  mkToggleOptions "festive-snow" ["gentle"; "moderate"; "blizzard"]%string
    "gentle" None.

Definition custom_effect : Effect :=
  set_canvas (Some (mkCanvas 1024 768 true))
    (constructor (mkOptions (Some "medium"%string) (Some true) None)).

Definition custom_site : Site :=
  mkSite desk empty_storage
    (mkToggle custom_options (Some custom_effect)
       (Some (mkElements true
                [("gentle", true); ("moderate", false); ("blizzard", false)]
                %string))).

Lemma slider_sets_level_witness :
  exists s',
    SnowToggle.setIntensity plain_json CoreBuild "blizzard" custom_site
    = Done tt s'
    /\ snowEffect (toggle s') = Some custom_effect
    /\ SimpleStorage.get plain_json "festive-snow" "intensity" JNull
         (localStorage s')
       = JString "blizzard".
Proof.
  destruct (slider_sets_level plain_json CoreBuild "blizzard" custom_site
              (mkElements true
                 [("gentle", true); ("moderate", false); ("blizzard", false)]
                 %string)
              custom_effect (mkCanvas 1024 768 true))
    as (_ & Hin).
  - reflexivity.
  - reflexivity.
  - reflexivity.
  - exact empty_storage_roomy.
  - split; [reflexivity | discriminate].
  - destruct (Hin eq_refl) as (s' & E & _ & Hget & Hout & _).
    exists s'; split; [exact E |]; split; [apply (Hout eq_refl) | apply Hget].
Defined.

(** ** Turning the snow off again *)

Lemma disable_spec j s els e :
  elements (toggle s) = Some els ->
  snowEffect (toggle s) = Some e ->
  roomy (localStorage s) ->
  storable j (JBool false) ->
  exists s',
    SnowToggle.disable j s = Done tt s'
    /\ snowEffect (toggle s') = None
    /\ options (toggle s') = options (toggle s)
    /\ elements (toggle s')
       = Some (mkElements false (intensityButtons els))
    /\ frames (window s') = frames_without (Some e) s
    /\ listening (window s') = false
    /\ (forall d,
          SimpleStorage.get j (storageKey (options (toggle s))) "enabled" d
            (localStorage s')
          = JBool false)
    /\ (forall key d,
          key <> "enabled"%string ->
          SimpleStorage.get j (storageKey (options (toggle s))) key d
            (localStorage s')
          = SimpleStorage.get j (storageKey (options (toggle s))) key d
              (localStorage s)).
Proof.
  intros Hels He Hroom [Hp Hn].
  destruct (stop_page (mkWorld (window s) e))
    as (w' & E & _ & _ & Hl & _ & _ & _ & _ & _ & Hf).
  pose (s1 := set_snowEffect (Some (self w')) (set_window (host w') s)).
  pose (s2 := set_snowEffect None s1).
  pose (s3 := set_elements (Some (mkElements false (intensityButtons els))) s2).
  destruct (storage_set_spec j "enabled" (JBool false) s3 Hroom)
    as (ls' & Eset & Hls & _).
  exists (set_localStorage ls' s3); split.
  - unfold SnowToggle.disable; rewrite bind_site, He.
    rewrite (bind_T_Done
               (bind_T (on_effect stop) (fun _ => update (set_snowEffect None)))
               _ s tt s2).
    + assert (E3 : SnowToggle.classList_set false s2 = Done tt s3).
      { unfold SnowToggle.classList_set, SnowToggle.the_elements, site,
          update, unit_T, bind_T; simpl; rewrite Hels; reflexivity. }
      rewrite (bind_T_Done _ _ s2 tt s3 E3).
      rewrite (bind_T_Done _ _ s3 true _ Eset); reflexivity.
    + rewrite (bind_T_Done _ _ s tt s1 (on_effect_Ok stop s e tt w' He E)).
      reflexivity.
  - split; [reflexivity |]; split; [reflexivity |]; split; [reflexivity |].
    split; [exact Hf |]; split; [exact Hl |].
    change (localStorage (set_localStorage ls' s3)) with ls'.
    rewrite Hls; change (localStorage s3) with (localStorage s).
    change (options (toggle s3)) with (options (toggle s)).
    destruct Hroom as [Hd Hq]; split.
    + intro d.
      apply (get_after_set j _ "enabled" (JBool false) d (localStorage s) Hd
               (Hq _ _) Hp Hn).
    + intros key d Hk; apply get_after_other_set.
      intro E'; apply item_name_inj in E'; congruence.
Qed.

(** X28: two clicks on the toggle button.  On a toggle that is off (no
    effect, button inactive, no frame pending), in season, with a working
    storage whose intensity (saved or default) reads as one of the
    engine's tiers: the first click starts an effect of that tier and
    marks the button; the second click stops it and forgets it, so that no
    frame is pending and no listener is bound, unmarks the button and
    saves [enabled = false], while the saved intensity still reads as the
    tier. *)
Theorem click_twice_turns_off (j : Json) (b : Build) (tier : string)
    (config : IntensityConfig) (s : Site) (els : Elements) :
  INTENSITY_CONFIG b tier = Some config ->
  in_season (options (toggle s)) ->
  elements (toggle s) = Some els ->
  toggleBtn els = false ->
  snowEffect (toggle s) = None ->
  frames (window s) = [] ->
  roomy (localStorage s) ->
  storable j (JBool true) -> storable j (JBool false) ->
  storable j (JString tier) ->
  SimpleStorage.get j (storageKey (options (toggle s))) "intensity"
    (JString (defaultIntensity (options (toggle s)))) (localStorage s)
  = JString tier ->
  exists s1 e s2,
    SnowToggle.click_toggle j b s = Done tt s1
    /\ snowEffect (toggle s1) = Some e
    /\ intensity e = tier
    /\ animationId e = Some (nextHandle (window s))
    /\ frames (window s1) = [nextHandle (window s)]
    /\ SnowToggle.click_toggle j b s1 = Done tt s2
    /\ snowEffect (toggle s2) = None
    /\ frames (window s2) = []
    /\ listening (window s2) = false
    /\ elements (toggle s2)
       = Some (mkElements false (highlighted tier (intensityButtons els)))
    /\ (forall d,
          SimpleStorage.get j (storageKey (options (toggle s))) "enabled" d
            (localStorage s2)
          = JBool false)
    /\ (forall d,
          SimpleStorage.get j (storageKey (options (toggle s))) "intensity" d
            (localStorage s2)
          = JString tier).
Proof.
  intros Hcfg Hseason Hels Hoff Hnone Hfr Hroom Hbt Hbf Ht Hgi.
  destruct (enable_spec j b tier config s els Hcfg Hseason Hels Hroom Hbt Ht)
    as (s1 & e & E1 & He1 & Ho1 & Hi & _ & _ & _ & Hid & Hf1 & Hel1 & Hr1 & _
        & Hgt).
  rewrite Hnone in Hf1; simpl in Hf1; rewrite Hfr in Hf1.
  destruct (disable_spec j s1
              (mkElements true (highlighted tier (intensityButtons els))) e
              Hel1 He1 Hr1 Hbf)
    as (s2 & E2 & He2 & _ & Hel2 & Hf2 & Hl2 & Hge & Hother).
  exists s1, e, s2.
  split.
  { unfold SnowToggle.click_toggle.
    rewrite (bind_T_Done SnowToggle.the_elements _ s els s).
    - rewrite Hoff, bind_site.
      rewrite (bind_T_Done (SnowToggle.storage_get j "intensity" _) _
                 s (JString tier) s).
      + exact E1.
      + unfold SnowToggle.storage_get; rewrite bind_site, Hgi; reflexivity.
    - unfold SnowToggle.the_elements; rewrite bind_site, Hels; reflexivity. }
  split; [exact He1 |]; split; [exact Hi |]; split; [exact Hid |].
  split; [exact Hf1 |]; split.
  { unfold SnowToggle.click_toggle.
    rewrite (bind_T_Done SnowToggle.the_elements _ s1
               (mkElements true (highlighted tier (intensityButtons els))) s1).
    - exact E2.
    - unfold SnowToggle.the_elements; rewrite bind_site, Hel1; reflexivity. }
  split; [exact He2 |]; split.
  { rewrite Hf2; unfold frames_without; rewrite Hid, Hf1; apply drop_only. }
  split; [exact Hl2 |]; split; [exact Hel2 |].
  rewrite Ho1 in Hge, Hother; split; [exact Hge |].
  intro d; rewrite Hother; [apply Hgt | discriminate].
Qed.

Lemma click_twice_turns_off_witness :
  exists s1 e s2,
    SnowToggle.click_toggle plain_json CoreBuild fresh_site = Done tt s1
    /\ snowEffect (toggle s1) = Some e
    /\ SnowToggle.click_toggle plain_json CoreBuild s1 = Done tt s2
    /\ snowEffect (toggle s2) = None
    /\ frames (window s2) = [].
Proof.
  destruct (click_twice_turns_off plain_json CoreBuild "medium"
              (mkConfig 150 (0.8, 2.5) (1, 4) 10 6) fresh_site
              (mkElements false
                 [("light", false); ("medium", true); ("heavy", false)]%string))
    as (s1 & e & s2 & E1 & He & _ & _ & _ & E2 & Hn & Hf & _).
  - reflexivity.
  - exact I.
  - reflexivity.
  - reflexivity.
  - reflexivity.
  - reflexivity.
  - exact empty_storage_roomy.
  - apply plain_json_bool.
  - apply plain_json_bool.
  - apply plain_json_tier; reflexivity.
  - reflexivity.
  - exists s1, e, s2.
    split; [exact E1 |]; split; [exact He |]; split; [exact E2 |].
    split; [exact Hn | exact Hf].
Defined.
